(** * SmartRoute: the graph routing engine of [backend/utils/graphRouting.js]

    A shallow embedding of the [RoadGraph] class (nodes, edges, load
    updates, Dijkstra search, alternative paths by edge suppression and the
    traffic allocator), followed by the properties of the specification
    that were checked against it.

    Conventions of the embedding
    - A JavaScript number is a [num]: an exact rational, [Infinity],
      [-Infinity] or [NaN].  The special values of doubles are there, their
      rounding, their overflow and the sign of zero are not.  Statements
      about numbers are worded so that they hold for doubles as well:
      orderings that rounding can blur are stated non-strictly, the sign of
      an infinity that comes from a division by zero is left open, and
      hypotheses keep quotients and sums inside the range of doubles.
      Where rounding itself decides, the expression of the source is
      evaluated on doubles ([Binary64]).
    - A [Map] or [Set] is a list in insertion order: [set] on a key that is
      present keeps its position, a new key goes to the end.
    - A call either returns, throws, or does not come back from a loop:
      [outcome]. *)

From Stdlib Require Import List String Ascii Bool Arith ZArith QArith Qcanon Qround Lia.
From Stdlib Require PrimFloat.
Import ListNotations.
Open Scope string_scope.
Open Scope list_scope.

(* ================================================================= *)
(** ** JavaScript numbers *)

Inductive num : Type :=
| Fin (q : Qc)
| PInf
| NInf
| NaN.

Definition Qc_ltb (a b : Qc) : bool :=
  match Qccompare a b with Lt => true | _ => false end.

Definition Qc_is_zero (a : Qc) : bool :=
  match Qccompare a 0%Qc with Eq => true | _ => false end.

Definition num_of_Z (z : Z) : num := Fin (Q2Qc (inject_Z z)).

Definition num_neg (a : num) : num :=
  match a with
  | Fin q => Fin (- q)%Qc
  | PInf => NInf
  | NInf => PInf
  | NaN => NaN
  end.

Definition num_add (a b : num) : num :=
  match a, b with
  | NaN, _ | _, NaN => NaN
  | Fin x, Fin y => Fin (x + y)%Qc
  | PInf, NInf | NInf, PInf => NaN
  | PInf, _ | _, PInf => PInf
  | NInf, _ | _, NInf => NInf
  end.

Definition num_sub (a b : num) : num := num_add a (num_neg b).

(** An infinity scaled by a finite factor: the sign of the factor decides,
    and a zero factor gives [NaN]. *)
Definition scale_inf (inf : num) (y : Qc) : num :=
  match Qccompare y 0%Qc with
  | Gt => inf
  | Lt => num_neg inf
  | Eq => NaN
  end.

Definition num_mul (a b : num) : num :=
  match a, b with
  | NaN, _ | _, NaN => NaN
  | Fin x, Fin y => Fin (x * y)%Qc
  | Fin x, PInf => scale_inf PInf x
  | Fin x, NInf => scale_inf NInf x
  | PInf, Fin y => scale_inf PInf y
  | NInf, Fin y => scale_inf NInf y
  | PInf, PInf | NInf, NInf => PInf
  | PInf, NInf | NInf, PInf => NInf
  end.

Definition num_div (a b : num) : num :=
  match a, b with
  | NaN, _ | _, NaN => NaN
  | Fin x, Fin y =>
      if Qc_is_zero y
      then match Qccompare x 0%Qc with
           | Gt => PInf
           | Lt => NInf
           | Eq => NaN
           end
      else Fin (x / y)%Qc
  | Fin _, PInf | Fin _, NInf => Fin 0%Qc
  | PInf, Fin y => if Qc_ltb y 0%Qc then NInf else PInf
  | NInf, Fin y => if Qc_ltb y 0%Qc then PInf else NInf
  | _, _ => NaN
  end.

(** [a < b]; every comparison with [NaN] is false. *)
Definition num_ltb (a b : num) : bool :=
  match a, b with
  | NaN, _ | _, NaN => false
  | Fin x, Fin y => Qc_ltb x y
  | NInf, NInf => false
  | NInf, _ => true
  | _, NInf => false
  | PInf, _ => false
  | Fin _, PInf => true
  end.

(** [Math.floor]. *)
Definition num_floor (a : num) : num :=
  match a with
  | Fin q => num_of_Z (Qfloor q)
  | other => other
  end.

(** Truthiness of a number, as [||] tests it: [0] and [NaN] are falsy. *)
Definition truthy (a : num) : bool :=
  match a with
  | Fin q => negb (Qc_is_zero q)
  | NaN => false
  | _ => true
  end.

Declare Scope num_scope.
Delimit Scope num_scope with num.
Bind Scope num_scope with num.
Infix "+" := num_add : num_scope.
Infix "-" := num_sub : num_scope.
Infix "*" := num_mul : num_scope.
Infix "/" := num_div : num_scope.
Infix "<?" := num_ltb : num_scope.

Definition n0 : num := num_of_Z 0.
Definition n1 : num := num_of_Z 1.

(** [x || d] where [x] may be [undefined] ([None]). *)
Definition or_else (x : option num) (d : num) : num :=
  match x with
  | Some v => if truthy v then v else d
  | None => d
  end.

(** A key of an object literal followed by [...data]: the value in [data]
    wins whenever the key is present there. *)
Definition spread {A : Type} (fromData : option A) (literal : A) : A :=
  match fromData with
  | Some v => v
  | None => literal
  end.

(* ================================================================= *)
(** ** Outcomes of a call *)

Inductive error : Type :=
| Error (message : string)
| TypeError.

Inductive outcome (A : Type) : Type :=
| Ok (a : A)
| Throw (e : error)
| Diverge.

Arguments Ok {A} a.
Arguments Throw {A} e.
Arguments Diverge {A}.

Definition bind {A B : Type} (c : outcome A) (k : A -> outcome B) : outcome B :=
  match c with
  | Ok a => k a
  | Throw e => Throw e
  | Diverge => Diverge
  end.

Notation "x <- c ;; k" := (bind c (fun x => k))
  (at level 61, c at next level, right associativity).
Notation "' pat <- c ;; k" := (bind c (fun x => match x with pat => k end))
  (at level 61, pat pattern, c at next level, right associativity).

(* ================================================================= *)
(** ** [Map] and [Set] in insertion order *)

Section JsMap.
Context {V : Type}.

Definition jsmap : Type := list (string * V).

Fixpoint map_get (k : string) (m : jsmap) : option V :=
  match m with
  | [] => None
  | (k', v) :: rest => if String.eqb k k' then Some v else map_get k rest
  end.

Definition map_has (k : string) (m : jsmap) : bool :=
  match map_get k m with Some _ => true | None => false end.

Fixpoint map_set (k : string) (v : V) (m : jsmap) : jsmap :=
  match m with
  | [] => [(k, v)]
  | (k', v') :: rest =>
      if String.eqb k k' then (k', v) :: rest
      else (k', v') :: map_set k v rest
  end.

Fixpoint map_delete (k : string) (m : jsmap) : jsmap :=
  match m with
  | [] => []
  | (k', v') :: rest =>
      if String.eqb k k' then map_delete k rest
      else (k', v') :: map_delete k rest
  end.

Definition map_keys (m : jsmap) : list string := map fst m.
End JsMap.

Arguments jsmap V : clear implicits.

Definition jsset : Type := list string.

Fixpoint set_has (x : string) (s : jsset) : bool :=
  match s with
  | [] => false
  | y :: rest => if String.eqb x y then true else set_has x rest
  end.

Definition set_add (x : string) (s : jsset) : jsset :=
  if set_has x s then s else s ++ [x].

Fixpoint set_delete (x : string) (s : jsset) : jsset :=
  match s with
  | [] => []
  | y :: rest => if String.eqb x y then set_delete x rest else y :: set_delete x rest
  end.

(* ================================================================= *)
(** ** The graph *)

(** A node object.  [node_name] stands for the descriptive attributes
    (name, type, coordinates, isTemple) that [addNode] spreads into the
    node and that the routing code never reads. *)
Record Node : Type := {
  node_id : string;
  connections : jsset;
  node_name : option string
}.

(** The [data] argument of [addNode]: every key is optional. *)
Record NodeData : Type := {
  nd_id : option string;
  nd_connections : option jsset;
  nd_name : option string
}.

(** An edge object.  Descriptive keys that [data] may carry besides these
    (a road type, a name) are spread into the edge as well and never read. *)
Record Edge : Type := {
  edge_id : string;
  from : string;
  to : string;
  distance : num;
  travelTime : num;
  capacity : num;
  currentLoad : num;
  speedLimit : num;
  currentTravelTime : option num;
  bidirectional : option bool
}.

(** The [data] argument of [addEdge]: every key is optional, and keys of an
    edge object itself may be present, as when an edge is passed back. *)
Record EdgeData : Type := {
  d_id : option string;
  d_from : option string;
  d_to : option string;
  d_distance : option num;
  d_travelTime : option num;
  d_capacity : option num;
  d_currentLoad : option num;
  d_speedLimit : option num;
  d_currentTravelTime : option num;
  d_bidirectional : option bool
}.

Record RoadGraph : Type := {
  nodes : jsmap Node;
  edges : jsmap Edge
}.

(** [new RoadGraph()] *)
Definition emptyGraph : RoadGraph := {| nodes := []; edges := [] |}.

(** [{}] *)
Definition noNodeData : NodeData :=
  {| nd_id := None; nd_connections := None; nd_name := None |}.

Definition noEdgeData : EdgeData :=
  {| d_id := None; d_from := None; d_to := None; d_distance := None;
     d_travelTime := None; d_capacity := None; d_currentLoad := None;
     d_speedLimit := None; d_currentTravelTime := None;
     d_bidirectional := None |}.

(** [addNode(id, data)]: [{ id, connections: new Set(), ...data }]. *)
Definition addNode (id : string) (data : NodeData) (g : RoadGraph) : RoadGraph :=
  {| nodes := map_set id
                {| node_id := spread (nd_id data) id;
                   connections := spread (nd_connections data) [];
                   node_name := nd_name data |}
                (nodes g);
     edges := edges g |}.

(** The object literal that [addEdge] stores, for either direction. *)
Definition edgeLiteral (edgeId fromId toId : string) (data : EdgeData) : Edge :=
  {| edge_id := spread (d_id data) edgeId;
     from := spread (d_from data) fromId;
     to := spread (d_to data) toId;
     distance := spread (d_distance data) (or_else (d_distance data) n1);
     travelTime := spread (d_travelTime data)
                     (or_else (d_travelTime data) (or_else (d_distance data) n1));
     capacity := spread (d_capacity data) (or_else (d_capacity data) (num_of_Z 100));
     currentLoad := spread (d_currentLoad data) (or_else (d_currentLoad data) n0);
     speedLimit := spread (d_speedLimit data) (or_else (d_speedLimit data) (num_of_Z 50));
     currentTravelTime := d_currentTravelTime data;
     bidirectional := d_bidirectional data |}.

(** [this.nodes.get(id).connections.add(x)]: the stored node object is
    changed in place. *)
Definition addConnection (id x : string) (ns : jsmap Node) : outcome (jsmap Node) :=
  match map_get id ns with
  | None => Throw TypeError
  | Some node =>
      Ok (map_set id
            {| node_id := node_id node;
               connections := set_add x (connections node);
               node_name := node_name node |}
            ns)
  end.

Definition edgeKey (fromId toId : string) : string := fromId ++ "-" ++ toId.

Arguments edgeKey : simpl never.

Definition addEdge (fromId toId : string) (data : EdgeData) (g : RoadGraph)
  : outcome RoadGraph :=
  let edgeId := edgeKey fromId toId in
  if negb (map_has fromId (nodes g)) || negb (map_has toId (nodes g))
  then Throw (Error ("Cannot create edge between non-existent nodes: "
                       ++ fromId ++ ", " ++ toId))
  else
    let es1 := map_set edgeId (edgeLiteral edgeId fromId toId data) (edges g) in
    ns1 <- addConnection fromId toId (nodes g) ;;
    match d_bidirectional data with
    | Some true =>
        let reverseEdgeId := edgeKey toId fromId in
        let es2 := map_set reverseEdgeId
                     (edgeLiteral reverseEdgeId toId fromId data) es1 in
        ns2 <- addConnection toId fromId ns1 ;;
        Ok {| nodes := ns2; edges := es2 |}
    | _ => Ok {| nodes := ns1; edges := es1 |}
    end.

(** The edge object after [edge.currentLoad = load] and the recomputation of
    [edge.currentTravelTime]. *)
Definition loadedEdge (load : num) (edge : Edge) : Edge :=
  let loadFactor := (load / capacity edge)%num in
  {| edge_id := edge_id edge;
     from := from edge;
     to := to edge;
     distance := distance edge;
     travelTime := travelTime edge;
     capacity := capacity edge;
     currentLoad := load;
     speedLimit := speedLimit edge;
     currentTravelTime := Some (travelTime edge * (n1 + loadFactor))%num;
     bidirectional := bidirectional edge |}.

Definition updateEdgeLoad (fromId toId : string) (load : num) (g : RoadGraph)
  : outcome RoadGraph :=
  let edgeId := edgeKey fromId toId in
  match map_get edgeId (edges g) with
  | None => Throw (Error ("Edge does not exist: " ++ edgeId))
  | Some edge =>
      Ok {| nodes := nodes g;
            edges := map_set edgeId (loadedEdge load edge) (edges g) |}
  end.

(* ================================================================= *)
(** ** Shortest path *)

(** The default weight function: [edge.currentTravelTime || edge.travelTime]. *)
Definition defaultWeight (edge : Edge) : num :=
  or_else (currentTravelTime edge) (travelTime edge).

(** [weightFn || default].  An injected function is a total function of the
    edge object. *)
Definition weightOf (weightFn : option (Edge -> num)) : Edge -> num :=
  match weightFn with
  | Some f => f
  | None => defaultWeight
  end.

(** [m.get(k)] used as a number: [undefined] behaves as [NaN] under [<]
    and [+]. *)
Definition getNum (k : string) (m : jsmap num) : num :=
  match map_get k m with
  | Some d => d
  | None => NaN
  end.

(** The loop that sets the initial distances and fills [unvisited]. *)
Definition initSearch (startId : string) (keys : list string)
  : jsmap num * jsset :=
  fold_left
    (fun (st : jsmap num * jsset) nodeId =>
       (map_set nodeId (if String.eqb nodeId startId then n0 else PInf) (fst st),
        set_add nodeId (snd st)))
    keys ([], []).

(** The scan for the unvisited node of minimum distance; the state is
    [(current, minDistance)]. *)
Definition findMin (distances : jsmap num) (unvisited : jsset)
  : option string * num :=
  fold_left
    (fun (st : option string * num) nodeId =>
       let d := getNum nodeId distances in
       if (d <? snd st)%num then (Some nodeId, d) else st)
    unvisited (None, PInf).

(** The loop over [currentNode.connections]. *)
Fixpoint relax (getWeight : Edge -> num) (es : jsmap Edge) (current : string)
    (neighbors : list string) (unvisited : jsset)
    (distances : jsmap num) (previous : jsmap string)
  : outcome (jsmap num * jsmap string) :=
  match neighbors with
  | [] => Ok (distances, previous)
  | neighborId :: rest =>
      if negb (set_has neighborId unvisited)
      then relax getWeight es current rest unvisited distances previous
      else
        match map_get (edgeKey current neighborId) es with
        | None => Throw TypeError
        | Some edge =>
            let weight := getWeight edge in
            let newDistance := (getNum current distances + weight)%num in
            if (newDistance <? getNum neighborId distances)%num
            then relax getWeight es current rest unvisited
                   (map_set neighborId newDistance distances)
                   (map_set neighborId current previous)
            else relax getWeight es current rest unvisited distances previous
        end
  end.

(** The main [while (unvisited.size > 0)] loop.  Every round that does not
    leave the loop deletes one member of [unvisited], so [fuel] rounds are
    enough when [fuel] is the size of [unvisited]
    (see [mainLoop_fuel_enough]). *)
Fixpoint mainLoop (fuel : nat) (getWeight : Edge -> num) (g : RoadGraph)
    (endId : string) (unvisited : jsset)
    (distances : jsmap num) (previous : jsmap string)
  : outcome (jsmap num * jsmap string) :=
  match unvisited with
  | [] => Ok (distances, previous)
  | _ :: _ =>
      match fuel with
      | O => Diverge
      | S fuel' =>
          match fst (findMin distances unvisited) with
          | None => Ok (distances, previous)
          | Some current =>
              if String.eqb current endId then Ok (distances, previous)
              else
                let unvisited' := set_delete current unvisited in
                match map_get current (nodes g) with
                | None => Throw TypeError
                | Some currentNode =>
                    ' (distances', previous') <-
                      relax getWeight (edges g) current (connections currentNode)
                        unvisited' distances previous ;;
                    mainLoop fuel' getWeight g endId unvisited' distances' previous'
                end
          end
      end
  end.

(** The [while (current !== startId)] loop followed by
    [path.unshift(startId)].  When [previous.get(current)] is [undefined]
    the source loop never exits. *)
Fixpoint buildPath (fuel : nat) (previous : jsmap string) (startId current : string)
    (path : list string) : outcome (list string) :=
  if String.eqb current startId then Ok (startId :: path)
  else
    match fuel with
    | O => Diverge
    | S fuel' =>
        match map_get current previous with
        | None => Diverge
        | Some before => buildPath fuel' previous startId before (current :: path)
        end
    end.

(** A found path: [{ found: true, path, edges, distance, travelTime }]. *)
Record PathInfo : Type := {
  path : list string;
  pathEdges : list Edge;
  totalDistance : num;
  totalTravelTime : num
}.

(** The result of [findShortestPath]; [NotFound] is
    [{ found: false, distance: Infinity, path: [] }]. *)
Inductive PathResult : Type :=
| Found (p : PathInfo)
| NotFound.

(** The loop that sums distance and travel time along the path. *)
Fixpoint sumPath (es : jsmap Edge) (nodesOnPath : list string)
    (dist time : num) (acc : list Edge) : outcome (num * num * list Edge) :=
  match nodesOnPath with
  | a :: ((b :: _) as rest) =>
      match map_get (edgeKey a b) es with
      | None => Throw TypeError
      | Some edge =>
          sumPath es rest (dist + distance edge)%num
            (time + defaultWeight edge)%num (acc ++ [edge])
      end
  | _ => Ok (dist, time, acc)
  end.

Definition findShortestPath (startId endId : string)
    (weightFn : option (Edge -> num)) (g : RoadGraph) : outcome PathResult :=
  let getWeight := weightOf weightFn in
  if negb (map_has startId (nodes g)) || negb (map_has endId (nodes g))
  then Throw (Error ("Start or end node does not exist: "
                       ++ startId ++ ", " ++ endId))
  else
    let '(distances, unvisited) := initSearch startId (map_keys (nodes g)) in
    ' (_, previous) <-
      mainLoop (List.length unvisited) getWeight g endId unvisited distances [] ;;
    match map_get endId previous with
    | None => Ok NotFound
    | Some _ =>
        nodesOnPath <- buildPath (List.length previous) previous startId endId [] ;;
        ' (dist, time, es) <- sumPath (edges g) nodesOnPath n0 n0 [] ;;
        Ok (Found {| path := nodesOnPath; pathEdges := es;
                     totalDistance := dist; totalTravelTime := time |})
    end.

(* ================================================================= *)
(** ** Alternative paths *)

(** [Array.prototype.join('-')] on node identifiers. *)
Fixpoint join (xs : list string) : string :=
  match xs with
  | [] => ""
  | [x] => x
  | x :: rest => x ++ "-" ++ join rest
  end.

Fixpoint pathExists (existingPaths : list PathInfo) (newPath : list string) : bool :=
  match existingPaths with
  | [] => false
  | existing :: rest =>
      if String.eqb (join (path existing)) (join newPath) then true
      else pathExists rest newPath
  end.

(** [{ ...node }] *)
Definition nodeAsData (node : Node) : NodeData :=
  {| nd_id := Some (node_id node);
     nd_connections := Some (connections node);
     nd_name := node_name node |}.

(** [{ ...edge }], also an edge object passed where [data] is expected. *)
Definition edgeAsData (edge : Edge) : EdgeData :=
  {| d_id := Some (edge_id edge);
     d_from := Some (from edge);
     d_to := Some (to edge);
     d_distance := Some (distance edge);
     d_travelTime := Some (travelTime edge);
     d_capacity := Some (capacity edge);
     d_currentLoad := Some (currentLoad edge);
     d_speedLimit := Some (speedLimit edge);
     d_currentTravelTime := currentTravelTime edge;
     d_bidirectional := bidirectional edge |}.

Definition withBidirectional (b : bool) (data : EdgeData) : EdgeData :=
  {| d_id := d_id data; d_from := d_from data; d_to := d_to data;
     d_distance := d_distance data; d_travelTime := d_travelTime data;
     d_capacity := d_capacity data; d_currentLoad := d_currentLoad data;
     d_speedLimit := d_speedLimit data;
     d_currentTravelTime := d_currentTravelTime data;
     d_bidirectional := Some b |}.

(** The working copy [tempGraph], nodes first.  [{ ...node }] carries the
    neighbor set of the live node along, so [addNode] stores that very set
    in the copy.  [findAlternativePaths] never reads the live graph again
    after the copy, so what it returns depends on the contents of the sets
    only, and a copy by value gives the same result.  (Additions that the
    working copy makes to a shared set also show in the live graph; they
    are outside the results modelled here.) *)
Definition copyNodes (g : RoadGraph) : RoadGraph :=
  fold_left
    (fun tempGraph (entry : string * Node) =>
       addNode (fst entry) (nodeAsData (snd entry)) tempGraph)
    (nodes g) emptyGraph.

Fixpoint copyEdges (entries : list (string * Edge)) (tempGraph : RoadGraph)
  : outcome RoadGraph :=
  match entries with
  | [] => Ok tempGraph
  | (edgeId, edge) :: rest =>
      if negb (map_has edgeId (edges tempGraph))
      then
        tempGraph' <- addEdge (from edge) (to edge)
                        (withBidirectional false (edgeAsData edge)) tempGraph ;;
        copyEdges rest tempGraph'
      else copyEdges rest tempGraph
  end.

(** The inner [for j] loop over the edges of the previous path: the first
    component of the result is the path that was pushed, if any. *)
Fixpoint suppressEdges (startId endId : string) (paths : list PathInfo)
    (prevNodes : list string) (tempGraph : RoadGraph)
  : outcome (option PathInfo * RoadGraph) :=
  match prevNodes with
  | fromId :: ((toId :: _) as rest) =>
      let edgeId := edgeKey fromId toId in
      let edge := map_get edgeId (edges tempGraph) in
      let removed := {| nodes := nodes tempGraph;
                        edges := map_delete edgeId (edges tempGraph) |} in
      newPath <- findShortestPath startId endId None removed ;;
      restored <- addEdge fromId toId
                    (match edge with
                     | Some e => edgeAsData e
                     | None => noEdgeData
                     end) removed ;;
      match newPath with
      | Found p =>
          if negb (pathExists paths (path p)) then Ok (Some p, restored)
          else suppressEdges startId endId paths rest restored
      | NotFound => suppressEdges startId endId paths rest restored
      end
  | _ => Ok (None, tempGraph)
  end.

(** The outer [for (let i = 1; i < k; i++)] loop, with [rounds] the number
    of values of [i] still to come. *)
Fixpoint morePaths (rounds i : nat) (startId endId : string)
    (paths : list PathInfo) (tempGraph : RoadGraph) : outcome (list PathInfo) :=
  match rounds with
  | O => Ok paths
  | S rounds' =>
      match nth_error paths (i - 1) with
      | None => Throw TypeError
      | Some prevPath =>
          ' (pushed, tempGraph') <-
            suppressEdges startId endId paths (path prevPath) tempGraph ;;
          let paths' := match pushed with
                        | Some p => paths ++ [p]
                        | None => paths
                        end in
          if (List.length paths' <=? i)%nat then Ok paths'
          else morePaths rounds' (S i) startId endId paths' tempGraph'
      end
  end.

Definition findAlternativePaths (startId endId : string) (k : nat) (g : RoadGraph)
  : outcome (list PathInfo) :=
  initialPath <- findShortestPath startId endId None g ;;
  match initialPath with
  | NotFound => Ok []
  | Found p =>
      tempGraph <- copyEdges (edges g) (copyNodes g) ;;
      morePaths (k - 1) 1 startId endId [p] tempGraph
  end.

(* ================================================================= *)
(** ** Traffic distribution *)

Record Route : Type := {
  routePath : list string;
  routeEdges : list Edge;
  routeTravelTime : num;
  routeDistance : num;
  weight : num;
  vehicleCount : num
}.

Inductive Plan : Type :=
| Success (totalVehicles : num) (distribution : list Route)
| Failure (message : string).

Definition withCount (c : num) (r : Route) : Route :=
  {| routePath := routePath r; routeEdges := routeEdges r;
     routeTravelTime := routeTravelTime r; routeDistance := routeDistance r;
     weight := weight r; vehicleCount := c |}.

(** The first loop: one entry per path ([weight] is [1 / path.travelTime],
    [vehicleCount] starts at 0) and the running [totalWeight]. *)
Definition weighPaths (paths : list PathInfo) : list Route * num :=
  fold_left
    (fun (st : list Route * num) p =>
       let w := (n1 / totalTravelTime p)%num in
       (fst st ++ [ {| routePath := path p; routeEdges := pathEdges p;
                       routeTravelTime := totalTravelTime p;
                       routeDistance := totalDistance p;
                       weight := w; vehicleCount := n0 |} ],
        (snd st + w)%num))
    paths ([], n0).

(** [distribution.reduce((sum, route) => sum + route.vehicleCount, 0)] *)
Definition sumCounts (distribution : list Route) : num :=
  fold_left (fun sum route => (sum + vehicleCount route)%num) distribution n0.

(** The first two loops: the entries with their weights, each with the
    floor of its share of the vehicles. *)
Definition flooredShares (totalVehicles : num) (paths : list PathInfo) : list Route :=
  let '(distribution, totalWeight) := weighPaths paths in
  map (fun route =>
         withCount (num_floor (totalVehicles * (weight route / totalWeight)))%num
           route)
      distribution.

(** Everything [distributeTraffic] does once the paths are known: the
    floored shares, and the remaining vehicles on the first entry. *)
Definition allocate (totalVehicles : num) (paths : list PathInfo) : list Route :=
  let floored := flooredShares totalVehicles paths in
  let remainingVehicles := (totalVehicles - sumCounts floored)%num in
  if (n0 <? remainingVehicles)%num
  then match floored with
       | first :: others =>
           withCount (vehicleCount first + remainingVehicles)%num first :: others
       | [] => []
       end
  else floored.

Definition distributeTraffic (startId endId : string) (totalVehicles : num)
    (numPaths : nat) (g : RoadGraph) : outcome Plan :=
  paths <- findAlternativePaths startId endId numPaths g ;;
  match paths with
  | [] => Ok (Failure "No paths found")
  | _ :: _ => Ok (Success totalVehicles (allocate totalVehicles paths))
  end.

(** [createKachiDhamNetwork(nodes, edges)]: every edge record carries its
    own [from] and [to] keys and is passed on as [data]. *)
Definition createKachiDhamNetwork (nodeRecords : list (string * NodeData))
    (edgeRecords : list (string * string * EdgeData)) : outcome RoadGraph :=
  let g0 := fold_left (fun g (r : string * NodeData) => addNode (fst r) (snd r) g)
              nodeRecords emptyGraph in
  fold_left
    (fun (acc : outcome RoadGraph) (r : string * string * EdgeData) =>
       g <- acc ;;
       let '(f, t, data) := r in
       addEdge f t
         (withBidirectional
            (match d_bidirectional data with Some false => false | _ => true end)
            data) g)
    edgeRecords (Ok g0).


(* ================================================================= *)
(** ** Auxiliary definitions for the statements *)

(** The load formula on finite numbers. *)
Definition congested (t c L : Qc) : Qc := (t * (1 + L / c))%Qc.

(** Plain attributes of an edge: travel time and capacity. *)
Definition roadData (time cap : Z) : EdgeData :=
  {| d_id := None; d_from := None; d_to := None; d_distance := None;
     d_travelTime := Some (num_of_Z time); d_capacity := Some (num_of_Z cap);
     d_currentLoad := None; d_speedLimit := None;
     d_currentTravelTime := None; d_bidirectional := None |}.

(** Nodes A, B, C without edges. *)
Definition threeNodes : RoadGraph :=
  addNode "C" noNodeData (addNode "B" noNodeData (addNode "A" noNodeData emptyGraph)).

(** The scenario of the specification: A->B (5), B->C (5), A->C (20), all of
    capacity 100. *)
Definition triangle : outcome RoadGraph :=
  g1 <- addEdge "A" "B" (roadData 5 100) threeNodes ;;
  g2 <- addEdge "B" "C" (roadData 5 100) g1 ;;
  addEdge "A" "C" (roadData 20 100) g2.

(** The same graph as a value. *)
Definition triangleGraph : RoadGraph :=
  match triangle with
  | Ok g => g
  | _ => emptyGraph
  end.

(** Two nodes and the single road A->B (travel time 5, capacity 100). *)
Definition oneRoad : RoadGraph :=
  match addEdge "A" "B" (roadData 5 100)
          (addNode "B" noNodeData (addNode "A" noNodeData emptyGraph)) with
  | Ok g => g
  | _ => emptyGraph
  end.

(** Nodes A and B without edges. *)
Definition twoNodes : RoadGraph :=
  addNode "B" noNodeData (addNode "A" noNodeData emptyGraph).

(** An edge record of the network data: it names its own endpoints. *)
Definition recordData (fromId toId : string) (time cap : Z) (both : bool) : EdgeData :=
  {| d_id := None; d_from := Some fromId; d_to := Some toId; d_distance := None;
     d_travelTime := Some (num_of_Z time); d_capacity := Some (num_of_Z cap);
     d_currentLoad := None; d_speedLimit := None;
     d_currentTravelTime := None; d_bidirectional := Some both |}.

(** What a bidirectional [addEdge(fromId, toId, data)] on [g] is said to
    do: both directed edges are stored, the reverse one points from [toId]
    to [fromId] with the base metrics of the forward one, and a load update
    of either direction leaves the stored edge of the other as it was. *)
Definition two_independent_edges (g : RoadGraph) (fromId toId : string)
    (data : EdgeData) : Prop :=
  exists g' forward reverse,
    addEdge fromId toId data g = Ok g'
    /\ map_get (edgeKey fromId toId) (edges g') = Some forward
    /\ map_get (edgeKey toId fromId) (edges g') = Some reverse
    /\ from reverse = toId /\ to reverse = fromId
    /\ distance reverse = distance forward
    /\ travelTime reverse = travelTime forward
    /\ capacity reverse = capacity forward
    /\ speedLimit reverse = speedLimit forward
    /\ (forall load, exists g'',
           updateEdgeLoad fromId toId load g' = Ok g''
           /\ map_get (edgeKey toId fromId) (edges g'') = Some reverse)
    /\ (forall load, exists g'',
           updateEdgeLoad toId fromId load g' = Ok g''
           /\ map_get (edgeKey fromId toId) (edges g'') = Some forward).

(** Operations on a graph under construction.  [addNode] is called with
    descriptive attributes only. *)
Inductive operation : Type :=
| OpAddNode (id : string) (name : option string)
| OpAddEdge (fromId toId : string) (data : EdgeData)
| OpUpdateEdgeLoad (fromId toId : string) (load : num).

(** One operation; a call that throws leaves the graph as it was, since
    both [addEdge] and [updateEdgeLoad] throw before they change anything. *)
Definition perform (g : RoadGraph) (o : operation) : RoadGraph :=
  match o with
  | OpAddNode id name =>
      addNode id {| nd_id := None; nd_connections := None; nd_name := name |} g
  | OpAddEdge fromId toId data =>
      match addEdge fromId toId data g with
      | Ok g' => g'
      | _ => g
      end
  | OpUpdateEdgeLoad fromId toId load =>
      match updateEdgeLoad fromId toId load g with
      | Ok g' => g'
      | _ => g
      end
  end.

Definition performAll (g : RoadGraph) (ops : list operation) : RoadGraph :=
  fold_left perform ops g.

(** Every neighbor of a node has its edge. *)
Definition neighbors_have_edges (g : RoadGraph) : Prop :=
  forall n node t,
    map_get n (nodes g) = Some node ->
    In t (connections node) ->
    map_has (edgeKey n t) (edges g) = true.

(** The neighbor set of every node is exactly the set of [t] with an edge
    stored under ["<node>-<t>"]. *)
Definition neighbors_match_edges (g : RoadGraph) : Prop :=
  forall n node t,
    map_get n (nodes g) = Some node ->
    (In t (connections node) <-> map_has (edgeKey n t) (edges g) = true).

Fixpoint dashfree (s : string) : bool :=
  match s with
  | EmptyString => true
  | String c rest => negb (Ascii.eqb c "-"%char) && dashfree rest
  end.

(** No [addNode] of the sequence reuses an identifier of the graph it is
    applied to, and every identifier it adds is free of ["-"]. *)
Fixpoint fresh_nodes (g : RoadGraph) (ops : list operation) : bool :=
  match ops with
  | [] => true
  | o :: rest =>
      match o with
      | OpAddNode id _ => negb (map_has id (nodes g)) && dashfree id
      | _ => true
      end && fresh_nodes (perform g o) rest
  end.

(** Every stored edge identifier is ["<f>-<t>"] for a node [f] that lists
    [t] among its neighbors. *)
Definition edges_have_neighbors (g : RoadGraph) : Prop :=
  forall key,
    map_has key (edges g) = true ->
    exists f t node,
      key = edgeKey f t
      /\ map_get f (nodes g) = Some node
      /\ In t (connections node).

Definition node_ids_dashfree (g : RoadGraph) : Prop :=
  forall n, map_has n (nodes g) = true -> dashfree n = true.

(** A graph is built, an edge A->B is added, and node A is added again. *)
Definition readdedNode : list operation :=
  [ OpAddNode "A" None; OpAddNode "B" None;
    OpAddEdge "A" "B" (roadData 5 100); OpAddNode "A" None ].

(** Node identifiers with a dash: "A", "B-C", "A-B", "C", and the edge from
    "A" to "B-C". *)
Definition dashedNodes : list operation :=
  [ OpAddNode "A" None; OpAddNode "B-C" None; OpAddNode "A-B" None;
    OpAddNode "C" None; OpAddEdge "A" "B-C" (roadData 5 100) ].

(** A road in both directions and a load update on one of them. *)
Definition loadedRoad : list operation :=
  [ OpAddNode "A" None; OpAddNode "B" None;
    OpAddEdge "A" "B" (withBidirectional true (roadData 5 100));
    OpUpdateEdgeLoad "A" "B" (num_of_Z 50) ].

(** The sum of a cost function over a sequence of edges, accumulated from
    zero in path order. *)
Definition sumCost (cost : Edge -> num) (es : list Edge) : num :=
  fold_left (fun total edge => (total + cost edge)%num) es n0.

(** The working copy of the scenario graph with the edge A->B suppressed,
    as the first round of the alternative-path search has it. *)
Definition triangleWithoutAB : RoadGraph :=
  match copyEdges (edges triangleGraph) (copyNodes triangleGraph) with
  | Ok tempGraph =>
      {| nodes := nodes tempGraph;
         edges := map_delete (edgeKey "A" "B") (edges tempGraph) |}
  | _ => emptyGraph
  end.

(** A found path reduced to what the allocator reads. *)
Definition pathOfTime (nodesOnPath : list string) (time : Z) : PathInfo :=
  {| path := nodesOnPath; pathEdges := [];
     totalDistance := n0; totalTravelTime := num_of_Z time |}.

(** [hops previous startId c n]: following [previous] from [c] reaches
    [startId] after exactly [n] lookups. *)
Inductive hops (previous : jsmap string) (startId : string) : string -> nat -> Prop :=
| hops_here : hops previous startId startId 0
| hops_back c before n :
    c <> startId ->
    map_get c previous = Some before ->
    hops previous startId before n ->
    hops previous startId c (S n).

(** The invariant of the search loop for start node [s]: [u] is the
    unvisited set, [d] and [p] the distance and predecessor maps, and [vs]
    the nodes visited so far, most recent first. *)
Record searchInv (g : RoadGraph) (s : string) (u : jsset) (d : jsmap num)
    (p : jsmap string) (vs : list string) : Prop := {
  inv_unvisited_nodes :
    forall x, In x u -> In x (map_keys (nodes g));
  inv_visited_gone :
    forall x, In x vs -> ~ In x u;
  inv_chain :
    forall l1 c l2, vs = l1 ++ c :: l2 ->
                    c = s \/ exists c', In c' l2 /\ map_get c p = Some c';
  inv_targets :
    forall n c, map_get n p = Some c -> In c vs;
  inv_origin :
    forall n c, map_get n p = Some c ->
                In n (map_keys (nodes g))
                /\ exists node, map_get c (nodes g) = Some node
                                /\ In n (connections node);
  inv_untouched :
    forall n, In n u ->
              n = s \/ (exists c, map_get n p = Some c) \/ getNum n d = PInf
}.

(** [grows ns ns']: the node maps have the same keys and every neighbor
    set of [ns] is contained in the one of [ns']. *)
Definition grows (ns ns' : jsmap Node) : Prop :=
  (forall k, map_has k ns' = map_has k ns)
  /\ (forall k node,
         map_get k ns = Some node ->
         exists node', map_get k ns' = Some node'
                       /\ incl (connections node) (connections node')).

(** The entry of a path in [distribution], before any vehicle is assigned. *)
Definition routeOf (p : PathInfo) : Route :=
  {| routePath := path p; routeEdges := pathEdges p;
     routeTravelTime := totalTravelTime p;
     routeDistance := totalDistance p;
     weight := (n1 / totalTravelTime p)%num; vehicleCount := n0 |}.

(** The travel time of a path as a rational (0 when it is not finite). *)
Definition timeOf (p : PathInfo) : Qc :=
  match totalTravelTime p with
  | Fin t => t
  | _ => 0%Qc
  end.

Fixpoint qsum (l : list Qc) : Qc :=
  match l with
  | [] => 0%Qc
  | x :: rest => (x + qsum rest)%Qc
  end.

Fixpoint zsum (l : list Z) : Z :=
  match l with
  | [] => 0%Z
  | x :: rest => (x + zsum rest)%Z
  end.

(** The integer share of a path of travel time [t] when the weights sum to
    [W]: the floor of [n * ((1 / t) / W)]. *)
Definition shareOf (n : Z) (W : Qc) (t : Qc) : Z :=
  Qfloor (Q2Qc (inject_Z n) * (1 / t / W))%Qc.



(* ================================================================= *)
(** ** The load formula on doubles *)

Module Binary64.
Import PrimFloat.
Local Open Scope float_scope.

(** The numeric fields of an edge that [updateEdgeLoad] reads and writes. *)
Record EdgeNumbers : Type := {
  travelTime : float;
  capacity : float;
  currentLoad : float;
  currentTravelTime : option float
}.

(** The assignments of [updateEdgeLoad], in the arithmetic of doubles. *)
Definition loadedEdge (load : float) (edge : EdgeNumbers) : EdgeNumbers :=
  let loadFactor := load / capacity edge in
  {| travelTime := travelTime edge;
     capacity := capacity edge;
     currentLoad := load;
     currentTravelTime := Some (travelTime edge * (1 + loadFactor)) |}.

(** The road of the scenario: travel time 5, capacity 100, no load yet. *)
Definition road : EdgeNumbers :=
  {| travelTime := 5; capacity := 100; currentLoad := 0;
     currentTravelTime := None |}.

(** Two small loads: [2 ** -70] and [2 ** -69]. *)
Definition lightLoad : float := 0x1p-70.
Definition doubleLoad : float := 0x1p-69.
End Binary64.

(* ================================================================= *)
(** ** Further definitions for the statements *)

(** An edge created with the given travel time and a capacity of 0. *)
Definition blockedRoad (time : Qc) : EdgeData :=
  {| d_id := None; d_from := None; d_to := None; d_distance := None;
     d_travelTime := Some (Fin time); d_capacity := Some n0;
     d_currentLoad := None; d_speedLimit := None;
     d_currentTravelTime := None; d_bidirectional := None |}.

(** [stepwise R l]: every two consecutive members of [l] are related by [R]. *)
Fixpoint stepwise (R : string -> string -> Prop) (l : list string) : Prop :=
  match l with
  | a :: ((b :: _) as rest) => R a b /\ stepwise R rest
  | _ => True
  end.

(** The consecutive pairs of a node sequence. *)
Fixpoint arcsOf (l : list string) : list (string * string) :=
  match l with
  | a :: ((b :: _) as rest) => (a, b) :: arcsOf rest
  | _ => []
  end.

(** [b] is a node that node [a] lists as a neighbor. *)
Definition neighbor (g : RoadGraph) (a b : string) : Prop :=
  (exists node, map_get a (nodes g) = Some node /\ In b (connections node))
  /\ map_has b (nodes g) = true.

(** The edge stored for an arc, if any. *)
Definition storedEdge (g : RoadGraph) (arc : string * string) : option Edge :=
  map_get (edgeKey (fst arc) (snd arc)) (edges g).

(** The operations that build the scenario graph. *)
Definition triangleOps : list operation :=
  [ OpAddNode "A" None; OpAddNode "B" None; OpAddNode "C" None;
    OpAddEdge "A" "B" (roadData 5 100); OpAddEdge "B" "C" (roadData 5 100);
    OpAddEdge "A" "C" (roadData 20 100) ].

(** The cost of the step from [a] to [b] as a rational: the default cost of
    the edge stored under ["<a>-<b>"]. *)
Definition arcCost (g : RoadGraph) (a b : string) : Qc :=
  match map_get (edgeKey a b) (edges g) with
  | Some edge =>
      match defaultWeight edge with
      | Fin q => q
      | _ => 0%Qc
      end
  | None => 0%Qc
  end.

(** A step of the graph: [b] is a node among the neighbors of [a], and the
    edge of the step is stored. *)
Definition arc (g : RoadGraph) (a b : string) : Prop :=
  neighbor g a b /\ map_has (edgeKey a b) (edges g) = true.

(** [walkTo g s y q]: some sequence of steps leads from [s] to [y] at total
    cost [q]. *)
Inductive walkTo (g : RoadGraph) (s : string) : string -> Qc -> Prop :=
| walk_start : walkTo g s s 0%Qc
| walk_step x y q :
    walkTo g s x q -> arc g x y -> walkTo g s y (q + arcCost g x y)%Qc.

(** Every stored edge has a finite, non-negative default cost. *)
Definition nonneg_costs (g : RoadGraph) : Prop :=
  forall key edge,
    map_get key (edges g) = Some edge ->
    exists q, defaultWeight edge = Fin q /\ (0 <= q)%Qc.

(** The cost of a stored edge as a rational, and all stored costs
    together staying below [2 ** 1023]: then no sum of costs along a path
    leaves the range of doubles. *)
Definition edgeCost (edge : Edge) : Qc :=
  match defaultWeight edge with
  | Fin q => q
  | _ => 0%Qc
  end.

Definition costs_in_range (g : RoadGraph) : Prop :=
  (qsum (map (fun kv : string * Edge => edgeCost (snd kv)) (edges g))
   <= Q2Qc (inject_Z (2 ^ 1023)))%Qc.

(** The smallest positive normal double, [2 ** -1022]: the reciprocal of a
    travel time that is no smaller is a finite double. *)
Definition minNormal : Qc := Q2Qc (1 # (2 ^ 1022)).

(** [Infinity] or [-Infinity]. *)
Definition infinite (x : num) : Prop := x = PInf \/ x = NInf.

(** A distance label that is a rational or [Infinity]. *)
Definition label (x : num) : Prop := x = PInf \/ exists q, x = Fin q.

(** [a] is at most [b], for labels. *)
Definition label_le (a b : num) : Prop :=
  forall qb, b = Fin qb -> exists qa, a = Fin qa /\ (qa <= qb)%Qc.

(** The invariant of the search on the distance labels, for start [s]:
    [u], [d], [p] are the unvisited set and the two maps, and [todo x n]
    marks the steps out of the node being relaxed that are still to come. *)
Record distInv (g : RoadGraph) (s : string) (todo : string -> string -> Prop)
    (u : jsset) (d : jsmap num) (p : jsmap string) : Prop := {
  di_nodes : forall x, In x u -> In x (map_keys (nodes g));
  di_start : getNum s d = Fin 0%Qc;
  di_shape : forall n, In n (map_keys (nodes g)) -> label (getNum n d);
  di_first :
    In s u -> forall n, In n (map_keys (nodes g)) -> n <> s -> getNum n d = PInf;
  di_prev :
    forall n c, map_get n p = Some c ->
                In c (map_keys (nodes g)) /\ ~ In c u /\ arc g c n
                /\ exists qc, getNum c d = Fin qc
                              /\ getNum n d = Fin (qc + arcCost g c n)%Qc;
  di_has_prev :
    forall n, In n (map_keys (nodes g)) -> n <> s ->
              (exists q, getNum n d = Fin q) -> exists c, map_get n p = Some c;
  di_visited_finite :
    forall v, In v (map_keys (nodes g)) -> ~ In v u -> exists q, getNum v d = Fin q;
  di_lower :
    forall v qv, In v (map_keys (nodes g)) -> ~ In v u -> getNum v d = Fin qv ->
                 forall q, walkTo g s v q -> (qv <= q)%Qc;
  di_relaxed :
    forall x n qx, In x (map_keys (nodes g)) -> ~ In x u -> In n u -> arc g x n ->
                   getNum x d = Fin qx ->
                   todo x n
                   \/ exists qn, getNum n d = Fin qn
                                 /\ (qn <= qx + arcCost g x n)%Qc
}.

(** The executable form of [nonneg_costs]. *)
Definition nonneg_costsb (g : RoadGraph) : bool :=
  forallb (fun kv : string * Edge =>
             match defaultWeight (snd kv) with
             | Fin q => negb (Qc_ltb q 0%Qc)
             | _ => false
             end) (edges g).

(* ================================================================= *)
(** ** The network data of [data/kachiDhamNetwork.js] *)

(** A node record: its [id] and [name]; the type and the coordinates are
    descriptive keys that the graph code never reads. *)
Definition nodeRecord (id name : string) : string * NodeData :=
  (id, {| nd_id := Some id; nd_connections := None; nd_name := Some name |}).

(** A decimal with one digit after the point, as a rational. *)
Definition tenths (z : Z) : num := Fin (Q2Qc (z # 10)).

(** An edge record: [from], [to], [distance], [travelTime], [capacity] and
    [speedLimit]; the road type is descriptive. *)
Definition edgeRecord (fromId toId : string) (dist : num) (time cap speed : Z)
  : string * string * EdgeData :=
  (fromId, toId,
   {| d_id := None; d_from := Some fromId; d_to := Some toId;
      d_distance := Some dist;
      d_travelTime := Some (num_of_Z time); d_capacity := Some (num_of_Z cap);
      d_currentLoad := None; d_speedLimit := Some (num_of_Z speed);
      d_currentTravelTime := None; d_bidirectional := None |}).

Definition kachiDhamNodes : list (string * NodeData) :=
  [ nodeRecord "city_center" "City Center";
    nodeRecord "north_gate" "Northern Gate";
    nodeRecord "south_colony" "South Colony";
    nodeRecord "east_entrance" "Eastern Entrance";
    nodeRecord "west_junction" "Western Junction";
    nodeRecord "market_square" "Market Square";
    nodeRecord "river_crossing" "River Crossing";
    nodeRecord "hill_view" "Hill View Junction";
    nodeRecord "forest_path" "Forest Path Junction";
    nodeRecord "lake_view" "Lake View Junction";
    nodeRecord "old_bridge" "Old Bridge Junction";
    nodeRecord "temple_main" "Kachi Dham Temple Main Entrance";
    nodeRecord "temple_east" "Kachi Dham Temple East Gate";
    nodeRecord "temple_west" "Kachi Dham Temple West Gate";
    nodeRecord "industrial_area" "Industrial Area";
    nodeRecord "bus_terminal" "Bus Terminal" ].

(** The edges listed before the road from Hill View to the northern temple
    gate, that road, and the edges listed after it. *)
Definition kachiDhamEdgesBefore : list (string * string * EdgeData) :=
  [ edgeRecord "city_center" "market_square" (tenths 12) 10 500 40;
    edgeRecord "city_center" "west_junction" (tenths 8) 7 600 50;
    edgeRecord "north_gate" "hill_view" (tenths 15) 12 400 40;
    edgeRecord "hill_view" "forest_path" (tenths 10) 8 350 35;
    edgeRecord "south_colony" "lake_view" (tenths 9) 7 450 45;
    edgeRecord "lake_view" "old_bridge" (tenths 11) 9 400 40;
    edgeRecord "east_entrance" "forest_path" (tenths 13) 11 350 35;
    edgeRecord "west_junction" "industrial_area" (tenths 14) 12 600 50;
    edgeRecord "market_square" "river_crossing" (tenths 6) 5 450 40;
    edgeRecord "river_crossing" "temple_west" (tenths 5) 6 300 30 ].

Definition kachiDhamEdgesAfter : list (string * string * EdgeData) :=
  [ edgeRecord "forest_path" "temple_east" (tenths 4) 5 250 25;
    edgeRecord "old_bridge" "market_square" (tenths 10) 9 400 35;
    edgeRecord "temple_main" "temple_east" (tenths 3) 4 200 20;
    edgeRecord "temple_main" "temple_west" (tenths 3) 4 200 20;
    edgeRecord "market_square" "bus_terminal" (tenths 5) 5 500 40;
    edgeRecord "west_junction" "market_square" (tenths 9) 8 450 40;
    edgeRecord "river_crossing" "hill_view" (tenths 8) 7 350 35;
    edgeRecord "forest_path" "river_crossing" (tenths 7) 6 300 30 ].

Definition kachiDhamEdges : list (string * string * EdgeData) :=
  kachiDhamEdgesBefore
  ++ edgeRecord "hill_view" "temple_north" (tenths 7) 7 250 25
  :: kachiDhamEdgesAfter.

(** The identifiers of a list of node records. *)
Definition recordIds (nodeRecords : list (string * NodeData)) : list string :=
  map fst nodeRecords.

(** Both endpoints of an edge record are among the node records. *)
Definition endpoints_known (nodeRecords : list (string * NodeData))
    (r : string * string * EdgeData) : Prop :=
  In (fst (fst r)) (recordIds nodeRecords) /\ In (snd (fst r)) (recordIds nodeRecords).

(** Three node records and the three roads of the scenario as edge
    records: a network that can be built. *)
Definition triangleNodeRecords : list (string * NodeData) :=
  [ nodeRecord "A" "A"; nodeRecord "B" "B"; nodeRecord "C" "C" ].

Definition triangleEdgeRecords : list (string * string * EdgeData) :=
  [ edgeRecord "A" "B" n1 5 100 50; edgeRecord "B" "C" n1 5 100 50;
    edgeRecord "A" "C" n1 20 100 50 ].

(* ================================================================= *)
(** ** Alternative paths for any number [k] *)

(** [2 ** 53]: from there on [i++] no longer changes [i]. *)
Definition twoTo53 : Qc := Q2Qc (inject_Z (2 ^ 53)).

(** [for (let i = 1; i < k; i++)]: how many values of [i] pass the test,
    or [None] when every one does, for [k = Infinity] and for [k] above
    [2 ** 53].  [NaN] and the numbers up to 1 let none pass. *)
Definition roundsBelow (k : num) : option nat :=
  match k with
  | Fin q =>
      if Qc_ltb twoTo53 q then None
      else Some (Z.to_nat (Qceiling q - 1))
  | PInf => None
  | NInf | NaN => Some 0%nat
  end.

(** [findAlternativePaths(startId, endId, k)] for a number [k].  When the
    loop has no upper bound, [patience] rounds are followed; a call that
    is still pushing paths after them counts as not coming back. *)
Definition findAlternativePathsFor (patience : nat) (startId endId : string)
    (k : num) (g : RoadGraph) : outcome (list PathInfo) :=
  match roundsBelow k with
  | Some rounds => findAlternativePaths startId endId (S rounds) g
  | None =>
      result <- findAlternativePaths startId endId (S patience) g ;;
      if (List.length result =? S patience)%nat then Diverge else Ok result
  end.

(** [distributeTraffic(startId, endId, totalVehicles, numPaths)] for a
    number [numPaths]. *)
Definition distributeTrafficFor (patience : nat) (startId endId : string)
    (totalVehicles : num) (numPaths : num) (g : RoadGraph) : outcome Plan :=
  paths <- findAlternativePathsFor patience startId endId numPaths g ;;
  match paths with
  | [] => Ok (Failure "No paths found")
  | _ :: _ => Ok (Success totalVehicles (allocate totalVehicles paths))
  end.

(* ================================================================= *)
(** ** The request handlers of [controllers/graphRoutingController.js] *)

Module Controller.

(** The module-level variable [roadNetwork]: [None] is [null]. *)
Definition State : Type := option RoadGraph.

(** What a handler does with [res]. *)
Inductive Reply (A : Type) : Type :=
| Sent (payload : A)
    (* [res.json(payload)], status 200 *)
| Rejected (status : nat) (message : string)
    (* [res.status(status).json({ message })] *)
| ServerError (e : error)
    (* [res.status(500).json({ message: 'Server error', error: error.message })] *)
| Pending.
    (* no reply *)

Arguments Sent {A} payload.
Arguments Rejected {A} status message.
Arguments ServerError {A} e.
Arguments Pending {A}.

Definition statusOf {A : Type} (r : Reply A) : option nat :=
  match r with
  | Sent _ => Some 200%nat
  | Rejected status _ => Some status
  | ServerError _ => Some 500%nat
  | Pending => None
  end.

(** [try { ... } catch (error) { ... 500 ... }] around a handler body. *)
Definition caught {A : Type} (body : outcome (Reply A)) : Reply A :=
  match body with
  | Ok r => r
  | Throw e => ServerError e
  | Diverge => Pending
  end.

(** A value of a parsed JSON body. *)
#[warnings="-register-all"]
Inductive json : Type :=
| JNull
| JBool (b : bool)
| JNumber (x : num)
| JString (s : string)
| JArray (items : list json)
| JObject (fields : list (string * json)).

(** The fields that the handlers read from [req.body].  An identifier is
    absent or a string, [numPaths] absent or any value, and
    [totalVehicles] and [load] absent or a number. *)
Record Body : Type := {
  startId : option string;
  endId : option string;
  fromId : option string;
  toId : option string;
  numPaths : option json;
  totalVehicles : option num;
  load : option num
}.

(** [!id] for an identifier: [undefined] and the empty string. *)
Definition missing (id : option string) : bool :=
  match id with
  | Some s => String.eqb s ""
  | None => true
  end.

(** The identifier once it is known to be there. *)
Definition textOf (id : option string) : string :=
  match id with
  | Some s => s
  | None => ""
  end.

(** Truthiness of a value: [null], [false], [0], [NaN] and the empty
    string are falsy. *)
Definition truthyValue (v : json) : bool :=
  match v with
  | JNull => false
  | JBool b => b
  | JNumber x => truthy x
  | JString s => negb (String.eqb s "")
  | JArray _ | JObject _ => true
  end.

(** [numPaths || 3] *)
Definition pathsOrThree (v : option json) : json :=
  match v with
  | Some x => if truthyValue x then x else JNumber (num_of_Z 3)
  | None => JNumber (num_of_Z 3)
  end.

(** The edge objects of the replies. *)
Record EdgeWithLoad : Type := {
  el_from : string;
  el_to : string;
  el_distance : num;
  el_travelTime : num;
  el_currentLoad : num;
  el_capacity : num
}.

Record EdgeBrief : Type := {
  eb_from : string;
  eb_to : string;
  eb_distance : num;
  eb_travelTime : num
}.

Record EdgeTraffic : Type := {
  et_from : string;
  et_to : string;
  et_distance : num;
  et_travelTime : num;
  et_currentTravelTime : option num;
  et_currentLoad : num;
  et_capacity : num;
  et_loadPercentage : num
}.

Record OptimalPath : Type := {
  op_path : list string;
  op_distance : num;
  op_travelTime : num;
  op_edges : list EdgeWithLoad
}.

Record BriefPath : Type := {
  bp_path : list string;
  bp_distance : num;
  bp_travelTime : num;
  bp_edges : list EdgeBrief
}.

Record Alternatives : Type := {
  count : nat;
  paths : list BriefPath
}.

Definition edgeWithLoad (edge : Edge) : EdgeWithLoad :=
  {| el_from := from edge; el_to := to edge; el_distance := distance edge;
     el_travelTime := travelTime edge; el_currentLoad := currentLoad edge;
     el_capacity := capacity edge |}.

Definition edgeBrief (edge : Edge) : EdgeBrief :=
  {| eb_from := from edge; eb_to := to edge; eb_distance := distance edge;
     eb_travelTime := travelTime edge |}.

Definition briefPath (p : PathInfo) : BriefPath :=
  {| bp_path := path p; bp_distance := totalDistance p;
     bp_travelTime := totalTravelTime p;
     bp_edges := map edgeBrief (pathEdges p) |}.

Section Handlers.
(** The [nodes] and [edges] that the controller requires from the data
    module. *)
Variable nodeRecords : list (string * NodeData).
Variable edgeRecords : list (string * string * EdgeData).

(** The number that the language reads from a string, and the string it
    makes of an array or an object; both are left open. *)
Variable stringToNumber : string -> num.
Variable objectToString : json -> string.

(** The rounds of a loop without upper bound that are followed. *)
Variable patience : nat.

(** The number that [i < k] compares [i] with. *)
Definition toNumber (v : json) : num :=
  match v with
  | JNull => n0
  | JBool b => if b then n1 else n0
  | JNumber x => x
  | JString s => stringToNumber s
  | JArray _ | JObject _ => stringToNumber (objectToString v)
  end.

(** The [k] of a request, as a number. *)
Definition requestedPaths (v : option json) : num := toNumber (pathsOrThree v).

(** [initializeRoadNetwork()]: the network and the new value of
    [roadNetwork]. *)
Definition initializeRoadNetwork (roadNetwork : State) : outcome (RoadGraph * State) :=
  match roadNetwork with
  | None =>
      g <- createKachiDhamNetwork nodeRecords edgeRecords ;;
      Ok (g, Some g)
  | Some g => Ok (g, Some g)
  end.

(** [findOptimalPath(req, res)]; [considerTraffic] is read from the body
    and not used. *)
Definition findOptimalPath (body : Body) (roadNetwork : State) : Reply OptimalPath :=
  caught
    (if missing (startId body) || missing (endId body)
     then Ok (Rejected 400 "Start and end locations are required")
     else
       ' (network, _) <- initializeRoadNetwork roadNetwork ;;
       result <- findShortestPath (textOf (startId body)) (textOf (endId body))
                   None network ;;
       match result with
       | NotFound =>
           Ok (Rejected 404 "No path found between the specified locations")
       | Found p =>
           Ok (Sent {| op_path := path p; op_distance := totalDistance p;
                       op_travelTime := totalTravelTime p;
                       op_edges := map edgeWithLoad (pathEdges p) |})
       end).

(** [findAlternativePaths(req, res)] *)
Definition findAlternativePaths (body : Body) (roadNetwork : State)
  : Reply Alternatives :=
  caught
    (if missing (startId body) || missing (endId body)
     then Ok (Rejected 400 "Start and end locations are required")
     else
       ' (network, _) <- initializeRoadNetwork roadNetwork ;;
       found <- findAlternativePathsFor patience
                  (textOf (startId body)) (textOf (endId body))
                  (requestedPaths (numPaths body)) network ;;
       match found with
       | [] => Ok (Rejected 404 "No paths found between the specified locations")
       | _ :: _ =>
           Ok (Sent {| count := List.length found; paths := map briefPath found |})
       end).

(** [!totalVehicles]: [undefined], [0] and [NaN]. *)
Definition noVehicles (n : option num) : bool :=
  match n with
  | Some v => negb (truthy v)
  | None => true
  end.

Definition numberOf (n : option num) : num :=
  match n with
  | Some v => v
  | None => NaN
  end.

(** [distributeTraffic(req, res)]: the plan itself is the reply. *)
Definition distributeTraffic (body : Body) (roadNetwork : State) : Reply Plan :=
  caught
    (if missing (startId body) || missing (endId body)
        || noVehicles (totalVehicles body)
     then Ok (Rejected 400
                "Start location, end location, and total vehicles are required")
     else
       ' (network, _) <- initializeRoadNetwork roadNetwork ;;
       distribution <- distributeTrafficFor patience
                         (textOf (startId body)) (textOf (endId body))
                         (numberOf (totalVehicles body))
                         (requestedPaths (numPaths body)) network ;;
       match distribution with
       | Failure message => Ok (Rejected 404 message)
       | Success _ _ => Ok (Sent distribution)
       end).

(** [updateEdgeTraffic(req, res)], with the value of [roadNetwork] after
    the call: the network object is updated in place. *)
Definition updateEdgeTraffic (body : Body) (roadNetwork : State)
  : State * Reply EdgeTraffic :=
  if missing (fromId body) || missing (toId body)
     || match load body with None => true | Some _ => false end
  then (roadNetwork, Rejected 400 "From node, to node, and load are required")
  else
    match initializeRoadNetwork roadNetwork with
    | Throw e => (roadNetwork, ServerError e)
    | Diverge => (roadNetwork, Pending)
    | Ok (network, initialized) =>
        match updateEdgeLoad (textOf (fromId body)) (textOf (toId body))
                (numberOf (load body)) network with
        | Throw e => (initialized, ServerError e)
        | Diverge => (initialized, Pending)
        | Ok network' =>
            let edgeId := edgeKey (textOf (fromId body)) (textOf (toId body)) in
            match map_get edgeId (edges network') with
            | None => (Some network', Rejected 404 "Edge not found")
            | Some edge =>
                (Some network',
                 Sent {| et_from := from edge; et_to := to edge;
                         et_distance := distance edge;
                         et_travelTime := travelTime edge;
                         et_currentTravelTime := currentTravelTime edge;
                         et_currentLoad := currentLoad edge;
                         et_capacity := capacity edge;
                         et_loadPercentage :=
                           (currentLoad edge / capacity edge * num_of_Z 100)%num |})
            end
        end
    end.
End Handlers.

(** Request bodies: a route request with its optional [numPaths] and
    [totalVehicles], and a traffic update. *)
Definition routeBody (s e : string) (k : option json) (n : option num) : Body :=
  {| startId := Some s; endId := Some e; fromId := None; toId := None;
     numPaths := k; totalVehicles := n; load := None |}.

Definition trafficBody (f t : string) (l : num) : Body :=
  {| startId := None; endId := None; fromId := Some f; toId := Some t;
     numPaths := None; totalVehicles := None; load := Some l |}.
End Controller.
(* ================================================================= *)
(** * Properties *)

(** ** Arithmetic on finite numbers *)

Section QcFacts.
Local Open Scope Qc_scope.

Lemma Qc_is_zero_pos (c : Qc) : 0 < c -> Qc_is_zero c = false.
Proof.
  intros H. unfold Qc_is_zero.
  now rewrite (proj1 (Qcgt_alt c 0) H).
Qed.

Lemma Qc_is_zero_neg (c : Qc) : c < 0 -> Qc_is_zero c = false.
Proof.
  intros H. unfold Qc_is_zero.
  now rewrite (proj1 (Qclt_alt c 0) H).
Qed.

Lemma Qc_is_zero_false_iff (c : Qc) : Qc_is_zero c = false <-> c <> 0.
Proof.
  unfold Qc_is_zero. split.
  - intros H E. rewrite (proj1 (Qceq_alt c 0) E) in H. discriminate.
  - intros H. destruct (c ?= 0) eqn:E; try reflexivity.
    now apply (proj2 (Qceq_alt c 0)) in E.
Qed.

Lemma Qc_ltb_lt (a b : Qc) : Qc_ltb a b = true <-> a < b.
Proof.
  unfold Qc_ltb. rewrite Qclt_alt.
  destruct (a ?= b); split; congruence.
Qed.

Lemma Qc_pos_neq0 (c : Qc) : 0 < c -> c <> 0.
Proof. intros H E. subst c. now apply (Qclt_not_eq 0 0). Qed.

Lemma Qc_mult_pos (a b : Qc) : 0 < a -> 0 < b -> 0 < a * b.
Proof.
  intros Ha Hb.
  replace 0 with (0 * b) by ring.
  now apply Qcmult_lt_compat_r.
Qed.

Lemma Qc_inv_pos (a : Qc) : 0 < a -> 0 < / a.
Proof.
  intros Ha.
  destruct (Qclt_le_dec 0 (/ a)) as [H | H]; [exact H | exfalso].
  assert (Hle : / a * a <= 0 * a).
  { apply Qcmult_le_compat_r; [exact H | now apply Qclt_le_weak]. }
  rewrite Qcmult_inv_l in Hle by now apply Qc_pos_neq0.
  rewrite Qcmult_0_l in Hle.
  now apply (Qcle_not_lt _ _ Hle).
Qed.

Lemma Qc_lt_by_diff (a b : Qc) : 0 < b - a -> a < b.
Proof. intros H. now apply Qclt_minus_iff. Qed.

Lemma congested_zero (t c : Qc) : 0 < c -> congested t c 0 = t.
Proof. intros Hc. unfold congested. field. now apply Qc_pos_neq0. Qed.

Lemma congested_full (t c : Qc) : 0 < c -> congested t c c = (1 + 1) * t.
Proof. intros Hc. unfold congested. field. now apply Qc_pos_neq0. Qed.

Lemma congested_mono (t c L1 L2 : Qc) :
  0 < t -> 0 < c -> L1 < L2 -> congested t c L1 < congested t c L2.
Proof.
  intros Ht Hc HL. apply Qc_lt_by_diff. unfold congested.
  replace (t * (1 + L2 / c) - t * (1 + L1 / c)) with ((L2 - L1) * (t * / c))
    by (field; now apply Qc_pos_neq0).
  apply Qc_mult_pos.
  - now apply Qclt_minus_iff in HL.
  - apply Qc_mult_pos; [exact Ht | now apply Qc_inv_pos].
Qed.

Lemma congested_unbounded (t c bound : Qc) :
  0 < t -> 0 < c -> bound < congested t c (c * (bound / t)).
Proof.
  intros Ht Hc. apply Qc_lt_by_diff. unfold congested.
  replace (t * (1 + c * (bound / t) / c) - bound) with t
    by (field; split; now apply Qc_pos_neq0).
  exact Ht.
Qed.

Lemma congested_below_zero (t c L : Qc) :
  0 < t -> 0 < c -> L < - c -> congested t c L < 0.
Proof.
  intros Ht Hc HL.
  replace 0 with (congested t c (- c)).
  - now apply congested_mono.
  - unfold congested. field. now apply Qc_pos_neq0.
Qed.
End QcFacts.

Lemma num_div_fin (L c : Qc) :
  (0 < c)%Qc -> (Fin L / Fin c)%num = Fin (L / c)%Qc.
Proof. intros Hc. simpl. now rewrite Qc_is_zero_pos. Qed.

Lemma loaded_time_fin (t c L : Qc) :
  (0 < c)%Qc -> (Fin t * (n1 + Fin L / Fin c))%num = Fin (congested t c L).
Proof. intros Hc. now rewrite num_div_fin. Qed.

(** ** Map facts *)

Section JsMapFacts.
Context {V : Type}.
Implicit Types (m : jsmap V) (k : string) (v : V).

Lemma map_get_set_same m k v : map_get k (map_set k v m) = Some v.
Proof.
  induction m as [| [k' v'] rest IH]; simpl.
  - now rewrite String.eqb_refl.
  - destruct (String.eqb k k') eqn:E; simpl; rewrite E; auto.
Qed.

Lemma map_get_set_other m k k' v :
  k <> k' -> map_get k (map_set k' v m) = map_get k m.
Proof.
  intros Hne. induction m as [| [k0 v0] rest IH]; simpl.
  - apply String.eqb_neq in Hne. now rewrite Hne.
  - destruct (String.eqb k' k0) eqn:E; simpl.
    + apply String.eqb_eq in E. subst k0.
      apply String.eqb_neq in Hne. now rewrite Hne.
    + destruct (String.eqb k k0); auto.
Qed.

Lemma map_set_twice m k v v' :
  map_set k v (map_set k v' m) = map_set k v m.
Proof.
  induction m as [| [k0 v0] rest IH]; simpl.
  - now rewrite String.eqb_refl.
  - destruct (String.eqb k k0) eqn:E; simpl; rewrite E; [reflexivity |].
    now rewrite IH.
Qed.

Lemma map_has_true m k : map_has k m = true <-> exists v, map_get k m = Some v.
Proof.
  unfold map_has. destruct (map_get k m) as [v |].
  - split; [now exists v | reflexivity].
  - split; [discriminate | intros [v Hv]; discriminate].
Qed.

Lemma map_has_set m k k' v :
  map_has k (map_set k' v m) = (String.eqb k k' || map_has k m)%bool.
Proof.
  unfold map_has. destruct (String.eqb k k') eqn:E.
  - apply String.eqb_eq in E. subst. now rewrite map_get_set_same.
  - apply String.eqb_neq in E. now rewrite map_get_set_other.
Qed.
End JsMapFacts.

(** ** Load updates *)

Lemma updateEdgeLoad_ok g fromId toId load edge :
  map_get (edgeKey fromId toId) (edges g) = Some edge ->
  updateEdgeLoad fromId toId load g
  = Ok {| nodes := nodes g;
          edges := map_set (edgeKey fromId toId) (loadedEdge load edge) (edges g) |}.
Proof. intros H. unfold updateEdgeLoad. now rewrite H. Qed.

(** C6: for an existing edge of positive capacity and positive base travel
    time, [updateEdgeLoad] leaves the edge with
    [currentTravelTime = travelTime * (1 + load / capacity)]; this is the
    base travel time at load zero, twice the base travel time at
    [load = capacity], and it exceeds every bound for a large enough load. *)
Theorem updateEdgeLoad_current_travel_time
    (g : RoadGraph) (fromId toId : string) (edge : Edge) (t c : Qc) (load : num) :
  map_get (edgeKey fromId toId) (edges g) = Some edge ->
  travelTime edge = Fin t -> capacity edge = Fin c ->
  (0 < t)%Qc -> (0 < c)%Qc ->
  let after L :=
    g' <- updateEdgeLoad fromId toId L g ;;
    match map_get (edgeKey fromId toId) (edges g') with
    | Some edge' => Ok (currentTravelTime edge')
    | None => Throw TypeError
    end in
  after load = Ok (Some (travelTime edge * (n1 + load / capacity edge))%num)
  /\ (forall L : Qc, after (Fin L) = Ok (Some (Fin (t * (1 + L / c))%Qc)))
  /\ after n0 = Ok (Some (travelTime edge))
  /\ after (capacity edge) = Ok (Some (num_of_Z 2 * travelTime edge)%num)
  /\ (forall bound : Qc, exists (L v : Qc),
         after (Fin L) = Ok (Some (Fin v)) /\ (bound < v)%Qc).
Proof.
  intros Hget Ht Hc Htpos Hcpos after.
  assert (Hafter : forall L,
             after L = Ok (Some (travelTime edge * (n1 + L / capacity edge))%num)).
  { intros L. unfold after. rewrite (updateEdgeLoad_ok _ _ _ _ _ Hget).
    simpl. now rewrite map_get_set_same. }
  assert (Hfin : forall L : Qc, after (Fin L) = Ok (Some (Fin (congested t c L)))).
  { intros L. rewrite Hafter, Ht, Hc. now rewrite loaded_time_fin. }
  repeat split.
  - apply Hafter.
  - exact Hfin.
  - change n0 with (Fin 0%Qc). rewrite Hfin, Ht.
    now rewrite congested_zero.
  - rewrite Hc, Hfin, Ht. rewrite congested_full by assumption.
    reflexivity.
  - intros bound. exists (c * (bound / t))%Qc, (congested t c (c * (bound / t))%Qc).
    split; [apply Hfin | now apply congested_unbounded].
Qed.

Lemma updateEdgeLoad_current_travel_time_witness :
  map_get (edgeKey "A" "B") (edges oneRoad)
  = Some (edgeLiteral "A-B" "A" "B" (roadData 5 100))
  /\ (g' <- updateEdgeLoad "A" "B" (num_of_Z 100) oneRoad ;;
      match map_get (edgeKey "A" "B") (edges g') with
      | Some edge' => Ok (currentTravelTime edge')
      | None => Throw TypeError
      end)
     = Ok (Some (num_of_Z 2 * num_of_Z 5)%num).
Proof.
  split; [reflexivity |].
  exact (proj1 (proj2 (proj2 (proj2
    (updateEdgeLoad_current_travel_time oneRoad "A" "B"
       (edgeLiteral "A-B" "A" "B" (roadData 5 100))
       (Q2Qc (inject_Z 5)) (Q2Qc (inject_Z 100)) (num_of_Z 100)
       eq_refl eq_refl eq_refl eq_refl eq_refl))))).
Defined.

Lemma currentTravelTime_loaded (edge : Edge) (t c L : Qc) :
  travelTime edge = Fin t -> capacity edge = Fin c -> (0 < c)%Qc ->
  currentTravelTime (loadedEdge (Fin L) edge) = Some (Fin (congested t c L)).
Proof.
  intros Ht Hc Hcpos.
  change (currentTravelTime (loadedEdge (Fin L) edge))
    with (Some (travelTime edge * (n1 + Fin L / capacity edge))%num).
  rewrite Ht, Hc. now rewrite loaded_time_fin.
Qed.

Lemma loadedEdge_twice load edge :
  loadedEdge load (loadedEdge load edge) = loadedEdge load edge.
Proof. reflexivity. Qed.

Lemma congested_mono_le (t c L1 L2 : Qc) :
  (0 < t)%Qc -> (0 < c)%Qc -> (L1 <= L2)%Qc ->
  (congested t c L1 <= congested t c L2)%Qc.
Proof.
  intros Ht Hc HL. destruct (Qcle_lt_or_eq _ _ HL) as [Hlt | ->].
  - now apply Qclt_le_weak, congested_mono.
  - apply Qcle_refl.
Qed.

(** C7, as the code has it: [updateEdgeLoad] is idempotent (a second
    identical call leaves the graph as the first one left it), and for
    positive capacity and positive base travel time a load that is no
    smaller gives a current travel time that is no smaller.  The ordering
    is not strict: on doubles two different loads can give the same
    travel time. *)
Theorem updateEdgeLoad_idempotent_monotone
    (g : RoadGraph) (fromId toId : string) (edge : Edge) :
  map_get (edgeKey fromId toId) (edges g) = Some edge ->
  (forall load, exists g1,
      updateEdgeLoad fromId toId load g = Ok g1
      /\ updateEdgeLoad fromId toId load g1 = Ok g1)
  /\ (forall t c L1 L2 : Qc,
         travelTime edge = Fin t -> capacity edge = Fin c ->
         (0 < t)%Qc -> (0 < c)%Qc -> (L1 <= L2)%Qc ->
         exists g1 g2 e1 e2 v1 v2,
           updateEdgeLoad fromId toId (Fin L1) g = Ok g1
           /\ updateEdgeLoad fromId toId (Fin L2) g = Ok g2
           /\ map_get (edgeKey fromId toId) (edges g1) = Some e1
           /\ map_get (edgeKey fromId toId) (edges g2) = Some e2
           /\ currentTravelTime e1 = Some (Fin v1)
           /\ currentTravelTime e2 = Some (Fin v2)
           /\ (v1 <= v2)%Qc).
Proof.
  intros Hget. split.
  - intros load. eexists. split.
    + apply (updateEdgeLoad_ok _ _ _ _ _ Hget).
    + erewrite updateEdgeLoad_ok by (simpl; apply map_get_set_same).
      simpl. now rewrite map_set_twice, loadedEdge_twice.
  - intros t c L1 L2 Ht Hc Htpos Hcpos HL.
    do 2 eexists.
    exists (loadedEdge (Fin L1) edge), (loadedEdge (Fin L2) edge).
    exists (congested t c L1), (congested t c L2).
    repeat split.
    + apply (updateEdgeLoad_ok _ _ _ _ _ Hget).
    + apply (updateEdgeLoad_ok _ _ _ _ _ Hget).
    + simpl. apply map_get_set_same.
    + simpl. apply map_get_set_same.
    + now apply currentTravelTime_loaded.
    + now apply currentTravelTime_loaded.
    + now apply congested_mono_le.
Qed.

Lemma updateEdgeLoad_idempotent_monotone_witness :
  map_get (edgeKey "A" "B") (edges oneRoad)
  = Some (edgeLiteral "A-B" "A" "B" (roadData 5 100))
  /\ (exists g1,
         updateEdgeLoad "A" "B" (num_of_Z 40) oneRoad = Ok g1
         /\ updateEdgeLoad "A" "B" (num_of_Z 40) g1 = Ok g1)
  /\ (exists g1 g2 e1 e2 v1 v2,
         updateEdgeLoad "A" "B" (num_of_Z 10) oneRoad = Ok g1
         /\ updateEdgeLoad "A" "B" (num_of_Z 20) oneRoad = Ok g2
         /\ map_get (edgeKey "A" "B") (edges g1) = Some e1
         /\ map_get (edgeKey "A" "B") (edges g2) = Some e2
         /\ currentTravelTime e1 = Some (Fin v1)
         /\ currentTravelTime e2 = Some (Fin v2)
         /\ (v1 <= v2)%Qc).
Proof.
  split; [reflexivity |].
  destruct (updateEdgeLoad_idempotent_monotone oneRoad "A" "B"
              (edgeLiteral "A-B" "A" "B" (roadData 5 100)) eq_refl)
    as [Hidem Hmono].
  split; [exact (Hidem (num_of_Z 40)) |].
  apply (Hmono (Q2Qc (inject_Z 5)) (Q2Qc (inject_Z 100))
           (Q2Qc (inject_Z 10)) (Q2Qc (inject_Z 20)));
    try reflexivity.
  unfold Qcle, Qle. vm_compute. discriminate.
Defined.

(** C7, as stated, fails on doubles.  On the road of travel time 5 and
    capacity 100 the loads [2 ** -70] and [2 ** -69] differ, and
    [updateEdgeLoad] leaves the same current travel time, 5, for both:
    [1 + load / capacity] rounds to 1. *)
Lemma updateEdgeLoad_rounding_counterexample :
  PrimFloat.ltb Binary64.lightLoad Binary64.doubleLoad = true
  /\ Binary64.currentTravelTime (Binary64.loadedEdge Binary64.lightLoad Binary64.road)
     = Some (Binary64.travelTime Binary64.road)
  /\ Binary64.currentTravelTime (Binary64.loadedEdge Binary64.doubleLoad Binary64.road)
     = Some (Binary64.travelTime Binary64.road).
Proof. repeat split; vm_compute; reflexivity. Qed.







(** The negative cost reaches the result of the search: after
    [updateEdgeLoad("A", "B", -300)] on the single road of travel time 5 and
    capacity 100, the path A, B is reported with travel time -10. *)
Example negative_cost_reaches_search :
  (g' <- updateEdgeLoad "A" "B" (num_of_Z (-300)) oneRoad ;;
   r <- findShortestPath "A" "B" None g' ;;
   match r with
   | Found p => Ok (path p, totalTravelTime p)
   | NotFound => Throw TypeError
   end)
  = Ok (["A"; "B"], num_of_Z (-10)).
Proof.
  vm_compute. repeat f_equal; now apply Qc_is_canon.
Qed.

(** ** Bidirectional edges *)

Lemma addConnection_ok id x ns node :
  map_get id ns = Some node ->
  addConnection id x ns
  = Ok (map_set id {| node_id := node_id node;
                      connections := set_add x (connections node);
                      node_name := node_name node |} ns).
Proof. intros H. unfold addConnection. now rewrite H. Qed.

Lemma addEdge_ok_one_way g fromId toId data nodeFrom :
  map_get fromId (nodes g) = Some nodeFrom ->
  map_has toId (nodes g) = true ->
  d_bidirectional data <> Some true ->
  addEdge fromId toId data g
  = Ok {| nodes := map_set fromId
                     {| node_id := node_id nodeFrom;
                        connections := set_add toId (connections nodeFrom);
                        node_name := node_name nodeFrom |} (nodes g);
          edges := map_set (edgeKey fromId toId)
                     (edgeLiteral (edgeKey fromId toId) fromId toId data) (edges g) |}.
Proof.
  intros Hfrom Hto Hbi. unfold addEdge.
  assert (Hhas : map_has fromId (nodes g) = true).
  { apply map_has_true. now exists nodeFrom. }
  rewrite Hhas, Hto. simpl.
  rewrite (addConnection_ok _ _ _ _ Hfrom). simpl.
  destruct (d_bidirectional data) as [[|] |]; try reflexivity.
  now contradiction Hbi.
Qed.

Lemma addEdge_ok_both_ways g fromId toId data :
  map_has fromId (nodes g) = true ->
  map_has toId (nodes g) = true ->
  d_bidirectional data = Some true ->
  exists ns,
    addEdge fromId toId data g
    = Ok {| nodes := ns;
            edges := map_set (edgeKey toId fromId)
                       (edgeLiteral (edgeKey toId fromId) toId fromId data)
                       (map_set (edgeKey fromId toId)
                          (edgeLiteral (edgeKey fromId toId) fromId toId data)
                          (edges g)) |}.
Proof.
  intros Hfrom Hto Hbi. unfold addEdge.
  rewrite Hfrom, Hto, Hbi. simpl.
  apply map_has_true in Hfrom. destruct Hfrom as [nodeFrom Hfrom].
  rewrite (addConnection_ok _ _ _ _ Hfrom). simpl.
  assert (Hto' : map_has toId
                   (map_set fromId
                      {| node_id := node_id nodeFrom;
                         connections := set_add toId (connections nodeFrom);
                         node_name := node_name nodeFrom |} (nodes g)) = true).
  { rewrite map_has_set, Hto. apply orb_true_r. }
  apply map_has_true in Hto'. destruct Hto' as [nodeTo Hto'].
  rewrite (addConnection_ok _ _ _ _ Hto'). simpl.
  eexists. reflexivity.
Qed.

(** What does hold: when both nodes exist, the two edge identifiers differ
    and the attributes carry no [from] or [to] key of their own, a
    bidirectional [addEdge] stores two directed edges, the reverse one
    from [toId] to [fromId] with the same base metrics, and a load update
    of one direction leaves the other edge untouched. *)
Lemma addEdge_bidirectional_independent
    (g : RoadGraph) (fromId toId : string) (data : EdgeData) :
  map_has fromId (nodes g) = true ->
  map_has toId (nodes g) = true ->
  d_bidirectional data = Some true ->
  d_from data = None -> d_to data = None ->
  edgeKey fromId toId <> edgeKey toId fromId ->
  two_independent_edges g fromId toId data.
Proof.
  intros Hfrom Hto Hbi Hdf Hdt Hkeys.
  destruct (addEdge_ok_both_ways g fromId toId data Hfrom Hto Hbi) as [ns Hadd].
  set (fwd := edgeLiteral (edgeKey fromId toId) fromId toId data) in *.
  set (rev := edgeLiteral (edgeKey toId fromId) toId fromId data) in *.
  assert (Hgf : map_get (edgeKey fromId toId)
                  (map_set (edgeKey toId fromId) rev
                     (map_set (edgeKey fromId toId) fwd (edges g))) = Some fwd).
  { rewrite map_get_set_other by exact Hkeys. apply map_get_set_same. }
  assert (Hgr : map_get (edgeKey toId fromId)
                  (map_set (edgeKey toId fromId) rev
                     (map_set (edgeKey fromId toId) fwd (edges g))) = Some rev).
  { apply map_get_set_same. }
  eexists. exists fwd, rev.
  split; [exact Hadd |]. simpl.
  split; [exact Hgf |].
  split; [exact Hgr |].
  split; [unfold rev; simpl; now rewrite Hdf |].
  split; [unfold rev; simpl; now rewrite Hdt |].
  do 4 (split; [reflexivity |]).
  split; intros load; eexists.
  - split.
    + apply updateEdgeLoad_ok. simpl. exact Hgf.
    + simpl. rewrite map_get_set_other by (intros E; now apply Hkeys). exact Hgr.
  - split.
    + apply updateEdgeLoad_ok. simpl. exact Hgr.
    + simpl. rewrite map_get_set_other by exact Hkeys. exact Hgf.
Qed.

(** The network builder passes each edge record, [from] and [to] included,
    as [data]: the reverse edge it stores under "B-A" still points from "A"
    to "B". *)
Example network_reverse_edge_endpoints :
  (g <- createKachiDhamNetwork
          [("A", noNodeData); ("B", noNodeData)]
          [("A", "B", recordData "A" "B" 5 100 true)] ;;
   match map_get (edgeKey "B" "A") (edges g) with
   | Some reverse => Ok (from reverse, to reverse)
   | None => Throw TypeError
   end) = Ok ("A", "B").
Proof. reflexivity. Qed.

Lemma addEdge_bidirectional_independent_witness :
  two_independent_edges twoNodes "A" "B"
    (withBidirectional true (roadData 5 100)).
Proof.
  apply addEdge_bidirectional_independent; try reflexivity.
  discriminate.
Defined.

(** The two ways in which the statement about bidirectional edges fails.
    With attributes that name their own endpoints, as the edge records of
    the network data do, the edge stored under "B-A" still has
    [from = "A"] and [to = "B"]; and on a self-loop both directions are
    one stored edge, so a load update of "one direction" is seen in "the
    other". *)
Lemma addEdge_bidirectional_counterexample :
  (map_has "A" (nodes twoNodes) = true
   /\ map_has "B" (nodes twoNodes) = true
   /\ d_bidirectional (recordData "A" "B" 5 100 true) = Some true
   /\ ~ two_independent_edges twoNodes "A" "B" (recordData "A" "B" 5 100 true))
  /\ (d_bidirectional (withBidirectional true (roadData 5 100)) = Some true
      /\ ~ two_independent_edges twoNodes "A" "A"
             (withBidirectional true (roadData 5 100))).
Proof.
  split.
  - repeat split; try reflexivity.
    intros (g' & fwd & rev & Hadd & _ & Hrev & Hfrom & _).
    vm_compute in Hadd. injection Hadd as <-.
    vm_compute in Hrev. injection Hrev as <-.
    discriminate Hfrom.
  - split; [reflexivity |].
    intros (g' & fwd & rev & Hadd & _ & Hrev & _ & _ & _ & _ & _ & _ & Hind & _).
    destruct (Hind (num_of_Z 50)) as (g'' & Hup & Hsame).
    vm_compute in Hadd. injection Hadd as <-.
    vm_compute in Hrev. injection Hrev as <-.
    vm_compute in Hup. injection Hup as <-.
    vm_compute in Hsame. discriminate Hsame.
Qed.

(** C8 does not hold of the code when the attributes name the endpoints
    themselves, as every edge record that [createKachiDhamNetwork] passes
    does.  The literal of the reverse edge sets [from: toId, to: fromId]
    and then spreads [...data] over them: the edge stored under
    ["<toId>-<fromId>"] has the [from] and [to] of the attributes, so for a
    record it points from [fromId] to [toId] like the forward edge. *)
Theorem addEdge_reverse_endpoints_from_data
    (g : RoadGraph) (fromId toId : string) (data : EdgeData) (f t : string) :
  map_has fromId (nodes g) = true ->
  map_has toId (nodes g) = true ->
  d_bidirectional data = Some true ->
  d_from data = Some f -> d_to data = Some t ->
  (exists g' reverse,
      addEdge fromId toId data g = Ok g'
      /\ map_get (edgeKey toId fromId) (edges g') = Some reverse
      /\ from reverse = f /\ to reverse = t)
  /\ (f <> toId \/ t <> fromId -> ~ two_independent_edges g fromId toId data).
Proof.
  intros Hfrom Hto Hbi Hdf Hdt.
  destruct (addEdge_ok_both_ways g fromId toId data Hfrom Hto Hbi) as [ns Hadd].
  set (rev := edgeLiteral (edgeKey toId fromId) toId fromId data) in *.
  assert (Hrev : from rev = f /\ to rev = t).
  { unfold rev. cbn [edgeLiteral from to]. now rewrite Hdf, Hdt. }
  split.
  - eexists. exists rev. split; [exact Hadd |].
    split; [cbn [edges]; apply map_get_set_same | exact Hrev].
  - intros Hne (g' & forward & reverse & Hadd' & _ & Hget & Hf & Ht & _).
    rewrite Hadd in Hadd'. injection Hadd' as <-.
    cbn [edges] in Hget. rewrite map_get_set_same in Hget.
    injection Hget as <-. destruct Hrev as [Hrf Hrt].
    destruct Hne as [Hne | Hne]; congruence.
Qed.

Lemma addEdge_reverse_endpoints_from_data_witness :
  (exists g' reverse,
      addEdge "A" "B" (recordData "A" "B" 5 100 true) twoNodes = Ok g'
      /\ map_get (edgeKey "B" "A") (edges g') = Some reverse
      /\ from reverse = "A" /\ to reverse = "B")
  /\ ~ two_independent_edges twoNodes "A" "B" (recordData "A" "B" 5 100 true).
Proof.
  destruct (addEdge_reverse_endpoints_from_data twoNodes "A" "B"
              (recordData "A" "B" 5 100 true) "A" "B"
              eq_refl eq_refl eq_refl eq_refl eq_refl) as [Hstored Hfails].
  split; [exact Hstored |].
  apply Hfails. left. discriminate.
Defined.

(** ** Neighbor sets and the edge collection *)

Lemma set_has_In x s : set_has x s = true <-> In x s.
Proof.
  induction s as [| y rest IH]; simpl.
  - split; [discriminate | contradiction].
  - destruct (String.eqb x y) eqn:E.
    + apply String.eqb_eq in E. subst. split; auto.
    + apply String.eqb_neq in E. rewrite IH. split.
      * auto.
      * intros [H | H]; [congruence | exact H].
Qed.

Lemma set_add_In x y s : In x (set_add y s) <-> x = y \/ In x s.
Proof.
  unfold set_add. destruct (set_has y s) eqn:E.
  - apply set_has_In in E. split; [auto | intros [-> | H]; assumption].
  - rewrite in_app_iff. simpl. split.
    + intros [H | [H | []]]; auto.
    + intros [H | H]; auto.
Qed.

Lemma edgeKey_inj a a' b b' :
  dashfree a = true -> dashfree a' = true ->
  edgeKey a b = edgeKey a' b' -> a = a' /\ b = b'.
Proof.
  unfold edgeKey. revert a'.
  induction a as [| c a IH]; intros [| c' a'] Ha Ha' E; simpl in *.
  - injection E as E. now split.
  - injection E as Ec E. subst c'. discriminate Ha'.
  - injection E as Ec E. subst c. discriminate Ha.
  - injection E as Ec E. subst c'.
    apply andb_true_iff in Ha, Ha'.
    destruct (IH a' (proj2 Ha) (proj2 Ha') E) as [-> ->]. now split.
Qed.

Lemma has_fold_edges_grow (k k' : string) (v : Edge) (es : jsmap Edge) :
  map_has k es = true -> map_has k (map_set k' v es) = true.
Proof. intros H. rewrite map_has_set, H. apply orb_true_r. Qed.

Section Invariants.
(** The edges every neighbor needs are there. *)

Lemma neighbors_have_edges_empty : neighbors_have_edges emptyGraph.
Proof. intros n node t H. discriminate H. Qed.

Lemma neighbors_have_edges_addNode g id name :
  neighbors_have_edges g ->
  neighbors_have_edges
    (addNode id {| nd_id := None; nd_connections := None; nd_name := name |} g).
Proof.
  unfold neighbors_have_edges. intros Hinv n node t Hget Hin. simpl in *.
  destruct (String.eqb n id) eqn:E.
  - apply String.eqb_eq in E. subst n.
    rewrite map_get_set_same in Hget. injection Hget as <-.
    contradiction Hin.
  - apply String.eqb_neq in E.
    rewrite map_get_set_other in Hget by exact E.
    now apply (Hinv n node t).
Qed.

(** One [connections.add] together with the [edges.set] of its edge. *)
Lemma neighbors_have_edges_link ns es f t nodeF v :
  neighbors_have_edges {| nodes := ns; edges := es |} ->
  map_get f ns = Some nodeF ->
  neighbors_have_edges
    {| nodes := map_set f {| node_id := node_id nodeF;
                             connections := set_add t (connections nodeF);
                             node_name := node_name nodeF |} ns;
       edges := map_set (edgeKey f t) v es |}.
Proof.
  unfold neighbors_have_edges. intros Hinv Hf n node x Hget Hin. simpl in *.
  rewrite map_has_set.
  destruct (String.eqb n f) eqn:E.
  - apply String.eqb_eq in E. subst n.
    rewrite map_get_set_same in Hget. injection Hget as <-. simpl in Hin.
    apply set_add_In in Hin. destruct Hin as [-> | Hin].
    + now rewrite String.eqb_refl.
    + rewrite (Hinv f nodeF x Hf Hin). apply orb_true_r.
  - apply String.eqb_neq in E.
    rewrite map_get_set_other in Hget by exact E.
    rewrite (Hinv n node x Hget Hin). apply orb_true_r.
Qed.

Lemma neighbors_have_edges_more_edges ns es k v :
  neighbors_have_edges {| nodes := ns; edges := es |} ->
  neighbors_have_edges {| nodes := ns; edges := map_set k v es |}.
Proof.
  unfold neighbors_have_edges. intros Hinv n node x Hget Hin. simpl in *.
  apply has_fold_edges_grow. now apply (Hinv n node x).
Qed.

Lemma addEdge_shape g fromId toId data g' :
  addEdge fromId toId data g = Ok g' ->
  exists nodeF,
    map_get fromId (nodes g) = Some nodeF
    /\ let ns1 := map_set fromId
                    {| node_id := node_id nodeF;
                       connections := set_add toId (connections nodeF);
                       node_name := node_name nodeF |} (nodes g) in
       let es1 := map_set (edgeKey fromId toId)
                    (edgeLiteral (edgeKey fromId toId) fromId toId data) (edges g) in
       g' = {| nodes := ns1; edges := es1 |}
       \/ exists nodeT,
           map_get toId ns1 = Some nodeT
           /\ g' = {| nodes := map_set toId
                                 {| node_id := node_id nodeT;
                                    connections := set_add fromId (connections nodeT);
                                    node_name := node_name nodeT |} ns1;
                      edges := map_set (edgeKey toId fromId)
                                 (edgeLiteral (edgeKey toId fromId) toId fromId data)
                                 es1 |}.
Proof.
  unfold addEdge, addConnection.
  destruct (negb (map_has fromId (nodes g)) || negb (map_has toId (nodes g)));
    [discriminate |].
  destruct (map_get fromId (nodes g)) as [nodeF |]; [| discriminate].
  simpl. intros H. exists nodeF. split; [reflexivity |]. simpl.
  destruct (d_bidirectional data) as [[|] |].
  - match type of H with
    | context [map_get toId ?m] => destruct (map_get toId m) as [nodeT |] eqn:ET
    end; [| discriminate].
    simpl in H. injection H as <-. right. now exists nodeT.
  - injection H as <-. now left.
  - injection H as <-. now left.
Qed.

Lemma neighbors_have_edges_perform g o :
  neighbors_have_edges g -> neighbors_have_edges (perform g o).
Proof.
  intros Hinv. destruct o as [id name | fromId toId data | fromId toId load]; simpl.
  - now apply neighbors_have_edges_addNode.
  - destruct (addEdge fromId toId data g) as [g' | |] eqn:E; try exact Hinv.
    apply addEdge_shape in E. destruct E as (nodeF & HF & [-> | (nodeT & HT & ->)]).
    + apply neighbors_have_edges_link; [now destruct g | exact HF].
    + apply neighbors_have_edges_link; [| exact HT].
      apply neighbors_have_edges_link; [now destruct g | exact HF].
  - unfold updateEdgeLoad.
    destruct (map_get (edgeKey fromId toId) (edges g)); [| exact Hinv].
    apply neighbors_have_edges_more_edges. now destruct g.
Qed.

Lemma neighbors_have_edges_performAll ops g :
  neighbors_have_edges g -> neighbors_have_edges (performAll g ops).
Proof.
  revert g. induction ops as [| o rest IH]; intros g Hinv; simpl.
  - exact Hinv.
  - apply IH. now apply neighbors_have_edges_perform.
Qed.
End Invariants.

Section FreshNodes.
(** With fresh, dash-free node identifiers the converse holds too. *)

Lemma converse_addNode g id name :
  map_has id (nodes g) = false -> dashfree id = true ->
  edges_have_neighbors g /\ node_ids_dashfree g ->
  let g' := addNode id {| nd_id := None; nd_connections := None;
                          nd_name := name |} g in
  edges_have_neighbors g' /\ node_ids_dashfree g'.
Proof.
  unfold edges_have_neighbors, node_ids_dashfree.
  intros Hnew Hdash [He Hd]. simpl. split.
  - intros key Hkey. destruct (He key Hkey) as (f & t & node & -> & Hf & Hin).
    exists f, t, node. repeat split; try assumption.
    rewrite map_get_set_other; [exact Hf |].
    intros ->. unfold map_has in Hnew. now rewrite Hf in Hnew.
  - intros n. rewrite map_has_set.
    destruct (String.eqb n id) eqn:E.
    + apply String.eqb_eq in E. now subst.
    + simpl. apply Hd.
Qed.

Lemma converse_link ns es f t nodeF v :
  map_get f ns = Some nodeF ->
  edges_have_neighbors {| nodes := ns; edges := es |}
  /\ node_ids_dashfree {| nodes := ns; edges := es |} ->
  let g' := {| nodes := map_set f {| node_id := node_id nodeF;
                                     connections := set_add t (connections nodeF);
                                     node_name := node_name nodeF |} ns;
               edges := map_set (edgeKey f t) v es |} in
  edges_have_neighbors g' /\ node_ids_dashfree g'.
Proof.
  unfold edges_have_neighbors, node_ids_dashfree.
  intros Hf [He Hd]. simpl in *. split.
  - intros key. rewrite map_has_set.
    destruct (String.eqb key (edgeKey f t)) eqn:E; simpl.
    + intros _. apply String.eqb_eq in E. subst key.
      eexists f, t, _. split; [reflexivity |].
      split; [apply map_get_set_same |].
      simpl. apply set_add_In. now left.
    + intros Hkey. destruct (He key Hkey) as (f0 & t0 & node0 & -> & Hf0 & Hin).
      destruct (String.eqb f0 f) eqn:Ef.
      * apply String.eqb_eq in Ef. subst f0.
        rewrite Hf in Hf0. injection Hf0 as <-.
        eexists f, t0, _. split; [reflexivity |].
        split; [apply map_get_set_same |].
        simpl. apply set_add_In. now right.
      * apply String.eqb_neq in Ef.
        exists f0, t0, node0. repeat split; try assumption.
        now rewrite map_get_set_other.
  - intros n. rewrite map_has_set.
    destruct (String.eqb n f) eqn:E; simpl.
    + intros _. apply String.eqb_eq in E. subst n.
      apply Hd. apply map_has_true. now exists nodeF.
    + apply Hd.
Qed.

Lemma converse_update ns es k v :
  map_has k es = true ->
  edges_have_neighbors {| nodes := ns; edges := es |}
  /\ node_ids_dashfree {| nodes := ns; edges := es |} ->
  edges_have_neighbors {| nodes := ns; edges := map_set k v es |}
  /\ node_ids_dashfree {| nodes := ns; edges := map_set k v es |}.
Proof.
  unfold edges_have_neighbors, node_ids_dashfree.
  intros Hk [He Hd]. simpl in *. split; [| exact Hd].
  intros key. rewrite map_has_set.
  destruct (String.eqb key k) eqn:E; simpl.
  - intros _. apply String.eqb_eq in E. subst key. now apply He.
  - apply He.
Qed.

Lemma converse_perform g o :
  match o with
  | OpAddNode id _ => negb (map_has id (nodes g)) && dashfree id
  | _ => true
  end = true ->
  edges_have_neighbors g /\ node_ids_dashfree g ->
  edges_have_neighbors (perform g o) /\ node_ids_dashfree (perform g o).
Proof.
  intros Hfresh Hinv.
  destruct o as [id name | fromId toId data | fromId toId load]; simpl.
  - apply andb_true_iff in Hfresh. destruct Hfresh as [Hnew Hdash].
    apply negb_true_iff in Hnew. now apply converse_addNode.
  - destruct (addEdge fromId toId data g) as [g' | |] eqn:E; try exact Hinv.
    apply addEdge_shape in E. destruct E as (nodeF & HF & [-> | (nodeT & HT & ->)]).
    + apply converse_link; [exact HF | now destruct g].
    + apply converse_link; [exact HT |].
      apply converse_link; [exact HF | now destruct g].
  - unfold updateEdgeLoad.
    destruct (map_get (edgeKey fromId toId) (edges g)) as [edge |] eqn:E;
      [| exact Hinv].
    apply converse_update; [| now destruct g].
    apply map_has_true. now exists edge.
Qed.

Lemma converse_performAll ops g :
  fresh_nodes g ops = true ->
  edges_have_neighbors g /\ node_ids_dashfree g ->
  edges_have_neighbors (performAll g ops)
  /\ node_ids_dashfree (performAll g ops).
Proof.
  revert g. induction ops as [| o rest IH]; intros g Hfresh Hinv; simpl.
  - exact Hinv.
  - simpl in Hfresh. apply andb_true_iff in Hfresh.
    destruct Hfresh as [Ho Hrest].
    apply IH; [exact Hrest |]. now apply converse_perform.
Qed.

Lemma match_from_both_inclusions g :
  neighbors_have_edges g -> edges_have_neighbors g -> node_ids_dashfree g ->
  neighbors_match_edges g.
Proof.
  intros Hfwd Hbwd Hdash n node t Hget. split.
  - now apply Hfwd.
  - intros Hkey.
    destruct (Hbwd _ Hkey) as (f & t0 & node0 & Heq & Hf & Hin).
    assert (Hn : dashfree n = true).
    { apply Hdash. apply map_has_true. now exists node. }
    assert (Hf' : dashfree f = true).
    { apply Hdash. apply map_has_true. now exists node0. }
    destruct (edgeKey_inj _ _ _ _ Hn Hf' Heq) as [-> ->].
    rewrite Hget in Hf. now injection Hf as ->.
Qed.
End FreshNodes.

(** C9, as the code has it: after every sequence of [addNode], [addEdge]
    and [updateEdgeLoad] on an empty graph, every neighbor of a node has its
    edge stored under ["<node>-<neighbor>"]; and when no [addNode] reuses an
    identifier and the identifiers contain no ["-"], the neighbor set is
    exactly the set of such edges. *)
Theorem neighbor_sets_after_operations (ops : list operation) :
  neighbors_have_edges (performAll emptyGraph ops)
  /\ (fresh_nodes emptyGraph ops = true ->
      neighbors_match_edges (performAll emptyGraph ops)).
Proof.
  assert (Hfwd : neighbors_have_edges (performAll emptyGraph ops)).
  { apply neighbors_have_edges_performAll, neighbors_have_edges_empty. }
  split; [exact Hfwd |].
  intros Hfresh.
  destruct (converse_performAll ops emptyGraph Hfresh) as [Hbwd Hdash].
  { split.
    - intros key Hkey. discriminate Hkey.
    - intros n Hn. discriminate Hn. }
  now apply match_from_both_inclusions.
Qed.

Lemma neighbor_sets_after_operations_witness :
  fresh_nodes emptyGraph loadedRoad = true
  /\ neighbors_match_edges (performAll emptyGraph loadedRoad).
Proof.
  split; [reflexivity |].
  apply (proj2 (neighbor_sets_after_operations loadedRoad)). reflexivity.
Defined.

(** C9, as stated, fails on the code: adding node A again replaces it by a
    node with an empty neighbor set, while the edge "A-B" stays; and with a
    dash in an identifier the edge from "A" to "B-C" is stored under
    "A-B-C", where node "A-B" would keep its edge to "C". *)
Lemma neighbor_sets_counterexample :
  ~ neighbors_match_edges (performAll emptyGraph readdedNode)
  /\ ~ neighbors_match_edges (performAll emptyGraph dashedNodes).
Proof.
  split; intros H.
  - destruct (H "A" {| node_id := "A"; connections := []; node_name := None |} "B"
                eq_refl) as [_ Hback].
    apply Hback. reflexivity.
  - destruct (H "A-B" {| node_id := "A-B"; connections := []; node_name := None |}
                "C" eq_refl) as [_ Hback].
    apply Hback. reflexivity.
Qed.

(** The two identifiers that collide there. *)
Example edge_identifiers_collide :
  edgeKey "A" "B-C" = edgeKey "A-B" "C".
Proof. reflexivity. Qed.

(** ** The search *)

Ltac bind_inv H :=
  match type of H with
  | bind ?c _ = _ =>
      let E := fresh "E" in
      destruct c eqn:E; simpl in H; try discriminate H
  end.

Section SearchStart.
Variable startId : string.

Let initial (nodeId : string) : num :=
  if String.eqb nodeId startId then n0 else PInf.

Let initStep (st : jsmap num * jsset) (nodeId : string) : jsmap num * jsset :=
  (map_set nodeId (initial nodeId) (fst st), set_add nodeId (snd st)).

Lemma initSearch_fold keys d0 u0 :
  (forall x, In x u0 -> map_get x d0 = Some (initial x)) ->
  (forall x, In x (snd (fold_left initStep keys (d0, u0))) ->
             map_get x (fst (fold_left initStep keys (d0, u0))) = Some (initial x))
  /\ (forall x, In x (snd (fold_left initStep keys (d0, u0)))
                <-> In x u0 \/ In x keys).
Proof.
  revert d0 u0. induction keys as [| k keys IH]; intros d0 u0 H0; simpl.
  - split; [exact H0 | intros x; tauto].
  - destruct (IH (map_set k (initial k) d0) (set_add k u0)) as [IH1 IH2].
    { intros x Hx. apply set_add_In in Hx.
      destruct (String.eqb x k) eqn:E.
      - apply String.eqb_eq in E. subst. apply map_get_set_same.
      - apply String.eqb_neq in E. rewrite map_get_set_other by exact E.
        destruct Hx as [Hx | Hx]; [contradiction | now apply H0]. }
    split; [exact IH1 |].
    intros x. pose proof (IH2 x) as H. rewrite set_add_In in H.
    split.
    + intros Hx. apply H in Hx. destruct Hx as [[-> | Hx] | Hx]; auto.
    + intros Hx. apply H. destruct Hx as [Hx | [-> | Hx]]; auto.
Qed.

Lemma initSearch_spec keys :
  (forall x, In x (snd (initSearch startId keys)) ->
             getNum x (fst (initSearch startId keys)) = initial x)
  /\ (forall x, In x (snd (initSearch startId keys)) <-> In x keys).
Proof.
  destruct (initSearch_fold keys [] []) as [H1 H2]; [contradiction |].
  split.
  - intros x Hx. unfold getNum. pose proof (H1 x Hx) as E.
    change (map_get x (fst (initSearch startId keys)) = Some (initial x)) in E.
    now rewrite E.
  - intros x. pose proof (H2 x) as E.
    change (In x (snd (initSearch startId keys)) <-> In x [] \/ In x keys) in E.
    rewrite E. simpl. tauto.
Qed.

(** With the initial distances the scan settles on the start node. *)
Lemma findMin_initial distances unvisited :
  (forall x, In x unvisited -> getNum x distances = initial x) ->
  fold_left
    (fun (st : option string * num) nodeId =>
       let d := getNum nodeId distances in
       if (d <? snd st)%num then (Some nodeId, d) else st)
    unvisited (Some startId, n0) = (Some startId, n0)
  /\ findMin distances unvisited
     = if set_has startId unvisited then (Some startId, n0) else (None, PInf).
Proof.
  unfold findMin.
  induction unvisited as [| x rest IH]; intros Hd; simpl.
  - now split.
  - destruct IH as [IHa IHb]; [intros y Hy; apply Hd; now right |].
    rewrite (Hd x (or_introl eq_refl)). unfold initial.
    rewrite (String.eqb_sym startId x).
    destruct (String.eqb x startId) eqn:E; simpl.
    + apply String.eqb_eq in E. subst x.
      change (n0 <? n0)%num with false. change (n0 <? PInf)%num with true.
      simpl. now split.
    + split; [exact IHa | exact IHb].
Qed.
End SearchStart.

Lemma map_keys_has {V : Type} (m : jsmap V) k :
  map_has k m = true <-> In k (map_keys m).
Proof.
  unfold map_has, map_keys. induction m as [| [k' v] rest IH]; simpl.
  - split; [discriminate | contradiction].
  - destruct (String.eqb k k') eqn:E.
    + apply String.eqb_eq in E. subst. split; auto.
    + apply String.eqb_neq in E. rewrite IH. split.
      * auto.
      * intros [H | H]; [congruence | exact H].
Qed.

(** The search from a node to itself stops before anything is relaxed. *)
Lemma search_same_node (g : RoadGraph) (a : string) (weightFn : option (Edge -> num)) :
  map_has a (nodes g) = true ->
  findShortestPath a a weightFn g = Ok NotFound.
Proof.
  intros Ha. unfold findShortestPath. rewrite Ha. simpl.
  destruct (initSearch_spec a (map_keys (nodes g))) as [Hd Hu].
  destruct (initSearch a (map_keys (nodes g))) as [distances unvisited] eqn:Einit.
  simpl in Hd, Hu.
  assert (Hin : In a unvisited) by now apply Hu, map_keys_has.
  destruct (findMin_initial a distances unvisited Hd) as [_ Hmin].
  rewrite (proj2 (set_has_In a unvisited) Hin) in Hmin.
  destruct unvisited as [| x rest]; [contradiction |].
  cbn [List.length mainLoop]. rewrite Hmin. simpl.
  now rewrite String.eqb_refl.
Qed.

(** C3, as the code has it: for every graph and every node [a] of it,
    [findShortestPath(a, a)] reports that no path was found; the trivial
    path [a] is never returned. *)
Theorem findShortestPath_same_node_not_found
    (g : RoadGraph) (a : string) (weightFn : option (Edge -> num)) :
  map_has a (nodes g) = true ->
  findShortestPath a a weightFn g = Ok NotFound.
Proof.
  intros Ha. destruct (findShortestPath a a weightFn g) eqn:E.
  - rewrite search_same_node in E by exact Ha. exact (eq_sym E).
  - rewrite search_same_node in E by exact Ha. discriminate E.
  - rewrite search_same_node in E by exact Ha. discriminate E.
Qed.

Lemma findShortestPath_same_node_not_found_witness :
  map_has "A" (nodes triangleGraph) = true
  /\ findShortestPath "A" "A" None triangleGraph = Ok NotFound.
Proof.
  split; [reflexivity |].
  apply findShortestPath_same_node_not_found. reflexivity.
Defined.

(** ** Reported totals *)

Lemma sumPath_totals es nodesOnPath dist time acc d t out :
  sumPath es nodesOnPath dist time acc = Ok (d, t, out) ->
  exists added,
    out = acc ++ added
    /\ t = fold_left (fun total edge => (total + defaultWeight edge)%num) added time
    /\ d = fold_left (fun total edge => (total + distance edge)%num) added dist.
Proof.
  revert dist time acc.
  induction nodesOnPath as [| a rest IH]; intros dist time acc H.
  - injection H as <- <- <-. exists []. now rewrite app_nil_r.
  - destruct rest as [| b rest'].
    + injection H as <- <- <-. exists []. now rewrite app_nil_r.
    + cbn [sumPath] in H.
      destruct (map_get (edgeKey a b) es) as [edge |]; [| discriminate].
      apply IH in H. destruct H as (added & -> & -> & ->).
      exists (edge :: added). now rewrite <- app_assoc.
Qed.

(** C4, as the code has it: whenever [findShortestPath] reports a path,
    whatever cost function guided the search, the reported [travelTime] is
    the sum of [currentTravelTime || travelTime] over the returned edges,
    and the reported [distance] the sum of their distances. *)
Theorem findShortestPath_reports_default_cost
    (g : RoadGraph) (startId endId : string) (weightFn : option (Edge -> num))
    (p : PathInfo) :
  findShortestPath startId endId weightFn g = Ok (Found p) ->
  totalTravelTime p = sumCost defaultWeight (pathEdges p)
  /\ totalDistance p = sumCost distance (pathEdges p).
Proof.
  unfold findShortestPath. intros H.
  destruct (negb (map_has startId (nodes g)) || negb (map_has endId (nodes g)));
    [discriminate |].
  destruct (initSearch startId (map_keys (nodes g))) as [distances unvisited].
  bind_inv H. destruct a as [distances' previous].
  destruct (map_get endId previous); [| discriminate].
  bind_inv H. rename a into nodesOnPath.
  bind_inv H. destruct a as [[d t] out].
  injection H as <-. simpl.
  apply sumPath_totals in E1. destruct E1 as (added & -> & -> & ->).
  now split.
Qed.

Lemma findShortestPath_reports_default_cost_witness :
  exists p,
    findShortestPath "A" "C" None triangleGraph = Ok (Found p)
    /\ path p = ["A"; "B"; "C"]
    /\ totalTravelTime p = sumCost defaultWeight (pathEdges p).
Proof.
  eexists. split; [vm_compute; reflexivity |].
  split; [reflexivity |].
  apply (findShortestPath_reports_default_cost triangleGraph "A" "C" None).
  vm_compute. reflexivity.
Defined.

(** C4, as stated, fails for an injected cost function: searching the
    single road A->B (distance 1, travel time 5) by distance reports travel
    time 5, while the distances of the returned edges sum to 1. *)
Lemma findShortestPath_injected_cost_counterexample :
  exists p,
    findShortestPath "A" "B" (Some distance) oneRoad = Ok (Found p)
    /\ totalTravelTime p = num_of_Z 5
    /\ sumCost (weightOf (Some distance)) (pathEdges p) = num_of_Z 1
    /\ sumCost (weightOf (Some distance)) (pathEdges p) <> totalTravelTime p.
Proof.
  eexists. split; [vm_compute; reflexivity |].
  cbn [totalTravelTime pathEdges].
  split; [| split].
  - reflexivity.
  - reflexivity.
  - vm_compute. intros E. discriminate E.
Qed.

(** ** Alternative paths *)

Lemma pathExists_false paths newPath :
  pathExists paths newPath = false -> ~ In newPath (map path paths).
Proof.
  induction paths as [| existing rest IH]; simpl; intros H.
  - intros [].
  - destruct (String.eqb (join (path existing)) (join newPath)) eqn:E;
      [discriminate |].
    intros [Hin | Hin].
    + rewrite Hin, String.eqb_refl in E. discriminate.
    + now apply IH.
Qed.

(** A path leaves the inner loop only after [pathExists] has rejected it. *)
Lemma suppressEdges_pushes_new startId endId paths prevNodes tempGraph p tempGraph' :
  suppressEdges startId endId paths prevNodes tempGraph = Ok (Some p, tempGraph') ->
  pathExists paths (path p) = false.
Proof.
  revert tempGraph.
  induction prevNodes as [| fromId rest IH]; intros tempGraph H.
  - discriminate H.
  - destruct rest as [| toId rest'].
    + discriminate H.
    + cbn [suppressEdges] in H.
      bind_inv H. rename a into newPath.
      bind_inv H. rename a into restored.
      destruct newPath as [q |].
      * destruct (pathExists paths (path q)) eqn:Eq; simpl in H.
        -- now apply IH in H.
        -- injection H as <- <-. exact Eq.
      * now apply IH in H.
Qed.

Lemma morePaths_invariant rounds :
  forall i startId endId paths tempGraph result,
    NoDup (map path paths) ->
    List.length paths = i ->
    morePaths rounds i startId endId paths tempGraph = Ok result ->
    NoDup (map path result) /\ (List.length result <= i + rounds)%nat.
Proof.
  induction rounds as [| rounds IH];
    intros i startId endId paths tempGraph result Hnodup Hlen H.
  - injection H as <-. split; [exact Hnodup | lia].
  - cbn [morePaths] in H.
    destruct (nth_error paths (i - 1)) as [prevPath |]; [| discriminate].
    bind_inv H. destruct a as [pushed tempGraph'].
    destruct pushed as [p |].
    + apply suppressEdges_pushes_new in E. apply pathExists_false in E.
      assert (Hnodup' : NoDup (map path (paths ++ [p]))).
      { rewrite map_app. simpl. apply NoDup_app.
        - exact Hnodup.
        - constructor; [intros [] | constructor].
        - intros x Hx [<- | []]. now apply E. }
      assert (Hlen' : List.length (paths ++ [p]) = S i).
      { rewrite length_app. simpl. lia. }
      destruct (Nat.leb_spec (List.length (paths ++ [p])) i) as [Hle | Hgt].
      * injection H as <-. split; [exact Hnodup' | lia].
      * apply IH in H; [| exact Hnodup' | exact Hlen'].
        destruct H as [H1 H2]. split; [exact H1 | lia].
    + destruct (Nat.leb_spec (List.length paths) i) as [Hle | Hgt].
      * injection H as <-. split; [exact Hnodup | lia].
      * lia.
Qed.


(** ** The loop bounds of the search are enough *)

Section LoopBounds.
Variable getWeight : Edge -> num.
Variable g : RoadGraph.
Variable endId : string.

Lemma findMin_fold_In distances unvisited st c :
  fst (fold_left
         (fun (st : option string * num) nodeId =>
            let d := getNum nodeId distances in
            if (d <? snd st)%num then (Some nodeId, d) else st)
         unvisited st) = Some c ->
  fst st = Some c \/ In c unvisited.
Proof.
  revert st. induction unvisited as [| x rest IH]; intros st H; simpl in *.
  - now left.
  - apply IH in H. destruct H as [H | H]; [| now right; right].
    destruct (getNum x distances <? snd st)%num; simpl in H.
    + injection H as ->. right. now left.
    + now left.
Qed.

Lemma findMin_In distances unvisited c :
  fst (findMin distances unvisited) = Some c -> In c unvisited.
Proof.
  intros H. apply findMin_fold_In in H. destruct H as [H | H]; [discriminate | exact H].
Qed.

Lemma set_delete_le c u : (List.length (set_delete c u) <= List.length u)%nat.
Proof.
  induction u as [| y rest IH]; simpl; [lia |].
  destruct (String.eqb c y); simpl; lia.
Qed.

Lemma set_delete_lt c u :
  In c u -> (List.length (set_delete c u) < List.length u)%nat.
Proof.
  induction u as [| y rest IH]; simpl; [contradiction |].
  intros Hin. destruct (String.eqb c y) eqn:E.
  - pose proof (set_delete_le c rest). lia.
  - apply String.eqb_neq in E. destruct Hin as [Hin | Hin]; [congruence |].
    simpl. apply IH in Hin. lia.
Qed.

Lemma relax_returns_or_throws es current neighbors unvisited distances previous :
  relax getWeight es current neighbors unvisited distances previous <> Diverge.
Proof.
  revert distances previous.
  induction neighbors as [| n rest IH]; intros distances previous; simpl.
  - discriminate.
  - destruct (negb (set_has n unvisited)); [apply IH |].
    destruct (map_get (edgeKey current n) es); [| discriminate].
    destruct (_ <? _)%num; apply IH.
Qed.

(** Any two bounds from the size of [unvisited] upwards give the same
    result. *)
Lemma mainLoop_fuel_irrelevant fuel :
  forall fuel' unvisited distances previous,
    (List.length unvisited <= fuel)%nat ->
    (List.length unvisited <= fuel')%nat ->
    mainLoop fuel getWeight g endId unvisited distances previous
    = mainLoop fuel' getWeight g endId unvisited distances previous.
Proof.
  induction fuel as [| fuel IH]; intros fuel' unvisited distances previous Hlen Hlen'.
  - destruct unvisited; [now destruct fuel' | simpl in Hlen; lia].
  - destruct unvisited as [| x rest]; [now destruct fuel' |].
    destruct fuel' as [| fuel']; [simpl in Hlen'; lia |].
    cbn [mainLoop].
    destruct (fst (findMin distances (x :: rest))) as [current |] eqn:Emin;
      [| reflexivity].
    destruct (String.eqb current endId); [reflexivity |].
    destruct (map_get current (nodes g)) as [currentNode |]; [| reflexivity].
    pose proof (set_delete_lt current (x :: rest) (findMin_In _ _ _ Emin)) as Hlt.
    set (unvisited' := set_delete current (x :: rest)) in *.
    cbn [List.length] in Hlt, Hlen, Hlen'.
    destruct (relax getWeight (edges g) current (connections currentNode)
                unvisited' distances previous)
      as [[distances' previous'] | |]; cbn [bind]; try reflexivity.
    apply IH; lia.
Qed.

Lemma mainLoop_fuel_enough fuel unvisited distances previous :
  (List.length unvisited <= fuel)%nat ->
  mainLoop fuel getWeight g endId unvisited distances previous
  = mainLoop (List.length unvisited) getWeight g endId unvisited distances previous.
Proof. intros Hlen. apply mainLoop_fuel_irrelevant; [exact Hlen | lia]. Qed.

(** The main loop always comes back. *)
Lemma mainLoop_terminates fuel :
  forall unvisited distances previous,
    (List.length unvisited <= fuel)%nat ->
    mainLoop fuel getWeight g endId unvisited distances previous <> Diverge.
Proof.
  induction fuel as [| fuel IH]; intros unvisited distances previous Hlen.
  - destruct unvisited; [discriminate | simpl in Hlen; lia].
  - destruct unvisited as [| x rest]; [discriminate |].
    cbn [mainLoop].
    destruct (fst (findMin distances (x :: rest))) as [current |] eqn:Emin;
      [| discriminate].
    destruct (String.eqb current endId); [discriminate |].
    destruct (map_get current (nodes g)) as [currentNode |]; [| discriminate].
    pose proof (set_delete_lt current (x :: rest) (findMin_In _ _ _ Emin)) as Hlt.
    set (unvisited' := set_delete current (x :: rest)) in *.
    cbn [List.length] in Hlt, Hlen.
    pose proof (relax_returns_or_throws (edges g) current (connections currentNode)
                  unvisited' distances previous) as Hrelax.
    destruct (relax getWeight (edges g) current (connections currentNode)
                unvisited' distances previous)
      as [[distances' previous'] | |]; cbn [bind];
      try discriminate; try contradiction.
    apply IH. lia.
Qed.
End LoopBounds.

Section PathBound.
Variable previous : jsmap string.
Variable startId : string.

Lemma hops_deterministic c n m :
  hops previous startId c n -> hops previous startId c m -> n = m.
Proof.
  intros Hn. revert m. induction Hn as [| c before n Hne Hget Hn IH]; intros m Hm.
  - inversion Hm; [reflexivity | congruence].
  - inversion Hm as [| c' before' m' Hne' Hget' Hm']; subst; [congruence |].
    rewrite Hget in Hget'. injection Hget' as <-. f_equal. now apply IH.
Qed.

(** A run of [buildPath] that returns has walked a chain of [hops]. *)
Lemma buildPath_hops fuel c acc result :
  buildPath fuel previous startId c acc = Ok result ->
  exists n, (n <= fuel)%nat /\ hops previous startId c n.
Proof.
  revert c acc. induction fuel as [| fuel IH]; intros c acc H; simpl in H.
  - destruct (String.eqb c startId) eqn:E; [| discriminate].
    apply String.eqb_eq in E. subst. exists 0%nat. split; [lia | constructor].
  - destruct (String.eqb c startId) eqn:E.
    + apply String.eqb_eq in E. subst. exists 0%nat. split; [lia | constructor].
    + apply String.eqb_neq in E.
      destruct (map_get c previous) as [before |] eqn:Eget; [| discriminate].
      apply IH in H. destruct H as (n & Hle & Hn).
      exists (S n). split; [lia |]. now apply hops_back with before.
Qed.

(** The result only depends on the chain, not on the bound, once the bound
    covers the chain. *)
Lemma buildPath_along_hops c n :
  hops previous startId c n ->
  forall fuel fuel' acc,
    (n <= fuel)%nat -> (n <= fuel')%nat ->
    buildPath fuel previous startId c acc = buildPath fuel' previous startId c acc.
Proof.
  induction 1 as [| c before n Hne Hget Hn IH]; intros fuel fuel' acc Hle Hle'.
  - destruct fuel, fuel'; simpl; now rewrite String.eqb_refl.
  - destruct fuel as [| fuel]; [lia |]. destruct fuel' as [| fuel']; [lia |].
    simpl. apply String.eqb_neq in Hne. rewrite Hne, Hget.
    apply IH; lia.
Qed.

(** The nodes of a chain are distinct keys of [previous]. *)
Lemma hops_distinct_keys c n :
  hops previous startId c n ->
  exists visited,
    List.length visited = n
    /\ NoDup visited
    /\ (forall x, In x visited ->
                  In x (map_keys previous)
                  /\ exists m, (m <= n)%nat /\ hops previous startId x m).
Proof.
  induction 1 as [| c before n Hne Hget Hn IH].
  - exists []. repeat split; [constructor | contradiction | contradiction].
  - destruct IH as (visited & Hlen & Hnodup & Hall).
    exists (c :: visited). split; [simpl; now rewrite Hlen |].
    split.
    + constructor; [| exact Hnodup].
      intros Hin. destruct (Hall c Hin) as (_ & m & Hm & Hc).
      assert (Hfull : hops previous startId c (S n)) by now apply hops_back with before.
      pose proof (hops_deterministic _ _ _ Hc Hfull). lia.
    + intros x [<- | Hin].
      * split.
        -- apply map_keys_has. apply map_has_true. now exists before.
        -- exists (S n). split; [lia |]. now apply hops_back with before.
      * destruct (Hall x Hin) as (Hkey & m & Hm & Hx).
        split; [exact Hkey |]. exists m. split; [lia | exact Hx].
Qed.

Lemma hops_bounded c n :
  hops previous startId c n -> (n <= List.length previous)%nat.
Proof.
  intros H. destruct (hops_distinct_keys _ _ H) as (visited & <- & Hnodup & Hall).
  replace (List.length previous) with (List.length (map_keys previous))
    by apply length_map.
  apply NoDup_incl_length; [exact Hnodup |].
  intros x Hx. now apply Hall.
Qed.

(** Whenever the path-building loop comes back at all, it does so within
    the bound that [findShortestPath] gives it. *)
Lemma buildPath_fuel_enough fuel c acc result :
  buildPath fuel previous startId c acc = Ok result ->
  buildPath (List.length previous) previous startId c acc = Ok result.
Proof.
  intros H. destruct (buildPath_hops _ _ _ _ H) as (n & Hle & Hn).
  rewrite <- H. apply (buildPath_along_hops _ _ Hn); [| exact Hle].
  exact (hops_bounded _ _ Hn).
Qed.
End PathBound.

(** ** The invariant of the search *)

Lemma set_delete_In x c u : In x (set_delete c u) <-> In x u /\ x <> c.
Proof.
  induction u as [| y rest IH]; simpl.
  - tauto.
  - destruct (String.eqb c y) eqn:E.
    + apply String.eqb_eq in E. subst y. rewrite IH. split.
      * intros [H1 H2]. auto.
      * intros [[H1 | H1] H2]; [congruence | auto].
    + apply String.eqb_neq in E. simpl. rewrite IH. split.
      * intros [H | [H1 H2]]; [subst; split; auto | auto].
      * intros [[H1 | H1] H2]; auto.
Qed.

Lemma num_ltb_PInf_l m : (PInf <? m)%num = false.
Proof. now destruct m. Qed.

Section SearchInvariant.
Variable getWeight : Edge -> num.
Variable g : RoadGraph.
Variable s : string.

Lemma findMin_fold_picked distances unvisited st c :
  fst (fold_left
         (fun (st : option string * num) nodeId =>
            let d := getNum nodeId distances in
            if (d <? snd st)%num then (Some nodeId, d) else st)
         unvisited st) = Some c ->
  fst st = Some c \/ getNum c distances <> PInf.
Proof.
  revert st. induction unvisited as [| x rest IH]; intros st H; simpl in *.
  - now left.
  - apply IH in H. destruct H as [H | H]; [| now right].
    destruct (getNum x distances <? snd st)%num eqn:E; simpl in H.
    + injection H as ->. right. intros Hinf.
      rewrite Hinf, num_ltb_PInf_l in E. discriminate.
    + now left.
Qed.

Lemma findMin_picked distances unvisited c :
  fst (findMin distances unvisited) = Some c -> getNum c distances <> PInf.
Proof.
  intros H. apply findMin_fold_picked in H.
  destruct H as [H | H]; [discriminate | exact H].
Qed.

(** Visiting [current] keeps the invariant. *)
Lemma searchInv_visit u d p vs current :
  searchInv g s u d p vs ->
  fst (findMin d u) = Some current ->
  searchInv g s (set_delete current u) d p (current :: vs).
Proof.
  intros [Hnodes Hgone Hchain Htargets Horigin Huntouched] Hmin.
  pose proof (findMin_In _ _ _ Hmin) as Hin.
  pose proof (findMin_picked _ _ _ Hmin) as Hfinite.
  constructor.
  - intros x Hx. apply set_delete_In in Hx. now apply Hnodes.
  - intros x [<- | Hx] Hx'; apply set_delete_In in Hx'.
    + now destruct Hx'.
    + now apply (Hgone x).
  - intros l1 c l2 Hsplit. destruct l1 as [| y l1]; simpl in Hsplit.
    + injection Hsplit as <- <-.
      destruct (Huntouched current Hin) as [H | [[c Hc] | H]].
      * now left.
      * right. exists c. split; [now apply (Htargets current) | exact Hc].
      * contradiction.
    + injection Hsplit as _ Hsplit. now apply (Hchain l1).
  - intros n c Hc. right. now apply (Htargets n).
  - exact Horigin.
  - intros n Hn. apply set_delete_In in Hn. now apply Huntouched.
Qed.

(** Relaxing the neighbors of the node just visited keeps the invariant. *)
Lemma searchInv_relax u vs current currentNode neighbors :
  map_get current (nodes g) = Some currentNode ->
  incl neighbors (connections currentNode) ->
  forall d p d' p',
    searchInv g s u d p (current :: vs) ->
    relax getWeight (edges g) current neighbors u d p = Ok (d', p') ->
    searchInv g s u d' p' (current :: vs).
Proof.
  intros Hnode. induction neighbors as [| n rest IH]; intros Hincl d p d' p' Hinv H.
  - injection H as <- <-. exact Hinv.
  - assert (Hrest : incl rest (connections currentNode)).
    { intros x Hx. apply Hincl. now right. }
    cbn [relax] in H.
    destruct (set_has n u) eqn:Eu; cbn [negb] in H; [| now apply (IH Hrest d p)].
    apply set_has_In in Eu.
    destruct (map_get (edgeKey current n) (edges g)) as [edge |]; [| discriminate].
    destruct (_ <? _)%num; [| now apply (IH Hrest d p)].
    apply (IH Hrest _ _ _ _ ) in H; [exact H |].
    destruct Hinv as [Hnodes Hgone Hchain Htargets Horigin Huntouched].
    constructor.
    + exact Hnodes.
    + exact Hgone.
    + intros l1 c l2 Hsplit.
      destruct (Hchain l1 c l2 Hsplit) as [Hc | (c' & Hc' & Hget)]; [now left |].
      right. exists c'. split; [exact Hc' |].
      rewrite map_get_set_other; [exact Hget |].
      intros ->. apply (Hgone n); [| exact Eu].
      rewrite Hsplit. apply in_or_app. right. now left.
    + intros x c Hc. destruct (String.eqb x n) eqn:E.
      * apply String.eqb_eq in E. subst x.
        rewrite map_get_set_same in Hc. injection Hc as <-. now left.
      * apply String.eqb_neq in E. rewrite map_get_set_other in Hc by exact E.
        now apply (Htargets x).
    + intros x c Hc. destruct (String.eqb x n) eqn:E.
      * apply String.eqb_eq in E. subst x.
        rewrite map_get_set_same in Hc. injection Hc as <-.
        split; [now apply Hnodes |].
        exists currentNode. split; [exact Hnode |]. apply Hincl. now left.
      * apply String.eqb_neq in E. rewrite map_get_set_other in Hc by exact E.
        now apply (Horigin x).
    + intros x Hx. destruct (String.eqb x n) eqn:E.
      * apply String.eqb_eq in E. subst x.
        right. left. exists current. apply map_get_set_same.
      * apply String.eqb_neq in E.
        destruct (Huntouched x Hx) as [H1 | [[c Hc] | H1]].
        -- now left.
        -- right. left. exists c. now rewrite map_get_set_other.
        -- right. right. unfold getNum in *. now rewrite map_get_set_other.
Qed.

(** The invariant holds when the main loop is left. *)
Lemma searchInv_mainLoop endId fuel :
  forall u d p vs d' p',
    searchInv g s u d p vs ->
    mainLoop fuel getWeight g endId u d p = Ok (d', p') ->
    exists u' vs', searchInv g s u' d' p' vs'.
Proof.
  induction fuel as [| fuel IH]; intros u d p vs d' p' Hinv H.
  - destruct u; [| discriminate]. injection H as <- <-. now exists [], vs.
  - destruct u as [| x rest].
    { injection H as <- <-. now exists [], vs. }
    cbn [mainLoop] in H.
    destruct (fst (findMin d (x :: rest))) as [current |] eqn:Emin.
    2:{ injection H as <- <-. now exists (x :: rest), vs. }
    destruct (String.eqb current endId).
    { injection H as <- <-. now exists (x :: rest), vs. }
    destruct (map_get current (nodes g)) as [currentNode |] eqn:Enode;
      [| discriminate].
    pose proof (searchInv_visit _ _ _ _ _ Hinv Emin) as Hvisit.
    set (u' := set_delete current (x :: rest)) in *.
    bind_inv H. destruct a as [d1 p1].
    apply (IH u' d1 p1 (current :: vs)); [| exact H].
    apply (searchInv_relax u' vs current currentNode (connections currentNode)
             Enode (incl_refl _) d p); assumption.
Qed.

Lemma searchInv_initial :
  searchInv g s (snd (initSearch s (map_keys (nodes g))))
    (fst (initSearch s (map_keys (nodes g)))) [] [].
Proof.
  destruct (initSearch_spec s (map_keys (nodes g))) as [Hd Hu].
  constructor.
  - intros x Hx. now apply Hu.
  - contradiction.
  - intros l1 c l2 Hsplit. now destruct l1.
  - discriminate.
  - discriminate.
  - intros n Hn. rewrite (Hd n Hn).
    destruct (String.eqb n s) eqn:E.
    + left. now apply String.eqb_eq.
    + right. now right.
Qed.

(** Every visited node is linked to the start by [previous]. *)
Lemma searchInv_hops u d p vs :
  searchInv g s u d p vs ->
  forall c, In c vs -> exists n, hops p s c n.
Proof.
  intros Hinv. pose proof (inv_chain _ _ _ _ _ _ Hinv) as Hchain. clear Hinv.
  induction vs as [| v rest IH]; intros c Hc; [contradiction |].
  assert (IH' : forall c, In c rest -> exists n, hops p s c n).
  { apply IH. intros l1 c0 l2 Hsplit. apply (Hchain (v :: l1)). simpl. now f_equal. }
  destruct Hc as [<- | Hc]; [| now apply IH'].
  destruct (String.eqb v s) eqn:E.
  - apply String.eqb_eq in E. subst v. exists 0%nat. constructor.
  - apply String.eqb_neq in E.
    destruct (Hchain [] v rest eq_refl) as [Hv | (c' & Hc' & Hget)]; [contradiction |].
    destruct (IH' c' Hc') as [n Hn].
    exists (S n). now apply hops_back with c'.
Qed.
End SearchInvariant.

(** ** The search always comes back *)

Lemma buildPath_of_hops previous startId c n :
  hops previous startId c n ->
  forall fuel acc, (n <= fuel)%nat ->
                   exists result, buildPath fuel previous startId c acc = Ok result.
Proof.
  induction 1 as [| c before n Hne Hget Hn IH]; intros fuel acc Hle.
  - exists (startId :: acc). destruct fuel; simpl; now rewrite String.eqb_refl.
  - destruct fuel as [| fuel]; [lia |].
    simpl. apply String.eqb_neq in Hne. rewrite Hne, Hget.
    apply IH. lia.
Qed.

Lemma sumPath_returns_or_throws es nodesOnPath dist time acc :
  sumPath es nodesOnPath dist time acc <> Diverge.
Proof.
  revert dist time acc.
  induction nodesOnPath as [| a rest IH]; intros dist time acc; [discriminate |].
  destruct rest as [| b rest']; [discriminate |].
  cbn [sumPath]. destruct (map_get (edgeKey a b) es); [apply IH | discriminate].
Qed.

(** What the main loop leaves behind, in terms of the graph. *)
Lemma findShortestPath_search_state
    (g : RoadGraph) (startId endId : string) (getWeight : Edge -> num) d' p' :
  mainLoop (List.length (snd (initSearch startId (map_keys (nodes g)))))
    getWeight g endId (snd (initSearch startId (map_keys (nodes g))))
    (fst (initSearch startId (map_keys (nodes g)))) [] = Ok (d', p') ->
  forall n c,
    map_get n p' = Some c ->
    (exists k, hops p' startId c k)
    /\ In n (map_keys (nodes g))
    /\ exists node, map_get c (nodes g) = Some node /\ In n (connections node).
Proof.
  intros H n c Hc.
  destruct (searchInv_mainLoop getWeight g startId endId _ _ _ _ _ _ _
              (searchInv_initial g startId) H) as (u' & vs' & Hinv).
  split.
  - apply (searchInv_hops g startId u' d' p' vs' Hinv).
    now apply (inv_targets _ _ _ _ _ _ Hinv n).
  - now apply (inv_origin _ _ _ _ _ _ Hinv).
Qed.

(** [findShortestPath] returns or throws for every graph and every pair of
    endpoints: neither loop bound of the embedding is ever exhausted. *)
Theorem findShortestPath_total
    (g : RoadGraph) (startId endId : string) (weightFn : option (Edge -> num)) :
  findShortestPath startId endId weightFn g <> Diverge.
Proof.
  unfold findShortestPath.
  destruct (negb (map_has startId (nodes g)) || negb (map_has endId (nodes g)));
    [discriminate |].
  pose proof (findShortestPath_search_state g startId endId (weightOf weightFn))
    as Hstate.
  destruct (initSearch startId (map_keys (nodes g))) as [distances unvisited].
  cbn [fst snd] in Hstate.
  pose proof (mainLoop_terminates (weightOf weightFn) g endId
                (List.length unvisited) unvisited distances [] (Nat.le_refl _))
    as Hloop.
  destruct (mainLoop (List.length unvisited) (weightOf weightFn) g endId
              unvisited distances []) as [[d' p'] | |];
    cbn [bind]; try discriminate; try contradiction.
  destruct (map_get endId p') as [c |] eqn:Eend; [| discriminate].
  destruct (Hstate d' p' eq_refl endId c Eend) as [[k Hk] _].
  assert (Hhops : exists n, hops p' startId endId n).
  { destruct (String.eqb endId startId) eqn:E.
    - apply String.eqb_eq in E. subst. exists 0%nat. constructor.
    - apply String.eqb_neq in E. exists (S k). now apply hops_back with c. }
  destruct Hhops as [n Hn].
  destruct (buildPath_of_hops _ _ _ _ Hn (List.length p') []
              (hops_bounded _ _ _ _ Hn)) as [nodesOnPath ->].
  cbn [bind].
  pose proof (sumPath_returns_or_throws (edges g) nodesOnPath n0 n0 []) as Hsum.
  destruct (sumPath (edges g) nodesOnPath n0 n0 []) as [[[dist time] es] | |];
    cbn [bind]; try discriminate; contradiction.
Qed.

(** ** A second path is never returned *)

Lemma triangle_shortest_path :
  exists p,
    findShortestPath "A" "C" None triangleGraph = Ok (Found p)
    /\ path p = ["A"; "B"; "C"].
Proof.
  eexists. split; [vm_compute; reflexivity | reflexivity].
Qed.

Lemma buildPath_shape fuel previous startId :
  forall c acc result,
    buildPath fuel previous startId c acc = Ok result ->
    (c = startId /\ result = startId :: acc)
    \/ exists x rest,
        result = startId :: x :: rest
        /\ map_get x previous = Some startId /\ x <> startId.
Proof.
  induction fuel as [| fuel IH]; intros c acc result H; simpl in H.
  - destruct (String.eqb c startId) eqn:E; [| discriminate].
    apply String.eqb_eq in E. injection H as <-. now left.
  - destruct (String.eqb c startId) eqn:E.
    + apply String.eqb_eq in E. injection H as <-. now left.
    + apply String.eqb_neq in E.
      destruct (map_get c previous) as [before |] eqn:Eget; [| discriminate].
      apply IH in H. destruct H as [[-> ->] | (x & rest & -> & Hx & Hne)].
      * right. now exists c, acc.
      * right. now exists x, rest.
Qed.

(** A found path leaves the start through one of its neighbors. *)
Lemma findShortestPath_first_hop g startId endId weightFn p :
  findShortestPath startId endId weightFn g = Ok (Found p) ->
  map_has startId (nodes g) = true
  /\ map_has endId (nodes g) = true
  /\ startId <> endId
  /\ exists second rest node,
      path p = startId :: second :: rest
      /\ map_get startId (nodes g) = Some node
      /\ In second (connections node)
      /\ In second (map_keys (nodes g))
      /\ second <> startId.
Proof.
  intros H.
  assert (Hhas : map_has startId (nodes g) = true /\ map_has endId (nodes g) = true).
  { unfold findShortestPath in H.
    destruct (map_has startId (nodes g)), (map_has endId (nodes g));
      simpl in H; try discriminate H. now split. }
  destruct Hhas as [Hs He].
  assert (Hne : startId <> endId).
  { intros <-. rewrite search_same_node in H by exact Hs. discriminate H. }
  repeat split; try assumption.
  unfold findShortestPath in H. rewrite Hs, He in H. cbn [negb orb] in H.
  pose proof (findShortestPath_search_state g startId endId (weightOf weightFn))
    as Hstate.
  destruct (initSearch startId (map_keys (nodes g))) as [distances unvisited].
  cbn [fst snd] in Hstate.
  bind_inv H. destruct a as [d' p'].
  destruct (map_get endId p') as [c |] eqn:Eend; [| discriminate].
  bind_inv H. rename a into nodesOnPath.
  bind_inv H. destruct a as [[dist time] es].
  injection H as <-. cbn [path].
  apply buildPath_shape in E0.
  destruct E0 as [[Heq _] | (x & rest & -> & Hx & Hxne)]; [congruence |].
  destruct (Hstate d' p' eq_refl x startId Hx) as (_ & Hkey & node & Hnode & Hin).
  now exists x, rest, node.
Qed.

Lemma map_get_delete_same {V : Type} (m : jsmap V) k :
  map_get k (map_delete k m) = None.
Proof.
  induction m as [| [k' v] rest IH]; simpl; [reflexivity |].
  destruct (String.eqb k k') eqn:E; [exact IH |].
  simpl. now rewrite E.
Qed.

(** Relaxation stops with a [TypeError] at a neighbor without edge. *)
Lemma relax_missing_edge getWeight es current unvisited missing neighbors :
  set_has missing unvisited = true ->
  map_get (edgeKey current missing) es = None ->
  In missing neighbors ->
  forall distances previous,
    relax getWeight es current neighbors unvisited distances previous
    = Throw TypeError.
Proof.
  intros Hun Hnone. induction neighbors as [| n rest IH]; intros Hin d p.
  - contradiction.
  - cbn [relax].
    destruct (String.eqb n missing) eqn:E.
    + apply String.eqb_eq in E. subst n. now rewrite Hun, Hnone.
    + apply String.eqb_neq in E.
      assert (Hrest : In missing rest) by (destruct Hin; [congruence | assumption]).
      destruct (negb (set_has n unvisited)); [now apply IH |].
      destruct (map_get (edgeKey current n) es); [| reflexivity].
      destruct (_ <? _)%num; now apply IH.
Qed.

(** The search throws when the start has a neighbor whose edge is gone. *)
Lemma findShortestPath_missing_edge g startId endId weightFn node missing :
  map_has startId (nodes g) = true ->
  map_has endId (nodes g) = true ->
  startId <> endId ->
  map_get startId (nodes g) = Some node ->
  In missing (connections node) ->
  map_has missing (nodes g) = true ->
  missing <> startId ->
  map_get (edgeKey startId missing) (edges g) = None ->
  findShortestPath startId endId weightFn g = Throw TypeError.
Proof.
  intros Hs He Hne Hnode Hin Hmiss Hmne Hnone.
  unfold findShortestPath. rewrite Hs, He. cbn [negb orb].
  destruct (initSearch_spec startId (map_keys (nodes g))) as [Hd Hu].
  destruct (initSearch startId (map_keys (nodes g))) as [distances unvisited].
  cbn [fst snd] in Hd, Hu.
  assert (Hsin : In startId unvisited) by now apply Hu, map_keys_has.
  destruct (findMin_initial startId distances unvisited Hd) as [_ Hmin].
  rewrite (proj2 (set_has_In startId unvisited) Hsin) in Hmin.
  destruct unvisited as [| x rest]; [contradiction |].
  cbn [List.length mainLoop]. rewrite Hmin. cbn [fst].
  apply String.eqb_neq in Hne. rewrite Hne, Hnode.
  rewrite (relax_missing_edge _ _ _ _ missing); try assumption; [reflexivity |].
  apply set_has_In, set_delete_In. split; [| exact Hmne].
  now apply Hu, map_keys_has.
Qed.

Lemma map_set_fresh {V : Type} (m : jsmap V) k v :
  map_has k m = false -> map_set k v m = m ++ [(k, v)].
Proof.
  unfold map_has. induction m as [| [k' v'] rest IH]; simpl; [reflexivity |].
  destruct (String.eqb k k'); [discriminate |].
  intros H. now rewrite IH.
Qed.

Lemma map_has_app {V : Type} (m m' : jsmap V) k :
  map_has k (m ++ m') = (map_has k m || map_has k m')%bool.
Proof.
  unfold map_has. induction m as [| [k' v'] rest IH]; simpl; [reflexivity |].
  destruct (String.eqb k k'); [reflexivity | exact IH].
Qed.

Lemma map_has_false_keys {V : Type} (m : jsmap V) k :
  ~ In k (map_keys m) -> map_has k m = false.
Proof.
  intros H. destruct (map_has k m) eqn:E; [| reflexivity].
  apply map_keys_has in E. contradiction.
Qed.

(** With distinct keys the node copy is the node map itself. *)
Lemma copyNodes_fold entries :
  forall acc,
    NoDup (map_keys entries) ->
    (forall k, In k (map_keys entries) -> map_has k (nodes acc) = false) ->
    fold_left
      (fun tempGraph (entry : string * Node) =>
         addNode (fst entry) (nodeAsData (snd entry)) tempGraph)
      entries acc
    = {| nodes := nodes acc ++ entries; edges := edges acc |}.
Proof.
  induction entries as [| [k node] rest IH]; intros acc Hnodup Hfresh; simpl.
  - rewrite app_nil_r. now destruct acc.
  - simpl in Hnodup. inversion Hnodup as [| ? ? Hk Hrest]; subst.
    rewrite IH.
    + simpl. rewrite map_set_fresh by (apply Hfresh; now left).
      rewrite <- app_assoc. simpl. now destruct node.
    + exact Hrest.
    + intros k' Hk'. simpl.
      rewrite map_set_fresh by (apply Hfresh; now left).
      rewrite map_has_app, (Hfresh k') by (now right). simpl.
      unfold map_has. simpl.
      destruct (String.eqb k' k) eqn:E; [| reflexivity].
      apply String.eqb_eq in E. subst. contradiction.
Qed.

Lemma copyNodes_same g :
  NoDup (map_keys (nodes g)) ->
  copyNodes g = {| nodes := nodes g; edges := [] |}.
Proof.
  intros Hnodup. unfold copyNodes. rewrite copyNodes_fold; [reflexivity | exact Hnodup |].
  reflexivity.
Qed.

Lemma grows_refl ns : grows ns ns.
Proof.
  split; [reflexivity |]. intros k node H. exists node. split; [exact H | apply incl_refl].
Qed.

Lemma grows_trans ns1 ns2 ns3 : grows ns1 ns2 -> grows ns2 ns3 -> grows ns1 ns3.
Proof.
  intros [Ha1 Ha2] [Hb1 Hb2]. split.
  - intros k. now rewrite Hb1, Ha1.
  - intros k node H. destruct (Ha2 k node H) as (node' & H' & Hincl).
    destruct (Hb2 k node' H') as (node'' & H'' & Hincl').
    exists node''. split; [exact H'' | now apply incl_tran with (connections node')].
Qed.

Lemma grows_connection ns f t nodeF :
  map_get f ns = Some nodeF ->
  grows ns (map_set f {| node_id := node_id nodeF;
                         connections := set_add t (connections nodeF);
                         node_name := node_name nodeF |} ns).
Proof.
  intros Hf. split.
  - intros k. rewrite map_has_set. destruct (String.eqb k f) eqn:E; [| reflexivity].
    apply String.eqb_eq in E. subst. simpl. symmetry.
    apply map_has_true. now exists nodeF.
  - intros k node Hk. destruct (String.eqb k f) eqn:E.
    + apply String.eqb_eq in E. subst k. rewrite Hf in Hk. injection Hk as <-.
      eexists. split; [apply map_get_set_same |].
      simpl. intros x Hx. apply set_add_In. now right.
    + apply String.eqb_neq in E. exists node.
      split; [now rewrite map_get_set_other | apply incl_refl].
Qed.

Lemma addEdge_grows g fromId toId data g' :
  addEdge fromId toId data g = Ok g' -> grows (nodes g) (nodes g').
Proof.
  intros H. apply addEdge_shape in H.
  destruct H as (nodeF & HF & [-> | (nodeT & HT & ->)]); simpl.
  - now apply grows_connection.
  - eapply grows_trans; [now apply grows_connection; exact HF |].
    now apply grows_connection.
Qed.

Lemma copyEdges_grows entries :
  forall tempGraph tempGraph',
    copyEdges entries tempGraph = Ok tempGraph' ->
    grows (nodes tempGraph) (nodes tempGraph').
Proof.
  induction entries as [| [edgeId edge] rest IH]; intros tg tg' H; simpl in H.
  - injection H as <-. apply grows_refl.
  - destruct (negb (map_has edgeId (edges tg))).
    + bind_inv H. apply addEdge_grows in E.
      eapply grows_trans; [exact E | now apply IH].
    + now apply IH.
Qed.

Lemma addEdge_returns_or_throws fromId toId data g :
  addEdge fromId toId data g <> Diverge.
Proof.
  unfold addEdge, addConnection.
  destruct (negb (map_has fromId (nodes g)) || negb (map_has toId (nodes g)));
    [discriminate |].
  destruct (map_get fromId (nodes g)); cbn [bind]; [| discriminate].
  destruct (d_bidirectional data) as [[|] |]; try discriminate.
  match goal with
  | |- context [map_get toId ?m] => destruct (map_get toId m)
  end; discriminate.
Qed.

Lemma copyEdges_returns_or_throws entries :
  forall tempGraph, copyEdges entries tempGraph <> Diverge.
Proof.
  induction entries as [| [edgeId edge] rest IH]; intros tg; simpl.
  - discriminate.
  - destruct (negb (map_has edgeId (edges tg))); [| apply IH].
    pose proof (addEdge_returns_or_throws (from edge) (to edge)
                  (withBidirectional false (edgeAsData edge)) tg) as Hadd.
    destruct (addEdge (from edge) (to edge)
                (withBidirectional false (edgeAsData edge)) tg);
      cbn [bind]; [apply IH | discriminate | contradiction].
Qed.

(** Whenever a shortest path exists and more than one path is asked for,
    [findAlternativePaths] throws: the first edge of the shortest path is
    deleted from the working copy while the start still lists its head as a
    neighbor. *)
Theorem findAlternativePaths_second_path_throws
    (g : RoadGraph) (startId endId : string) (k : nat) (p : PathInfo) :
  NoDup (map_keys (nodes g)) ->
  (2 <= k)%nat ->
  findShortestPath startId endId None g = Ok (Found p) ->
  exists e, findAlternativePaths startId endId k g = Throw e.
Proof.
  intros Hnodup Hk Hfound.
  unfold findAlternativePaths. rewrite Hfound. cbn [bind].
  rewrite (copyNodes_same g Hnodup).
  pose proof (copyEdges_returns_or_throws (edges g) {| nodes := nodes g; edges := [] |})
    as Hcopy.
  destruct (copyEdges (edges g) {| nodes := nodes g; edges := [] |})
    as [tempGraph | e |] eqn:Ecopy; cbn [bind];
    [| now exists e | contradiction].
  apply copyEdges_grows in Ecopy. cbn [nodes] in Ecopy.
  destruct Ecopy as [Hkeys Hconn].
  destruct (findShortestPath_first_hop _ _ _ _ _ Hfound)
    as (Hs & He & Hne & second & rest & node & Hpath & Hnode & Hin & Hkey & Hsne).
  destruct (Hconn startId node Hnode) as (node' & Hnode' & Hincl).
  destruct k as [| [| k]]; [lia | lia |].
  cbn [Nat.sub morePaths nth_error]. rewrite Hpath. cbn [suppressEdges].
  rewrite (findShortestPath_missing_edge _ startId endId None node' second).
  - cbn [bind]. now exists TypeError.
  - cbn [nodes]. now rewrite Hkeys.
  - cbn [nodes]. now rewrite Hkeys.
  - exact Hne.
  - exact Hnode'.
  - now apply Hincl.
  - cbn [nodes]. rewrite Hkeys. now apply map_keys_has.
  - exact Hsne.
  - cbn [edges]. apply map_get_delete_same.
Qed.

(** The results of [findAlternativePaths] on a graph with distinct keys. *)
Lemma alternatives_shortest_only g startId endId k paths :
  NoDup (map_keys (nodes g)) ->
  findAlternativePaths startId endId k g = Ok paths ->
  (paths = [] /\ findShortestPath startId endId None g = Ok NotFound)
  \/ (exists p, paths = [p]
                /\ findShortestPath startId endId None g = Ok (Found p)
                /\ (k <= 1)%nat).
Proof.
  intros Hnodup H.
  destruct (findShortestPath startId endId None g) as [[p |] | e |] eqn:Efirst.
  - right. exists p.
    destruct (Nat.le_gt_cases k 1) as [Hk | Hk].
    + unfold findAlternativePaths in H. rewrite Efirst in H. cbn [bind] in H.
      bind_inv H. replace (k - 1)%nat with 0%nat in H by lia.
      cbn [morePaths] in H. injection H as <-. now repeat split.
    + destruct (findAlternativePaths_second_path_throws g startId endId k p
                  Hnodup Hk Efirst) as [e He].
      congruence.
  - left. unfold findAlternativePaths in H. rewrite Efirst in H. cbn [bind] in H.
    injection H as <-. now split.
  - unfold findAlternativePaths in H. rewrite Efirst in H. discriminate H.
  - unfold findAlternativePaths in H. rewrite Efirst in H. discriminate H.
Qed.



Example second_path_throws_on_triangle :
  exists e, findAlternativePaths "A" "C" 3 triangleGraph = Throw e.
Proof.
  destruct (triangle_shortest_path) as (p & Hp & _).
  apply (findAlternativePaths_second_path_throws triangleGraph "A" "C" 3 p).
  - repeat constructor; simpl; intuition discriminate.
  - lia.
  - exact Hp.
Qed.

(** [distributeTraffic] inherits the failure. *)
Corollary distributeTraffic_second_path_throws
    (g : RoadGraph) (startId endId : string) (totalVehicles : num)
    (numPaths : nat) (p : PathInfo) :
  NoDup (map_keys (nodes g)) ->
  (2 <= numPaths)%nat ->
  findShortestPath startId endId None g = Ok (Found p) ->
  exists e, distributeTraffic startId endId totalVehicles numPaths g = Throw e.
Proof.
  intros Hnodup Hk Hfound.
  destruct (findAlternativePaths_second_path_throws g startId endId numPaths p
              Hnodup Hk Hfound) as [e He].
  exists e. unfold distributeTraffic. now rewrite He.
Qed.

(** ** The allocator *)

Section IntegersAsNumbers.
Local Open Scope Qc_scope.

Lemma Q2Qc_inject_plus (a b : Z) :
  Q2Qc (inject_Z a) + Q2Qc (inject_Z b) = Q2Qc (inject_Z (a + b)).
Proof.
  apply Qc_is_canon. unfold Qcplus, Q2Qc. cbn [this].
  rewrite !Qred_correct. now rewrite inject_Z_plus.
Qed.

Lemma Q2Qc_inject_opp (a : Z) : - Q2Qc (inject_Z a) = Q2Qc (inject_Z (- a)).
Proof.
  apply Qc_is_canon. unfold Qcopp, Q2Qc. cbn [this].
  rewrite !Qred_correct. now rewrite inject_Z_opp.
Qed.

Lemma Q2Qc_inject_le (a b : Z) :
  Q2Qc (inject_Z a) <= Q2Qc (inject_Z b) <-> (a <= b)%Z.
Proof.
  unfold Qcle, Q2Qc. cbn [this]. rewrite !Qred_correct.
  now rewrite Zle_Qle.
Qed.

Lemma Q2Qc_inject_lt (a b : Z) :
  Q2Qc (inject_Z a) < Q2Qc (inject_Z b) <-> (a < b)%Z.
Proof.
  unfold Qclt, Q2Qc. cbn [this]. rewrite !Qred_correct.
  now rewrite Zlt_Qlt.
Qed.

Lemma floor_le_self (x : Qc) : Q2Qc (inject_Z (Qfloor x)) <= x.
Proof.
  unfold Qcle, Q2Qc. cbn [this]. rewrite Qred_correct. apply Qfloor_le.
Qed.

Lemma floor_nonneg (x : Qc) : 0 <= x -> (0 <= Qfloor x)%Z.
Proof.
  intros H. change 0%Z with (Qfloor 0). apply Qfloor_resp_le. exact H.
Qed.

Lemma Qc_add_pos_nonneg (x y : Qc) : 0 < x -> 0 <= y -> 0 < x + y.
Proof.
  intros Hx Hy. apply Qclt_le_trans with (x + 0).
  - now rewrite Qcplus_0_r.
  - apply Qcplus_le_compat; [apply Qcle_refl | exact Hy].
Qed.

Lemma qsum_nonneg (l : list Qc) : (forall x, In x l -> 0 < x) -> 0 <= qsum l.
Proof.
  induction l as [| x rest IH]; intros H; simpl.
  - apply Qcle_refl.
  - apply Qclt_le_weak, Qc_add_pos_nonneg; [apply H; now left |].
    apply IH. intros y Hy. apply H. now right.
Qed.

Lemma qsum_pos (l : list Qc) : l <> [] -> (forall x, In x l -> 0 < x) -> 0 < qsum l.
Proof.
  destruct l as [| x rest]; [congruence |]. intros _ H. simpl.
  apply Qc_add_pos_nonneg; [apply H; now left |].
  apply qsum_nonneg. intros y Hy. apply H. now right.
Qed.

Lemma qsum_floors (xs : list Qc) :
  Q2Qc (inject_Z (zsum (map (fun x : Qc => Qfloor x) xs))) <= qsum xs.
Proof.
  induction xs as [| x rest IH]; simpl.
  - apply Qcle_refl.
  - rewrite <- Q2Qc_inject_plus.
    apply Qcplus_le_compat; [apply floor_le_self | exact IH].
Qed.

Lemma qsum_shares (N W : Qc) (ts : list Qc) :
  qsum (map (fun t => N * (1 / t / W)) ts)
  = N * (qsum (map (fun t => 1 / t) ts) * / W).
Proof.
  induction ts as [| t rest IH]; simpl.
  - ring.
  - rewrite IH. unfold Qcdiv. ring.
Qed.
End IntegersAsNumbers.

Lemma num_of_Z_add a b : (num_of_Z a + num_of_Z b)%num = num_of_Z (a + b).
Proof. unfold num_of_Z. simpl. now rewrite Q2Qc_inject_plus. Qed.

Lemma num_of_Z_sub a b : (num_of_Z a - num_of_Z b)%num = num_of_Z (a - b).
Proof.
  unfold num_sub, num_of_Z. simpl.
  now rewrite Q2Qc_inject_opp, Q2Qc_inject_plus.
Qed.

Lemma num_of_Z_pos z : (n0 <? num_of_Z z)%num = (0 <? z)%Z.
Proof.
  unfold n0, num_of_Z, num_ltb.
  destruct (Z.ltb_spec 0 z) as [H | H].
  - apply Qc_ltb_lt. now apply Q2Qc_inject_lt.
  - destruct (Qc_ltb (Q2Qc (inject_Z 0)) (Q2Qc (inject_Z z))) eqn:E; [| reflexivity].
    apply Qc_ltb_lt in E. apply (proj1 (Q2Qc_inject_lt 0 z)) in E. lia.
Qed.

Lemma sumCounts_fold routes :
  forall counts a,
    map vehicleCount routes = map num_of_Z counts ->
    fold_left (fun sum route => (sum + vehicleCount route)%num) routes (num_of_Z a)
    = num_of_Z (a + zsum counts).
Proof.
  induction routes as [| r rest IH]; intros counts a H.
  - destruct counts; [| discriminate]. simpl. now rewrite Z.add_0_r.
  - destruct counts as [| z zs]; [discriminate |].
    simpl in H. injection H as Hr Hrest.
    cbn [fold_left zsum]. rewrite Hr, num_of_Z_add.
    rewrite (IH zs _ Hrest). f_equal. lia.
Qed.

Lemma sumCounts_counts routes counts :
  map vehicleCount routes = map num_of_Z counts ->
  sumCounts routes = num_of_Z (zsum counts).
Proof. intros H. unfold sumCounts, n0. now rewrite (sumCounts_fold _ _ _ H). Qed.

Lemma weighPaths_fold paths :
  forall acc w,
    fold_left
      (fun (st : list Route * num) p =>
         let w := (n1 / totalTravelTime p)%num in
         (fst st ++ [ {| routePath := path p; routeEdges := pathEdges p;
                         routeTravelTime := totalTravelTime p;
                         routeDistance := totalDistance p;
                         weight := w; vehicleCount := n0 |} ],
          (snd st + w)%num))
      paths (acc, w)
    = (acc ++ map routeOf paths,
       fold_left (fun a p => (a + n1 / totalTravelTime p)%num) paths w).
Proof.
  induction paths as [| p rest IH]; intros acc w; simpl.
  - now rewrite app_nil_r.
  - rewrite IH. cbn [fst snd]. now rewrite <- app_assoc.
Qed.

Lemma totalWeight_finite paths :
  (forall p, In p paths -> totalTravelTime p = Fin (timeOf p) /\ (0 < timeOf p)%Qc) ->
  forall a,
    fold_left (fun a p => (a + n1 / totalTravelTime p)%num) paths (Fin a)
    = Fin (a + qsum (map (fun t => 1 / t) (map timeOf paths)))%Qc.
Proof.
  induction paths as [| p rest IH]; intros Hpos a; cbn [fold_left map qsum].
  - now rewrite Qcplus_0_r.
  - destruct (Hpos p (or_introl eq_refl)) as [Ht Htpos].
    rewrite Ht. change n1 with (Fin 1%Qc). rewrite num_div_fin by exact Htpos.
    cbn [num_add]. rewrite IH by (intros q Hq; apply Hpos; now right).
    now rewrite Qcplus_assoc.
Qed.

Section Shares.
Variable n : Z.
Variable paths : list PathInfo.
Hypothesis n_nonneg : (0 <= n)%Z.
Hypothesis paths_nonempty : paths <> [].
Hypothesis times_positive :
  forall p, In p paths -> totalTravelTime p = Fin (timeOf p) /\ (0 < timeOf p)%Qc.

Let W : Qc := qsum (map (fun t => 1 / t)%Qc (map timeOf paths)).

Lemma weights_positive : forall x, In x (map (fun t => 1 / t)%Qc (map timeOf paths)) -> (0 < x)%Qc.
Proof.
  intros x Hx. apply in_map_iff in Hx. destruct Hx as (t & <- & Ht).
  apply in_map_iff in Ht. destruct Ht as (p & <- & Hp).
  unfold Qcdiv. rewrite Qcmult_1_l. apply Qc_inv_pos. now apply times_positive.
Qed.

Lemma totalWeight_positive : (0 < W)%Qc.
Proof.
  apply qsum_pos; [| exact weights_positive].
  destruct paths; [congruence | discriminate].
Qed.

Lemma weighPaths_value : weighPaths paths = (map routeOf paths, Fin W).
Proof.
  unfold weighPaths. rewrite weighPaths_fold. simpl. f_equal.
  change n0 with (Fin 0%Qc). rewrite totalWeight_finite by exact times_positive.
  now rewrite Qcplus_0_l.
Qed.

(** The floored shares are the integers [shareOf]. *)
Lemma flooredShares_counts :
  map vehicleCount (flooredShares (num_of_Z n) paths)
  = map num_of_Z (map (fun p => shareOf n W (timeOf p)) paths)
  /\ map routePath (flooredShares (num_of_Z n) paths) = map path paths.
Proof.
  unfold flooredShares. rewrite weighPaths_value.
  rewrite !map_map. split; [| reflexivity].
  apply map_ext_in. intros p Hp. cbn [vehicleCount withCount routeOf weight].
  destruct (times_positive p Hp) as [Ht Htpos]. rewrite Ht.
  change n1 with (Fin 1%Qc). rewrite num_div_fin by exact Htpos.
  rewrite num_div_fin by exact totalWeight_positive.
  reflexivity.
Qed.

Lemma shares_nonneg : Forall (fun z => (0 <= z)%Z) (map (fun p => shareOf n W (timeOf p)) paths).
Proof.
  apply Forall_forall. intros z Hz. apply in_map_iff in Hz.
  destruct Hz as (p & <- & Hp). unfold shareOf. apply floor_nonneg.
  destruct (times_positive p Hp) as [_ Htpos].
  assert (Hn : (0 <= Q2Qc (inject_Z n))%Qc) by now apply Q2Qc_inject_le.
  assert (Hr : (0 < 1 / timeOf p / W)%Qc).
  { unfold Qcdiv. rewrite Qcmult_1_l.
    apply Qc_mult_pos; apply Qc_inv_pos; [exact Htpos | exact totalWeight_positive]. }
  replace 0%Qc with (0 * (1 / timeOf p / W))%Qc by ring.
  apply Qcmult_le_compat_r; [exact Hn | now apply Qclt_le_weak].
Qed.

Lemma shares_sum_le : (zsum (map (fun p => shareOf n W (timeOf p)) paths) <= n)%Z.
Proof.
  apply Q2Qc_inject_le.
  pose proof (qsum_floors
                (map (fun t => Q2Qc (inject_Z n) * (1 / t / W))%Qc (map timeOf paths)))
    as Hfl.
  rewrite !map_map in Hfl.
  rewrite <- (map_map timeOf (fun t => Q2Qc (inject_Z n) * (1 / t / W))%Qc) in Hfl.
  rewrite qsum_shares in Hfl. fold W in Hfl.
  rewrite Qcmult_inv_r in Hfl by (apply Qc_pos_neq0, totalWeight_positive).
  rewrite Qcmult_1_r in Hfl. exact Hfl.
Qed.
End Shares.

Lemma withCount_same r : withCount (vehicleCount r) r = r.
Proof. now destruct r. Qed.

(** The allocator on paths of positive travel time, in exact arithmetic:
    every count is a non-negative integer, the counts sum to the number of
    vehicles, and what flooring leaves over goes to the first entry.  (On
    doubles a quotient can round just below a whole number, so a floored
    share can be one lower than here, and for very large numbers of
    vehicles the sum can be off by one.) *)
Theorem allocate_exact (n : Z) (paths : list PathInfo) :
  (0 <= n)%Z ->
  paths <> [] ->
  (forall p, In p paths -> exists t, totalTravelTime p = Fin t /\ (0 < t)%Qc) ->
  exists first others,
    flooredShares (num_of_Z n) paths = first :: others
    /\ allocate (num_of_Z n) paths
       = withCount (vehicleCount first
                    + (num_of_Z n - sumCounts (first :: others)))%num first
           :: others
    /\ (forall r, In r (allocate (num_of_Z n) paths) ->
                  exists z, (0 <= z)%Z /\ vehicleCount r = num_of_Z z)
    /\ sumCounts (allocate (num_of_Z n) paths) = num_of_Z n
    /\ map routePath (allocate (num_of_Z n) paths) = map path paths.
Proof.
  intros Hn Hne Hpos.
  assert (Htimes : forall p, In p paths ->
                             totalTravelTime p = Fin (timeOf p) /\ (0 < timeOf p)%Qc).
  { intros p Hp. destruct (Hpos p Hp) as (t & Ht & Htpos).
    unfold timeOf. rewrite Ht. now split. }
  set (W := qsum (map (fun t => 1 / t)%Qc (map timeOf paths))).
  destruct (flooredShares_counts n paths Hne Htimes) as [Hcounts Hpaths].
  pose proof (shares_nonneg n paths Hn Hne Htimes) as Hnonneg.
  pose proof (shares_sum_le n paths Hne Htimes) as Hle.
  fold W in Hcounts, Hnonneg, Hle.
  set (zs := map (fun p => shareOf n W (timeOf p)) paths) in *.
  unfold allocate.
  destruct (flooredShares (num_of_Z n) paths) as [| first others] eqn:Efl.
  { destruct paths; [congruence |]. discriminate Hpaths. }
  destruct zs as [| z zrest] eqn:Ezs; [discriminate Hcounts |].
  simpl in Hcounts. injection Hcounts as Hfirst Hothers.
  assert (Hsum : sumCounts (first :: others) = num_of_Z (zsum (z :: zrest))).
  { apply sumCounts_counts. simpl. now rewrite Hfirst, Hothers. }
  exists first, others. split; [reflexivity |].
  rewrite Hsum, num_of_Z_sub, num_of_Z_pos, Hfirst, num_of_Z_add.
  inversion Hnonneg as [| ? ? Hz Hzrest]; subst.
  assert (Hcounts' :
            map vehicleCount
              (withCount (num_of_Z (z + (n - zsum (z :: zrest)))) first :: others)
            = map num_of_Z ((z + (n - zsum (z :: zrest)))%Z :: zrest)).
  { simpl. now rewrite Hothers. }
  assert (Heq :
            (if (0 <? n - zsum (z :: zrest))%Z
             then withCount (num_of_Z (z + (n - zsum (z :: zrest)))) first :: others
             else first :: others)
            = withCount (num_of_Z (z + (n - zsum (z :: zrest)))) first :: others).
  { destruct (Z.ltb_spec 0 (n - zsum (z :: zrest))) as [Hlt | Hge]; [reflexivity |].
    replace (z + (n - zsum (z :: zrest)))%Z with z by lia.
    now rewrite <- Hfirst, withCount_same. }
  rewrite Heq. split; [reflexivity |].
  split; [| split].
  - intros r [<- | Hr].
    + exists (z + (n - zsum (z :: zrest)))%Z. split; [lia | reflexivity].
    + assert (Hin : In (vehicleCount r) (map num_of_Z zrest)).
      { rewrite <- Hothers. now apply in_map. }
      apply in_map_iff in Hin. destruct Hin as (z' & Hz' & Hin).
      exists z'. split; [| now symmetry].
      rewrite Forall_forall in Hzrest. now apply Hzrest.
  - rewrite (sumCounts_counts _ _ Hcounts'). f_equal. simpl. lia.
  - simpl. simpl in Hpaths. exact Hpaths.
Qed.

Lemma allocate_exact_witness :
  sumCounts
    (allocate (num_of_Z 100)
       [pathOfTime ["A"; "B"; "C"] 10; pathOfTime ["A"; "C"] 20])
  = num_of_Z 100.
Proof.
  destruct (allocate_exact 100
              [pathOfTime ["A"; "B"; "C"] 10; pathOfTime ["A"; "C"] 20])
    as (first & others & _ & _ & _ & H & _).
  - lia.
  - discriminate.
  - intros p [<- | [<- | []]]; eexists; (split; [reflexivity | reflexivity]).
  - exact H.
Defined.

(** ** The scenario of the specification *)

Lemma triangle_built : triangle = Ok triangleGraph.
Proof. reflexivity. Qed.

(** In the working copy the neighbor set of A still lists B after the edge
    "A-B" has been deleted, so the search reads a field of a missing edge. *)
Lemma suppressed_edge_is_still_a_neighbor :
  option_map connections (map_get "A" (nodes triangleWithoutAB)) = Some ["B"; "C"]
  /\ map_get (edgeKey "A" "B") (edges triangleWithoutAB) = None
  /\ findShortestPath "A" "C" None triangleWithoutAB = Throw TypeError.
Proof. repeat split; vm_compute; reflexivity. Qed.

(** C2 on the code: [findShortestPath(A, C)] returns A, B, C with travel
    time 10, and [findAlternativePaths(A, C, 2)] does not return a second
    path: it throws a [TypeError] in the search on the working copy, also
    when the load of A->C is set to 0 first. *)
Theorem triangle_alternatives_throw :
  (exists p,
      findShortestPath "A" "C" None triangleGraph = Ok (Found p)
      /\ path p = ["A"; "B"; "C"]
      /\ totalTravelTime p = num_of_Z 10)
  /\ findAlternativePaths "A" "C" 2 triangleGraph = Throw TypeError
  /\ (g <- updateEdgeLoad "A" "C" n0 triangleGraph ;;
      findAlternativePaths "A" "C" 2 g) = Throw TypeError.
Proof.
  split; [| split].
  - eexists. split; [vm_compute; reflexivity |].
    split; reflexivity.
  - vm_compute. reflexivity.
  - vm_compute. reflexivity.
Qed.

(** C1 on the code: on the scenario graph [distributeTraffic(A, C, 100, n)]
    throws for [n = 2] and for the default [n = 3]; only with a single path
    does it return, with all 100 vehicles on that path. *)
Theorem triangle_distribution_throws :
  distributeTraffic "A" "C" (num_of_Z 100) 2 triangleGraph = Throw TypeError
  /\ distributeTraffic "A" "C" (num_of_Z 100) 3 triangleGraph = Throw TypeError
  /\ (plan <- distributeTraffic "A" "C" (num_of_Z 100) 1 triangleGraph ;;
      match plan with
      | Success _ distribution =>
          Ok (map (fun r => (routePath r, vehicleCount r)) distribution)
      | Failure _ => Ok []
      end) = Ok [(["A"; "B"; "C"], num_of_Z 100)].
Proof.
  split; [| split].
  - vm_compute. reflexivity.
  - vm_compute. reflexivity.
  - vm_compute. repeat f_equal; now apply Qc_is_canon.
Qed.

(** The allocator itself, given the two paths of the scenario (travel times
    10 and 20), splits 100 vehicles into 67 and 33. *)
Example allocate_two_paths :
  map vehicleCount
    (allocate (num_of_Z 100)
       [pathOfTime ["A"; "B"; "C"] 10; pathOfTime ["A"; "C"] 20])
  = [num_of_Z 67; num_of_Z 33].
Proof.
  vm_compute. repeat f_equal; now apply Qc_is_canon.
Qed.

(* ================================================================= *)
(** * Further properties of the code *)

(** ** Edge insertion *)

Section MoreMapFacts.
Context {V : Type}.
Implicit Types (m : jsmap V) (k : string) (v : V).

Lemma map_set_same m k v : map_get k m = Some v -> map_set k v m = m.
Proof.
  induction m as [| [k' v'] rest IH]; simpl; [discriminate |].
  destruct (String.eqb k k') eqn:E.
  - apply String.eqb_eq in E. subst k'. now intros [= ->].
  - intros H. now rewrite IH.
Qed.

Lemma map_keys_set_present m k v :
  map_has k m = true -> map_keys (map_set k v m) = map_keys m.
Proof.
  unfold map_has, map_keys.
  induction m as [| [k' v'] rest IH]; simpl; [discriminate |].
  destruct (String.eqb k k') eqn:E; simpl; [reflexivity |].
  intros H. now rewrite IH.
Qed.

Lemma map_set_comm m k k' v v' :
  k <> k' -> map_has k m = true ->
  map_set k v (map_set k' v' m) = map_set k' v' (map_set k v m).
Proof.
  intros Hne. unfold map_has.
  induction m as [| [k0 v0] rest IH]; simpl; [discriminate |].
  destruct (String.eqb k k0) eqn:E, (String.eqb k' k0) eqn:E'; simpl;
    rewrite ?E, ?E'; try reflexivity.
  - apply String.eqb_eq in E, E'. congruence.
  - intros H. now rewrite IH.
Qed.
End MoreMapFacts.

Lemma addEdge_ok_two_way g fromId toId data nodeFrom nodeTo :
  map_get fromId (nodes g) = Some nodeFrom ->
  map_get toId
    (map_set fromId {| node_id := node_id nodeFrom;
                       connections := set_add toId (connections nodeFrom);
                       node_name := node_name nodeFrom |} (nodes g)) = Some nodeTo ->
  d_bidirectional data = Some true ->
  addEdge fromId toId data g
  = Ok {| nodes :=
            map_set toId {| node_id := node_id nodeTo;
                            connections := set_add fromId (connections nodeTo);
                            node_name := node_name nodeTo |}
              (map_set fromId {| node_id := node_id nodeFrom;
                                 connections := set_add toId (connections nodeFrom);
                                 node_name := node_name nodeFrom |} (nodes g));
          edges :=
            map_set (edgeKey toId fromId)
              (edgeLiteral (edgeKey toId fromId) toId fromId data)
              (map_set (edgeKey fromId toId)
                 (edgeLiteral (edgeKey fromId toId) fromId toId data) (edges g)) |}.
Proof.
  intros Hfrom Hto Hbi. unfold addEdge.
  assert (Hf : map_has fromId (nodes g) = true).
  { apply map_has_true. now exists nodeFrom. }
  assert (Ht : map_has toId (nodes g) = true).
  { assert (H : map_has toId
                  (map_set fromId {| node_id := node_id nodeFrom;
                                     connections := set_add toId (connections nodeFrom);
                                     node_name := node_name nodeFrom |} (nodes g)) = true).
    { apply map_has_true. now exists nodeTo. }
    rewrite map_has_set in H. destruct (String.eqb toId fromId) eqn:E; [| exact H].
    apply String.eqb_eq in E. now subst. }
  rewrite Hf, Ht, Hbi. cbn [negb orb].
  rewrite (addConnection_ok _ _ _ _ Hfrom). cbn [bind].
  now rewrite (addConnection_ok _ _ _ _ Hto).
Qed.

(** What a call of [addEdge] does: it throws the construction error exactly
    when an endpoint is missing; otherwise it returns a graph with the same
    node identifiers in the same order, in which [toId] is a neighbor of
    [fromId] and the edge is stored, and in which no other node and no edge
    under another identifier has changed. *)
Theorem addEdge_contract (g : RoadGraph) (fromId toId : string) (data : EdgeData) :
  (map_has fromId (nodes g) = false \/ map_has toId (nodes g) = false ->
   addEdge fromId toId data g
   = Throw (Error ("Cannot create edge between non-existent nodes: "
                     ++ fromId ++ ", " ++ toId)))
  /\ (map_has fromId (nodes g) = true -> map_has toId (nodes g) = true ->
      exists g',
        addEdge fromId toId data g = Ok g'
        /\ map_keys (nodes g') = map_keys (nodes g)
        /\ (exists node', map_get fromId (nodes g') = Some node'
                          /\ In toId (connections node'))
        /\ map_has (edgeKey fromId toId) (edges g') = true
        /\ (d_bidirectional data <> Some true ->
            map_get (edgeKey fromId toId) (edges g')
            = Some (edgeLiteral (edgeKey fromId toId) fromId toId data))
        /\ (forall n, n <> fromId ->
                      n <> toId \/ d_bidirectional data <> Some true ->
                      map_get n (nodes g') = map_get n (nodes g))
        /\ (forall k, k <> edgeKey fromId toId ->
                      k <> edgeKey toId fromId \/ d_bidirectional data <> Some true ->
                      map_get k (edges g') = map_get k (edges g))).
Proof.
  split.
  - intros H. unfold addEdge.
    destruct H as [H | H]; rewrite H; cbn [negb orb]; [reflexivity |].
    now destruct (map_has fromId (nodes g)).
  - intros Hf Ht.
    destruct (proj1 (map_has_true _ _) Hf) as [nodeFrom Hfrom].
    set (nodeFrom' := {| node_id := node_id nodeFrom;
                         connections := set_add toId (connections nodeFrom);
                         node_name := node_name nodeFrom |}).
    assert (Hin : In toId (connections nodeFrom')).
    { apply set_add_In. now left. }
    destruct (d_bidirectional data) as [[|] |] eqn:Hbi.
    + assert (Ht' : map_has toId (map_set fromId nodeFrom' (nodes g)) = true).
      { rewrite map_has_set, Ht. apply orb_true_r. }
      destruct (proj1 (map_has_true _ _) Ht') as [nodeTo Hto].
      eexists. split; [exact (addEdge_ok_two_way _ _ _ _ _ _ Hfrom Hto Hbi) |].
      cbn [nodes edges]. split; [| split; [| split; [| split; [| split]]]].
      * rewrite map_keys_set_present by exact Ht'.
        now apply map_keys_set_present.
      * destruct (String.eqb fromId toId) eqn:E.
        -- apply String.eqb_eq in E. subst toId.
           eexists. split; [apply map_get_set_same |].
           cbn [connections]. apply set_add_In. now left.
        -- apply String.eqb_neq in E. exists nodeFrom'. split; [| exact Hin].
           rewrite map_get_set_other by exact E. apply map_get_set_same.
      * rewrite !map_has_set, String.eqb_refl. apply orb_true_r.
      * intros H. now contradiction H.
      * intros n Hn [Hn' | Hn']; [| now contradiction Hn'].
        now rewrite !map_get_set_other.
      * intros k Hk [Hk' | Hk']; [| now contradiction Hk'].
        now rewrite !map_get_set_other.
    + eexists. split.
      { apply (addEdge_ok_one_way _ _ _ _ _ Hfrom Ht). rewrite Hbi. discriminate. }
      cbn [nodes edges]. split; [| split; [| split; [| split; [| split]]]].
      * now apply map_keys_set_present.
      * exists nodeFrom'. split; [apply map_get_set_same | exact Hin].
      * rewrite map_has_set, String.eqb_refl. reflexivity.
      * intros _. apply map_get_set_same.
      * intros n Hn _. now rewrite map_get_set_other.
      * intros k Hk _. now rewrite map_get_set_other.
    + eexists. split.
      { apply (addEdge_ok_one_way _ _ _ _ _ Hfrom Ht). rewrite Hbi. discriminate. }
      cbn [nodes edges]. split; [| split; [| split; [| split; [| split]]]].
      * now apply map_keys_set_present.
      * exists nodeFrom'. split; [apply map_get_set_same | exact Hin].
      * rewrite map_has_set, String.eqb_refl. reflexivity.
      * intros _. apply map_get_set_same.
      * intros n Hn _. now rewrite map_get_set_other.
      * intros k Hk _. now rewrite map_get_set_other.
Qed.

Lemma addEdge_contract_witness :
  addEdge "A" "Z" (roadData 5 100) twoNodes
  = Throw (Error "Cannot create edge between non-existent nodes: A, Z")
  /\ exists g',
      addEdge "A" "B" (roadData 5 100) twoNodes = Ok g'
      /\ map_keys (nodes g') = map_keys (nodes twoNodes)
      /\ map_has (edgeKey "A" "B") (edges g') = true.
Proof.
  split.
  - apply (proj1 (addEdge_contract twoNodes "A" "Z" (roadData 5 100))).
    right. reflexivity.
  - destruct (proj2 (addEdge_contract twoNodes "A" "B" (roadData 5 100))
                eq_refl eq_refl) as (g' & H1 & H2 & _ & H4 & _).
    exists g'. now repeat split.
Defined.

Lemma set_add_present x s : In x s -> set_add x s = s.
Proof.
  intros H. unfold set_add. apply set_has_In in H. now rewrite H.
Qed.

Lemma addConnection_present id x ns node :
  map_get id ns = Some node -> In x (connections node) ->
  addConnection id x ns = Ok ns.
Proof.
  intros Hget Hin. rewrite (addConnection_ok _ _ _ _ Hget).
  rewrite (set_add_present _ _ Hin). f_equal.
  apply map_set_same. rewrite Hget. now destruct node.
Qed.

(** The edge map after both directions have been stored takes a second
    storing of both without change. *)
Lemma store_both_again (es : jsmap Edge) k k' (F R : Edge) :
  map_set k' R (map_set k F (map_set k' R (map_set k F es)))
  = map_set k' R (map_set k F es).
Proof.
  destruct (String.eqb k k') eqn:E.
  - apply String.eqb_eq in E. subst k'. now rewrite !map_set_twice.
  - apply String.eqb_neq in E.
    rewrite (map_set_same (map_set k' R (map_set k F es)) k F).
    + apply map_set_same, map_get_set_same.
    + rewrite map_get_set_other by exact E. apply map_get_set_same.
Qed.

(** Adding the same edge a second time changes nothing. *)
Theorem addEdge_idempotent
    (g g1 : RoadGraph) (fromId toId : string) (data : EdgeData) :
  addEdge fromId toId data g = Ok g1 ->
  addEdge fromId toId data g1 = Ok g1.
Proof.
  intros H.
  assert (Hhas : map_has fromId (nodes g) = true /\ map_has toId (nodes g) = true).
  { unfold addEdge in H.
    destruct (map_has fromId (nodes g)), (map_has toId (nodes g));
      try discriminate H. now split. }
  destruct Hhas as [Hf Ht].
  destruct (proj1 (map_has_true _ _) Hf) as [nodeFrom Hfrom].
  set (nodeFrom' := {| node_id := node_id nodeFrom;
                       connections := set_add toId (connections nodeFrom);
                       node_name := node_name nodeFrom |}) in *.
  assert (Hin : In toId (connections nodeFrom')).
  { apply set_add_In. now left. }
  assert (Hone : d_bidirectional data <> Some true ->
                 addEdge fromId toId data g1 = Ok g1).
  { intros Hbi.
    rewrite (addEdge_ok_one_way _ _ _ _ _ Hfrom Ht Hbi) in H. injection H as <-.
    unfold addEdge. cbn [nodes edges].
    rewrite !map_has_set, Hf, Ht, !orb_true_r. cbn [negb orb].
    rewrite (addConnection_present fromId toId _ nodeFrom');
      [| apply map_get_set_same | exact Hin].
    cbn [bind]. rewrite map_set_twice.
    destruct (d_bidirectional data) as [[|] |]; try reflexivity.
    now contradiction Hbi. }
  destruct (d_bidirectional data) as [[|] |] eqn:Hbi;
    [| apply Hone; discriminate | apply Hone; discriminate].
  clear Hone.
  assert (Ht' : map_has toId (map_set fromId nodeFrom' (nodes g)) = true).
  { rewrite map_has_set, Ht. apply orb_true_r. }
  destruct (proj1 (map_has_true _ _) Ht') as [nodeTo Hto].
  rewrite (addEdge_ok_two_way _ _ _ _ _ _ Hfrom Hto Hbi) in H. injection H as <-.
  set (nodeTo' := {| node_id := node_id nodeTo;
                     connections := set_add fromId (connections nodeTo);
                     node_name := node_name nodeTo |}).
  unfold addEdge. cbn [nodes edges].
  rewrite !map_has_set, Hf, Ht, !orb_true_r. cbn [negb orb]. rewrite Hbi.
  assert (Hfirst : exists node, map_get fromId
                                  (map_set toId nodeTo' (map_set fromId nodeFrom' (nodes g)))
                                = Some node /\ In toId (connections node)).
  { destruct (String.eqb fromId toId) eqn:E.
    - apply String.eqb_eq in E. subst toId.
      exists nodeTo'. split; [apply map_get_set_same |].
      cbn [connections nodeTo']. apply set_add_In. now left.
    - apply String.eqb_neq in E. exists nodeFrom'. split; [| exact Hin].
      rewrite map_get_set_other by exact E. apply map_get_set_same. }
  destruct Hfirst as (node1 & Hnode1 & Hin1).
  unfold nodeTo', nodeFrom' in *.
  rewrite (addConnection_present _ _ _ _ Hnode1 Hin1). cbn [bind].
  erewrite (addConnection_present toId fromId);
    [| apply map_get_set_same | apply set_add_In; now left].
  cbn [bind]. now rewrite store_both_again.
Qed.

Lemma addEdge_idempotent_witness :
  exists g1,
    addEdge "A" "B" (withBidirectional true (roadData 5 100)) twoNodes = Ok g1
    /\ addEdge "A" "B" (withBidirectional true (roadData 5 100)) g1 = Ok g1.
Proof.
  eexists. split; [reflexivity |].
  apply (addEdge_idempotent twoNodes). reflexivity.
Defined.

(** ** Load updates and the cost of an edge *)

(** A load update only touches the load and the current travel time of its
    edge: nodes, the order of the edge map, every other edge and the base
    attributes of the edge stay; a later update of the same edge makes an
    earlier one irrelevant; and updates of different edges commute. *)
Theorem updateEdgeLoad_frame
    (g g1 : RoadGraph) (fromId toId : string) (load : num) :
  updateEdgeLoad fromId toId load g = Ok g1 ->
  nodes g1 = nodes g
  /\ map_keys (edges g1) = map_keys (edges g)
  /\ (forall k, k <> edgeKey fromId toId ->
                map_get k (edges g1) = map_get k (edges g))
  /\ (exists edge edge1,
         map_get (edgeKey fromId toId) (edges g) = Some edge
         /\ map_get (edgeKey fromId toId) (edges g1) = Some edge1
         /\ edge_id edge1 = edge_id edge /\ from edge1 = from edge
         /\ to edge1 = to edge /\ distance edge1 = distance edge
         /\ travelTime edge1 = travelTime edge /\ capacity edge1 = capacity edge
         /\ speedLimit edge1 = speedLimit edge
         /\ bidirectional edge1 = bidirectional edge
         /\ currentLoad edge1 = load)
  /\ (forall later, updateEdgeLoad fromId toId later g1
                    = updateEdgeLoad fromId toId later g)
  /\ (forall fromId' toId' load',
         edgeKey fromId' toId' <> edgeKey fromId toId ->
         (g2 <- updateEdgeLoad fromId' toId' load' g ;;
          updateEdgeLoad fromId toId load g2)
         = updateEdgeLoad fromId' toId' load' g1).
Proof.
  unfold updateEdgeLoad.
  destruct (map_get (edgeKey fromId toId) (edges g)) as [edge |] eqn:Hget;
    [| discriminate].
  intros [= <-]. cbn [nodes edges].
  assert (Hhas : map_has (edgeKey fromId toId) (edges g) = true).
  { apply map_has_true. now exists edge. }
  split; [reflexivity |].
  split; [now apply map_keys_set_present |].
  split; [intros k Hk; now apply map_get_set_other |].
  split.
  { exists edge, (loadedEdge load edge).
    split; [reflexivity |]. split; [apply map_get_set_same |].
    now repeat split. }
  split.
  - intros later. rewrite map_get_set_same, map_set_twice. reflexivity.
  - intros fromId' toId' load' Hne.
    rewrite map_get_set_other by exact Hne.
    destruct (map_get (edgeKey fromId' toId') (edges g)) as [edge' |] eqn:Hget';
      [| reflexivity].
    cbn [bind nodes edges].
    rewrite map_get_set_other by (intros E; now apply Hne).
    rewrite Hget. f_equal. f_equal.
    apply map_set_comm; [intros E; now apply Hne | exact Hhas].
Qed.

Lemma updateEdgeLoad_frame_witness :
  exists g1,
    updateEdgeLoad "A" "B" (num_of_Z 30) triangleGraph = Ok g1
    /\ nodes g1 = nodes triangleGraph
    /\ map_keys (edges g1) = map_keys (edges triangleGraph)
    /\ updateEdgeLoad "A" "B" (num_of_Z 70) g1
       = updateEdgeLoad "A" "B" (num_of_Z 70) triangleGraph.
Proof.
  eexists. split; [reflexivity |].
  destruct (updateEdgeLoad_frame triangleGraph _ "A" "B" (num_of_Z 30) eq_refl)
    as (H1 & H2 & _ & _ & H5 & _).
  split; [exact H1 |]. split; [exact H2 |]. apply H5.
Defined.

Lemma congested_at_least_base (t c L : Qc) :
  (0 < t)%Qc -> (0 < c)%Qc -> (0 <= L)%Qc -> (t <= congested t c L)%Qc.
Proof.
  intros Ht Hc HL. destruct (Qcle_lt_or_eq _ _ HL) as [Hpos | <-].
  - apply Qclt_le_weak. rewrite <- (congested_zero t c Hc) at 1.
    now apply congested_mono.
  - rewrite congested_zero by exact Hc. apply Qcle_refl.
Qed.

Lemma congested_at_minus_capacity (t c : Qc) :
  (0 < c)%Qc -> congested t c (- c) = 0%Qc.
Proof. intros Hc. unfold congested. field. now apply Qc_pos_neq0. Qed.

(** The cost the search takes for an edge after a load update, for positive
    base travel time and capacity: with a non-negative load it is the
    congested travel time, at least the base travel time and so positive;
    at [load = -capacity] the congested travel time is 0, which [||] treats
    as missing, and the cost is the base travel time again. *)
Theorem search_cost_after_load
    (g : RoadGraph) (fromId toId : string) (edge : Edge) (t c L : Qc) :
  map_get (edgeKey fromId toId) (edges g) = Some edge ->
  travelTime edge = Fin t -> capacity edge = Fin c ->
  (0 < t)%Qc -> (0 < c)%Qc ->
  exists g' edge',
    updateEdgeLoad fromId toId (Fin L) g = Ok g'
    /\ map_get (edgeKey fromId toId) (edges g') = Some edge'
    /\ ((0 <= L)%Qc ->
        weightOf None edge' = Fin (congested t c L)
        /\ (t <= congested t c L)%Qc /\ (0 < congested t c L)%Qc)
    /\ (L = (- c)%Qc ->
        currentTravelTime edge' = Some (Fin 0%Qc)
        /\ weightOf None edge' = Fin t).
Proof.
  intros Hget Ht Hc Htpos Hcpos.
  exists {| nodes := nodes g;
            edges := map_set (edgeKey fromId toId) (loadedEdge (Fin L) edge) (edges g) |}.
  exists (loadedEdge (Fin L) edge).
  split; [now apply updateEdgeLoad_ok |].
  split; [cbn [edges]; apply map_get_set_same |].
  pose proof (currentTravelTime_loaded edge t c L Ht Hc Hcpos) as Hctt.
  split.
  - intros HL.
    pose proof (congested_at_least_base t c L Htpos Hcpos HL) as Hle.
    assert (Hpos : (0 < congested t c L)%Qc) by now apply Qclt_le_trans with t.
    split; [| now split].
    unfold weightOf, defaultWeight. rewrite Hctt. cbn [or_else truthy].
    now rewrite (proj2 (Qc_is_zero_false_iff _) (not_eq_sym (Qclt_not_eq _ _ Hpos))).
  - intros ->. rewrite congested_at_minus_capacity in Hctt by exact Hcpos.
    split; [exact Hctt |].
    unfold weightOf, defaultWeight. rewrite Hctt. cbn [or_else truthy].
    exact Ht.
Qed.

Lemma search_cost_after_load_witness :
  exists g' edge',
    updateEdgeLoad "A" "B" (num_of_Z (-100)) oneRoad = Ok g'
    /\ map_get (edgeKey "A" "B") (edges g') = Some edge'
    /\ currentTravelTime edge' = Some (Fin 0%Qc)
    /\ weightOf None edge' = num_of_Z 5.
Proof.
  destruct (search_cost_after_load oneRoad "A" "B"
              (edgeLiteral "A-B" "A" "B" (roadData 5 100))
              (Q2Qc (inject_Z 5)) (Q2Qc (inject_Z 100)) (Q2Qc (inject_Z (-100)))
              eq_refl eq_refl eq_refl eq_refl eq_refl)
    as (g' & edge' & Hup & Hget & _ & Hminus).
  exists g', edge'. split; [exact Hup |]. split; [exact Hget |].
  apply Hminus. apply Qc_is_canon. reflexivity.
Defined.

(** An explicit capacity of 0 is stored as it is (the default of 100 only
    fills a missing key), and on such an edge any positive load makes the
    current travel time, and with it the cost of the edge, infinite, while
    load 0 gives [NaN], which the cost function replaces by the base
    travel time.  The infinity has the sign of the zero, [Infinity] for
    [0] and [-Infinity] for [-0]; the statement leaves it open. *)
Theorem zero_capacity_edge
    (g : RoadGraph) (fromId toId : string) (time L : Qc) :
  map_has fromId (nodes g) = true ->
  map_has toId (nodes g) = true ->
  (0 < time)%Qc ->
  exists g1 edge,
    addEdge fromId toId (blockedRoad time) g = Ok g1
    /\ map_get (edgeKey fromId toId) (edges g1) = Some edge
    /\ capacity edge = n0
    /\ ((0 < L)%Qc ->
        exists g2 edge2 x,
          updateEdgeLoad fromId toId (Fin L) g1 = Ok g2
          /\ map_get (edgeKey fromId toId) (edges g2) = Some edge2
          /\ currentTravelTime edge2 = Some x
          /\ infinite x
          /\ weightOf None edge2 = x)
    /\ (exists g2 edge2,
           updateEdgeLoad fromId toId n0 g1 = Ok g2
           /\ map_get (edgeKey fromId toId) (edges g2) = Some edge2
           /\ currentTravelTime edge2 = Some NaN
           /\ weightOf None edge2 = Fin time).
Proof.
  intros Hf Ht Htime.
  destruct (proj1 (map_has_true _ _) Hf) as [nodeFrom Hfrom].
  set (edge := edgeLiteral (edgeKey fromId toId) fromId toId (blockedRoad time)).
  eexists. exists edge.
  split.
  { apply (addEdge_ok_one_way _ _ _ _ _ Hfrom Ht). discriminate. }
  cbn [edges].
  assert (Hget : map_get (edgeKey fromId toId)
                   (map_set (edgeKey fromId toId) edge (edges g)) = Some edge)
    by apply map_get_set_same.
  split; [exact Hget |]. split; [reflexivity |].
  assert (Hsign : (time ?= 0)%Qc = Gt) by exact (proj1 (Qcgt_alt time 0) Htime).
  split.
  - intros HL.
    assert (HLs : (L ?= 0)%Qc = Gt) by exact (proj1 (Qcgt_alt L 0) HL).
    do 2 eexists. exists PInf.
    split; [apply updateEdgeLoad_ok; exact Hget |].
    cbn [edges]. split; [apply map_get_set_same |].
    assert (Hctt : currentTravelTime (loadedEdge (Fin L) edge) = Some PInf).
    { unfold loadedEdge, edge. cbn. unfold Qc_is_zero. cbn.
      rewrite HLs. cbn. unfold scale_inf. now rewrite Hsign. }
    split; [exact Hctt |]. split; [now left |].
    unfold weightOf, defaultWeight. now rewrite Hctt.
  - do 2 eexists. split; [apply updateEdgeLoad_ok; exact Hget |].
    cbn [edges]. split; [apply map_get_set_same |].
    assert (Hctt : currentTravelTime (loadedEdge n0 edge) = Some NaN).
    { reflexivity. }
    split; [exact Hctt |].
    unfold weightOf, defaultWeight. now rewrite Hctt.
Qed.

Lemma zero_capacity_edge_witness :
  exists g1 g2 edge2,
    addEdge "A" "B" (blockedRoad (Q2Qc (inject_Z 5))) twoNodes = Ok g1
    /\ updateEdgeLoad "A" "B" (num_of_Z 1) g1 = Ok g2
    /\ map_get (edgeKey "A" "B") (edges g2) = Some edge2
    /\ infinite (weightOf None edge2).
Proof.
  destruct (zero_capacity_edge twoNodes "A" "B" (Q2Qc (inject_Z 5)) (Q2Qc (inject_Z 1))
              eq_refl eq_refl eq_refl)
    as (g1 & edge & Hadd & _ & _ & Hpos & _).
  destruct (Hpos eq_refl) as (g2 & edge2 & x & Hup & Hget & _ & Hinf & Hw).
  exists g1, g2, edge2. rewrite Hw. now repeat split.
Defined.

(** ** The search on a consistent graph *)

Section Stepwise.
Variable R : string -> string -> Prop.

Lemma stepwise_snoc l c :
  stepwise R l -> (forall a, last l c = a -> l <> [] -> R a c) ->
  stepwise R (l ++ [c]).
Proof.
  induction l as [| a rest IH]; intros Hl Hlast; [exact I |].
  destruct rest as [| b rest'].
  - simpl. split; [| exact I]. apply Hlast; [reflexivity | discriminate].
  - destruct Hl as [Hab Hrest]. cbn [app stepwise]. split; [exact Hab |].
    apply IH; [exact Hrest |].
    intros x Hx _. apply Hlast; [| discriminate]. exact Hx.
Qed.

Lemma last_nonempty_default (l : list string) x d d' :
  last (x :: l) d = last (x :: l) d'.
Proof.
  revert x. induction l as [| a rest IH]; intros x; [reflexivity |].
  change (last (a :: rest) d = last (a :: rest) d'). apply IH.
Qed.

Lemma stepwise_snoc_inv y pre c :
  stepwise R ((y :: pre) ++ [c]) ->
  stepwise R (y :: pre) /\ R (last (y :: pre) y) c.
Proof.
  revert y. induction pre as [| x rest IH]; intros y Hstep.
  - simpl in Hstep. destruct Hstep as [H _]. now split.
  - cbn [app] in Hstep. destruct Hstep as [Hyx Hrest].
    destruct (IH x Hrest) as [H1 H2]. split.
    + now split.
    + change (last (y :: x :: rest) y) with (last (x :: rest) y).
      now rewrite (last_nonempty_default rest x y x).
Qed.

Lemma stepwise_weaken (R' : string -> string -> Prop) l :
  (forall a b, R a b -> R' a b) -> stepwise R l -> stepwise R' l.
Proof.
  intros Himp. induction l as [| a rest IH]; [trivial |].
  destruct rest as [| b rest']; [trivial |].
  intros [Hab Hrest]. split; [now apply Himp | now apply IH].
Qed.
End Stepwise.

(** The node sequence that the path-building loop returns: it starts at the
    start, ends at the node the loop was entered with, follows [previous]
    from each node to the one before it, and never passes the start again. *)
Lemma buildPath_trail fuel previous startId :
  forall c acc result,
    buildPath fuel previous startId c acc = Ok result ->
    exists pre,
      result = (startId :: pre) ++ acc
      /\ last (startId :: pre) startId = c
      /\ Forall (fun x => x <> startId) pre
      /\ stepwise (fun a b => map_get b previous = Some a) (startId :: pre).
Proof.
  induction fuel as [| fuel IH]; intros c acc result H; simpl in H.
  - destruct (String.eqb c startId) eqn:E; [| discriminate].
    apply String.eqb_eq in E. injection H as <-. subst c.
    exists []. repeat split. constructor.
  - destruct (String.eqb c startId) eqn:E.
    + apply String.eqb_eq in E. injection H as <-. subst c.
      exists []. repeat split. constructor.
    + apply String.eqb_neq in E.
      destruct (map_get c previous) as [before |] eqn:Eget; [| discriminate].
      apply IH in H. destruct H as (pre & -> & Hlast & Hall & Hstep).
      exists (pre ++ [c]). split.
      { cbn [app]. now rewrite <- app_assoc. }
      split.
      { change (startId :: pre ++ [c]) with ((startId :: pre) ++ [c]).
        now rewrite last_last. }
      split.
      { apply Forall_app. split; [exact Hall | now constructor]. }
      change (startId :: pre ++ [c]) with ((startId :: pre) ++ [c]).
      apply stepwise_snoc; [exact Hstep |].
      intros a Ha _.
      pose proof (last_nonempty_default pre startId c startId) as Hb.
      rewrite Hb, Hlast in Ha. now subst a.
Qed.

(** Along a trail the number of [hops] to the start grows by one per node,
    so the trail has no repeated node. *)
Lemma trail_distinct previous startId pre :
  Forall (fun x => x <> startId) pre ->
  stepwise (fun a b => map_get b previous = Some a) (startId :: pre) ->
  NoDup (startId :: pre)
  /\ hops previous startId (last (startId :: pre) startId) (List.length pre)
  /\ forall x, In x (startId :: pre) ->
               exists n, (n <= List.length pre)%nat /\ hops previous startId x n.
Proof.
  induction pre as [| c pre IH] using rev_ind; intros Hall Hstep.
  - split; [constructor; [intros [] | constructor] |].
    split; [constructor |].
    intros x [<- | []]. exists 0%nat. split; [lia | constructor].
  - apply Forall_app in Hall. destruct Hall as [Hall Hc].
    inversion Hc as [| ? ? Hcne _]; subst.
    assert (Hparts : stepwise (fun a b => map_get b previous = Some a) (startId :: pre)
                     /\ map_get c previous = Some (last (startId :: pre) startId)).
    { apply (stepwise_snoc_inv (fun a b => map_get b previous = Some a)).
      exact Hstep. }
    destruct Hparts as [Hstep' Hget].
    destruct (IH Hall Hstep') as (Hnodup & Hhops & Hevery).
    assert (Hchops : hops previous startId c (S (List.length pre))).
    { now apply hops_back with (last (startId :: pre) startId). }
    change (startId :: pre ++ [c]) with ((startId :: pre) ++ [c]).
    rewrite last_last, length_app. cbn [List.length].
    replace (List.length pre + 1)%nat with (S (List.length pre)) by lia.
    split; [| split].
    + apply NoDup_app; [exact Hnodup | constructor; [intros [] | constructor] |].
      intros x Hx [Heq | []]. subst x.
      destruct (Hevery c Hx) as (n & Hn & Hxn).
      pose proof (hops_deterministic _ _ _ _ _ Hxn Hchops). lia.
    + exact Hchops.
    + intros x Hx. apply in_app_iff in Hx. destruct Hx as [Hx | [<- | []]].
      * destruct (Hevery x Hx) as (n & Hn & Hxn). exists n. split; [lia | exact Hxn].
      * exists (S (List.length pre)). split; [lia | exact Hchops].
Qed.

Lemma sumPath_edges es nodesOnPath :
  forall dist time acc d t out,
    sumPath es nodesOnPath dist time acc = Ok (d, t, out) ->
    exists added,
      out = acc ++ added
      /\ map (fun arc => map_get (edgeKey (fst arc) (snd arc)) es) (arcsOf nodesOnPath)
         = map Some added.
Proof.
  induction nodesOnPath as [| a rest IH]; intros dist time acc d t out H.
  - injection H as <- <- <-. exists []. now rewrite app_nil_r.
  - destruct rest as [| b rest'].
    + injection H as <- <- <-. exists []. now rewrite app_nil_r.
    + cbn [sumPath] in H.
      destruct (map_get (edgeKey a b) es) as [edge |] eqn:E; [| discriminate].
      apply IH in H. destruct H as (added & -> & Hmap).
      exists (edge :: added). split; [now rewrite <- app_assoc |].
      change (arcsOf (a :: b :: rest')) with ((a, b) :: arcsOf (b :: rest')).
      cbn [map fst snd]. now rewrite E, Hmap.
Qed.

(** A path that [findShortestPath] reports is a path of the graph: it leads
    from the start to a different end, visits no node twice, every step
    goes to a listed neighbor that is a node, and the reported edges are
    the edges stored for its steps, in order. *)
Theorem findShortestPath_path_valid
    (g : RoadGraph) (startId endId : string) (weightFn : option (Edge -> num))
    (p : PathInfo) :
  findShortestPath startId endId weightFn g = Ok (Found p) ->
  startId <> endId
  /\ hd_error (path p) = Some startId
  /\ last (path p) startId = endId
  /\ NoDup (path p)
  /\ stepwise (neighbor g) (path p)
  /\ map (storedEdge g) (arcsOf (path p)) = map Some (pathEdges p).
Proof.
  intros H.
  destruct (findShortestPath_first_hop _ _ _ _ _ H) as (Hs & He & Hne & _).
  split; [exact Hne |].
  unfold findShortestPath in H. rewrite Hs, He in H. cbn [negb orb] in H.
  pose proof (findShortestPath_search_state g startId endId (weightOf weightFn))
    as Hstate.
  destruct (initSearch startId (map_keys (nodes g))) as [distances unvisited].
  cbn [fst snd] in Hstate.
  bind_inv H. destruct a as [d' p'].
  destruct (map_get endId p') as [c |] eqn:Eend; [| discriminate].
  bind_inv H. rename a into nodesOnPath.
  bind_inv H. destruct a as [[dist time] es].
  injection H as <-. cbn [path pathEdges].
  apply buildPath_trail in E0.
  destruct E0 as (pre & -> & Hlast & Hall & Hstep).
  rewrite app_nil_r in *.
  destruct (trail_distinct _ _ _ Hall Hstep) as (Hnodup & _ & _).
  split; [reflexivity |]. split; [exact Hlast |]. split; [exact Hnodup |].
  split.
  - apply (stepwise_weaken (fun a b => map_get b p' = Some a)); [| exact Hstep].
    intros a b Hab.
    destruct (Hstate d' p' eq_refl b a Hab) as (_ & Hkey & node & Hnode & Hin).
    split; [now exists node | now apply map_keys_has].
  - apply sumPath_edges in E1. destruct E1 as (added & -> & Hmap). exact Hmap.
Qed.

Lemma findShortestPath_path_valid_witness :
  exists p,
    findShortestPath "A" "C" None triangleGraph = Ok (Found p)
    /\ NoDup (path p)
    /\ stepwise (neighbor triangleGraph) (path p).
Proof.
  eexists. split; [vm_compute; reflexivity |].
  destruct (findShortestPath_path_valid triangleGraph "A" "C" None _
              ltac:(vm_compute; reflexivity))
    as (_ & _ & _ & Hnodup & Hstep & _).
  now split.
Defined.

Lemma relax_returns getWeight es current unvisited neighbors :
  (forall n, In n neighbors -> map_has (edgeKey current n) es = true) ->
  forall distances previous,
    exists result,
      relax getWeight es current neighbors unvisited distances previous = Ok result.
Proof.
  induction neighbors as [| n rest IH]; intros Hedges d p.
  - now eexists.
  - assert (Hrest : forall x, In x rest -> map_has (edgeKey current x) es = true).
    { intros x Hx. apply Hedges. now right. }
    cbn [relax]. destruct (negb (set_has n unvisited)); [now apply IH |].
    destruct (proj1 (map_has_true _ _) (Hedges n (or_introl eq_refl))) as [edge ->].
    destruct (_ <? _)%num; now apply IH.
Qed.

Lemma mainLoop_returns getWeight g endId fuel :
  neighbors_have_edges g ->
  forall unvisited distances previous,
    (forall x, In x unvisited -> In x (map_keys (nodes g))) ->
    (List.length unvisited <= fuel)%nat ->
    exists result,
      mainLoop fuel getWeight g endId unvisited distances previous = Ok result.
Proof.
  intros Hedges. induction fuel as [| fuel IH]; intros u d p Hnodes Hlen.
  - destruct u; [now eexists | simpl in Hlen; lia].
  - destruct u as [| x rest]; [now eexists |].
    cbn [mainLoop].
    destruct (fst (findMin d (x :: rest))) as [current |] eqn:Emin; [| now eexists].
    destruct (String.eqb current endId); [now eexists |].
    pose proof (findMin_In _ _ _ Emin) as Hin.
    destruct (proj1 (map_has_true _ _)
                (proj2 (map_keys_has _ _) (Hnodes current Hin))) as [node Hnode].
    rewrite Hnode.
    pose proof (set_delete_lt current (x :: rest) Hin) as Hlt.
    set (u' := set_delete current (x :: rest)) in *.
    destruct (relax_returns getWeight (edges g) current u' (connections node)
                (fun n Hn => Hedges current node n Hnode Hn) d p)
      as [[d1 p1] ->].
    cbn [bind]. apply IH.
    + intros y Hy. apply Hnodes. now apply set_delete_In in Hy.
    + cbn [List.length] in Hlt, Hlen. lia.
Qed.

Lemma sumPath_returns es nodesOnPath :
  stepwise (fun a b => map_has (edgeKey a b) es = true) nodesOnPath ->
  forall dist time acc,
    exists result, sumPath es nodesOnPath dist time acc = Ok result.
Proof.
  induction nodesOnPath as [| a rest IH]; intros Hstep dist time acc.
  - now eexists.
  - destruct rest as [| b rest']; [now eexists |].
    destruct Hstep as [Hab Hrest]. cbn [sumPath].
    destruct (proj1 (map_has_true _ _) Hab) as [edge ->].
    now apply IH.
Qed.

(** On a graph in which every listed neighbor has its edge the search
    returns a result whenever both endpoints are nodes. *)
Lemma search_returns g startId endId weightFn :
  neighbors_have_edges g ->
  map_has startId (nodes g) = true ->
  map_has endId (nodes g) = true ->
  exists result, findShortestPath startId endId weightFn g = Ok result.
Proof.
  intros Hedges Hs He. unfold findShortestPath. rewrite Hs, He. cbn [negb orb].
  pose proof (findShortestPath_search_state g startId endId (weightOf weightFn))
    as Hstate.
  destruct (initSearch_spec startId (map_keys (nodes g))) as [_ Hu].
  destruct (initSearch startId (map_keys (nodes g))) as [distances unvisited].
  cbn [fst snd] in Hstate, Hu.
  destruct (mainLoop_returns (weightOf weightFn) g endId (List.length unvisited)
              Hedges unvisited distances [] (fun x Hx => proj1 (Hu x) Hx)
              (Nat.le_refl _)) as [[d' p'] Hloop].
  rewrite Hloop. cbn [bind].
  destruct (map_get endId p') as [c |] eqn:Eend; [| now eexists].
  destruct (Hstate d' p' Hloop endId c Eend) as [[k Hk] _].
  assert (Hhops : exists n, hops p' startId endId n).
  { destruct (String.eqb endId startId) eqn:E.
    - apply String.eqb_eq in E. subst. exists 0%nat. constructor.
    - apply String.eqb_neq in E. exists (S k). now apply hops_back with c. }
  destruct Hhops as [n Hn].
  destruct (buildPath_of_hops _ _ _ _ Hn (List.length p') []
              (hops_bounded _ _ _ _ Hn)) as [nodesOnPath Hbuild].
  rewrite Hbuild. cbn [bind].
  destruct (buildPath_trail _ _ _ _ _ _ Hbuild) as (pre & -> & _ & _ & Hstep).
  rewrite app_nil_r.
  destruct (sumPath_returns (edges g) (startId :: pre)) with (dist := n0)
    (time := n0) (acc := @nil Edge) as [[[dist time] es] ->].
  - apply (stepwise_weaken (fun a b => map_get b p' = Some a)); [| exact Hstep].
    intros a b Hab.
    destruct (Hstate d' p' Hloop b a Hab) as (_ & _ & node & Hnode & Hin).
    now apply (Hedges a node b).
  - cbn [bind]. now eexists.
Qed.

(** On every graph built from the empty graph by [addNode], [addEdge] and
    [updateEdgeLoad], [findShortestPath] throws exactly when the start or
    the end is not a node, with the error of its first check; for two
    nodes it always returns a result, found or not found. *)
Theorem findShortestPath_on_built_graph
    (ops : list operation) (startId endId : string)
    (weightFn : option (Edge -> num)) :
  (map_has startId (nodes (performAll emptyGraph ops)) = false
   \/ map_has endId (nodes (performAll emptyGraph ops)) = false ->
   findShortestPath startId endId weightFn (performAll emptyGraph ops)
   = Throw (Error ("Start or end node does not exist: "
                     ++ startId ++ ", " ++ endId)))
  /\ (map_has startId (nodes (performAll emptyGraph ops)) = true ->
      map_has endId (nodes (performAll emptyGraph ops)) = true ->
      exists result,
        findShortestPath startId endId weightFn (performAll emptyGraph ops)
        = Ok result).
Proof.
  split.
  - intros H. unfold findShortestPath.
    destruct H as [H | H]; rewrite H; cbn [negb orb]; [reflexivity |].
    now destruct (map_has startId (nodes (performAll emptyGraph ops))).
  - apply search_returns.
    apply neighbors_have_edges_performAll, neighbors_have_edges_empty.
Qed.

Lemma findShortestPath_on_built_graph_witness :
  findShortestPath "A" "Z" None (performAll emptyGraph triangleOps)
  = Throw (Error "Start or end node does not exist: A, Z")
  /\ exists result,
      findShortestPath "C" "A" None (performAll emptyGraph triangleOps) = Ok result.
Proof.
  split.
  - apply (proj1 (findShortestPath_on_built_graph triangleOps "A" "Z" None)).
    right. reflexivity.
  - apply (proj2 (findShortestPath_on_built_graph triangleOps "C" "A" None));
      reflexivity.
Defined.

(** ** The reported path is a cheapest one *)

Lemma getNum_set_same k v (d : jsmap num) : getNum k (map_set k v d) = v.
Proof. unfold getNum. now rewrite map_get_set_same. Qed.

Lemma getNum_set_other k k' v (d : jsmap num) :
  k <> k' -> getNum k (map_set k' v d) = getNum k d.
Proof. intros H. unfold getNum. now rewrite map_get_set_other. Qed.

Lemma Qc_ltb_false (a b : Qc) : Qc_ltb a b = false <-> (b <= a)%Qc.
Proof.
  split.
  - intros H. apply Qcnot_lt_le. intros Hlt. apply Qc_ltb_lt in Hlt. congruence.
  - intros H. destruct (Qc_ltb a b) eqn:E; [| reflexivity].
    apply Qc_ltb_lt in E. now apply Qcle_not_lt in H.
Qed.

Lemma label_le_refl a : label_le a a.
Proof. intros q ->. exists q. split; [reflexivity | apply Qcle_refl]. Qed.

Lemma label_le_trans a b c : label_le a b -> label_le b c -> label_le a c.
Proof.
  intros Hab Hbc qc Hc. destruct (Hbc qc Hc) as (qb & Hb & Hle).
  destruct (Hab qb Hb) as (qa & Ha & Hle'). exists qa.
  split; [exact Ha | now apply Qcle_trans with qb].
Qed.

(** The scan returns a node of least label, and no node only when every
    label is [Infinity]. *)
Lemma findMin_fold_least (d : jsmap num) (l : list string) :
  (forall y, In y l -> label (getNum y d)) ->
  forall st,
    label (snd st) ->
    (forall c, fst st = Some c -> snd st = getNum c d /\ exists q, snd st = Fin q) ->
    (fst st = None -> snd st = PInf) ->
    let st' :=
      fold_left
        (fun (st : option string * num) nodeId =>
           let x := getNum nodeId d in
           if (x <? snd st)%num then (Some nodeId, x) else st)
        l st in
    label_le (snd st') (snd st)
    /\ (forall y, In y l -> label_le (snd st') (getNum y d))
    /\ (forall c, fst st' = Some c ->
                  snd st' = getNum c d /\ exists q, snd st' = Fin q)
    /\ (fst st' = None -> snd st' = PInf).
Proof.
  induction l as [| y rest IH]; intros Hl st Hm Hsome Hnone; cbn [fold_left].
  - split; [apply label_le_refl |]. split; [contradiction |]. now split.
  - assert (Hrest : forall z, In z rest -> label (getNum z d)).
    { intros z Hz. apply Hl. now right. }
    pose proof (Hl y (or_introl eq_refl)) as Hy.
    destruct (getNum y d <? snd st)%num eqn:E.
    + assert (Hfin : exists qy, getNum y d = Fin qy).
      { destruct Hy as [Hy | Hy]; [| exact Hy].
        rewrite Hy, num_ltb_PInf_l in E. discriminate. }
      destruct Hfin as [qy Hqy].
      destruct (IH Hrest (Some y, getNum y d)) as (H1 & H2 & H3 & H4).
      * right. now exists qy.
      * intros c [= <-]. split; [reflexivity | now exists qy].
      * discriminate.
      * cbn [fst snd] in *.
        assert (Hstep : label_le (getNum y d) (snd st)).
        { intros qm Hqm. exists qy. split; [exact Hqy |].
          rewrite Hqy, Hqm in E. apply Qc_ltb_lt in E. now apply Qclt_le_weak. }
        split; [now apply label_le_trans with (getNum y d) |].
        split; [| now split].
        intros z [<- | Hz]; [exact H1 | now apply H2].
    + destruct (IH Hrest st Hm Hsome Hnone) as (H1 & H2 & H3 & H4).
      split; [exact H1 |]. split; [| now split].
      intros z [<- | Hz]; [| now apply H2].
      apply label_le_trans with (snd st); [exact H1 |].
      intros qy Hqy. rewrite Hqy in E.
      destruct Hm as [Hm | [qm Hm]]; rewrite Hm in E.
      * discriminate.
      * exists qm. split; [exact Hm |]. now apply Qc_ltb_false in E.
Qed.

Lemma findMin_least (d : jsmap num) (u : jsset) :
  (forall y, In y u -> label (getNum y d)) ->
  (forall c, fst (findMin d u) = Some c ->
             exists qc, getNum c d = Fin qc
                        /\ forall y qy, In y u -> getNum y d = Fin qy -> (qc <= qy)%Qc)
  /\ (fst (findMin d u) = None -> forall y, In y u -> getNum y d = PInf).
Proof.
  intros Hl.
  destruct (findMin_fold_least d u Hl (None, PInf)) as (_ & H2 & H3 & H4).
  { now left. } { discriminate. } { reflexivity. }
  fold (findMin d u) in H2, H3, H4. split.
  - intros c Hc. destruct (H3 c Hc) as (Heq & qc & Hqc).
    exists qc. split; [now rewrite <- Heq |].
    intros y qy Hy Hqy. destruct (H2 y Hy qy Hqy) as (qm & Hqm & Hle).
    rewrite Hqc in Hqm. now injection Hqm as ->.
  - intros Hnone y Hy. specialize (H4 Hnone).
    destruct (Hl y Hy) as [Hinf | [qy Hqy]]; [exact Hinf |].
    destruct (H2 y Hy qy Hqy) as (qm & Hqm & _). congruence.
Qed.

Section Labels.
Variable g : RoadGraph.
Variable s : string.
Hypothesis costs : nonneg_costs g.
Hypothesis start_is_node : In s (map_keys (nodes g)).

Lemma stored_cost a b edge :
  map_get (edgeKey a b) (edges g) = Some edge ->
  defaultWeight edge = Fin (arcCost g a b) /\ (0 <= arcCost g a b)%Qc.
Proof.
  intros H. destruct (costs _ _ H) as (q & Hq & Hpos).
  unfold arcCost. rewrite H, Hq. now split.
Qed.

Lemma arc_cost_nonneg a b : arc g a b -> (0 <= arcCost g a b)%Qc.
Proof.
  intros [_ Hhas]. apply map_has_true in Hhas. destruct Hhas as [edge Hedge].
  now apply (stored_cost a b edge).
Qed.

Lemma walkTo_node y q : walkTo g s y q -> In y (map_keys (nodes g)).
Proof.
  induction 1 as [| x y q _ _ [[_ Hy] _]]; [exact start_is_node |].
  now apply map_keys_has.
Qed.

Lemma Qc_le_add_nonneg (a b c : Qc) : (a <= b)%Qc -> (0 <= c)%Qc -> (a <= b + c)%Qc.
Proof.
  intros Hab Hc. rewrite <- (Qcplus_0_r a). now apply Qcplus_le_compat.
Qed.

(** No walk to an unvisited node is cheaper than the least label among the
    unvisited nodes. *)
Lemma unvisited_walks_bounded u d p qc :
  distInv g s (fun _ _ => False) u d p ->
  (forall y qy, In y u -> getNum y d = Fin qy -> (qc <= qy)%Qc) ->
  forall y q, walkTo g s y q -> In y u -> (qc <= q)%Qc.
Proof.
  intros Hinv Hmin y q Hwalk.
  induction Hwalk as [| x y q Hwalk IH Harc]; intros Hy.
  - apply (Hmin s 0%Qc Hy). apply (di_start _ _ _ _ _ _ Hinv).
  - pose proof (arc_cost_nonneg _ _ Harc) as Hcost.
    destruct (in_dec string_dec x u) as [Hx | Hx].
    + apply Qc_le_add_nonneg; [now apply IH | exact Hcost].
    + pose proof (walkTo_node _ _ Hwalk) as Hxnode.
      destruct (di_visited_finite _ _ _ _ _ _ Hinv x Hxnode Hx) as [qx Hqx].
      pose proof (di_lower _ _ _ _ _ _ Hinv x qx Hxnode Hx Hqx q Hwalk) as Hlow.
      destruct (di_relaxed _ _ _ _ _ _ Hinv x y qx Hxnode Hx Hy Harc Hqx)
        as [[] | (qy & Hqy & Hle)].
      apply Qcle_trans with qy; [now apply (Hmin y) |].
      apply Qcle_trans with (qx + arcCost g x y)%Qc; [exact Hle |].
      apply Qcplus_le_compat; [exact Hlow | apply Qcle_refl].
Qed.

Lemma distInv_todo (todo todo' : string -> string -> Prop) u d p :
  (forall x n, todo x n -> todo' x n) ->
  distInv g s todo u d p -> distInv g s todo' u d p.
Proof.
  intros Himp [H1 H2 H3 H4 H5 H6 H7 H8 H9].
  constructor; try assumption.
  intros x n qx Hx Hxu Hn Harc Hqx.
  destruct (H9 x n qx Hx Hxu Hn Harc Hqx) as [H | H]; [left; now apply Himp | now right].
Qed.

(** Taking the node of least label out of the unvisited set. *)
Lemma distInv_visit u d p current node :
  distInv g s (fun _ _ => False) u d p ->
  fst (findMin d u) = Some current ->
  map_get current (nodes g) = Some node ->
  distInv g s (fun x n => x = current /\ In n (connections node))
    (set_delete current u) d p
  /\ ~ In s (set_delete current u)
  /\ (forall q, walkTo g s current q ->
                exists qc, getNum current d = Fin qc /\ (qc <= q)%Qc).
Proof.
  intros Hinv Hmin Hnode.
  pose proof (findMin_In _ _ _ Hmin) as Hin.
  assert (Hlabels : forall y, In y u -> label (getNum y d)).
  { intros y Hy. apply (di_shape _ _ _ _ _ _ Hinv), (di_nodes _ _ _ _ _ _ Hinv), Hy. }
  destruct (proj1 (findMin_least d u Hlabels) current Hmin) as (qc & Hqc & Hleast).
  pose proof (unvisited_walks_bounded u d p qc Hinv Hleast) as Hbound.
  assert (Hs : ~ In s (set_delete current u)).
  { intros Hs. apply set_delete_In in Hs. destruct Hs as [Hs Hne].
    pose proof (di_first _ _ _ _ _ _ Hinv Hs current
                  (di_nodes _ _ _ _ _ _ Hinv current Hin) (not_eq_sym Hne)) as Hinf.
    congruence. }
  split; [| split; [exact Hs |]].
  - destruct Hinv as [H1 H2 H3 H4 H5 H6 H7 H8 H9]. constructor.
    + intros x Hx. apply H1. now apply set_delete_In in Hx.
    + exact H2.
    + exact H3.
    + intros Hs'. contradiction.
    + intros n c Hc. destruct (H5 n c Hc) as (Ha & Hb & Hrest).
      split; [exact Ha |]. split; [| exact Hrest].
      intros Hcu. apply Hb. now apply set_delete_In in Hcu.
    + exact H6.
    + intros v Hv Hvu. destruct (string_dec v current) as [-> | Hne].
      * now exists qc.
      * apply H7; [exact Hv |]. intros Hvu'. apply Hvu.
        apply set_delete_In. now split.
    + intros v qv Hv Hvu Hqv q Hwalk. destruct (string_dec v current) as [-> | Hne].
      * rewrite Hqc in Hqv. injection Hqv as <-. now apply (Hbound current).
      * apply (H8 v qv Hv); [| exact Hqv | exact Hwalk].
        intros Hvu'. apply Hvu. apply set_delete_In. now split.
    + intros x n qx Hx Hxu Hn Harc Hqx. apply set_delete_In in Hn.
      destruct Hn as [Hn Hnne].
      destruct (string_dec x current) as [-> | Hne].
      * left. split; [reflexivity |].
        destruct Harc as [[(node' & Hnode' & Hin') _] _].
        rewrite Hnode in Hnode'. now injection Hnode' as <-.
      * right.
        assert (Hxu' : ~ In x u).
        { intros Hxu'. apply Hxu. apply set_delete_In. now split. }
        destruct (H9 x n qx Hx Hxu' Hn Harc Hqx) as [[] | H]. exact H.
  - intros q Hwalk. exists qc. split; [exact Hqc | now apply (Hbound current)].
Qed.
End Labels.

Section Relaxation.
Variable g : RoadGraph.
Variable s : string.
Hypothesis costs : nonneg_costs g.
Variable u : jsset.
Variable current : string.
Variable node : Node.
Hypothesis current_node : map_get current (nodes g) = Some node.
Hypothesis current_is_node : In current (map_keys (nodes g)).
Hypothesis current_visited : ~ In current u.
Hypothesis start_visited : ~ In s u.

(** Relaxing the steps out of the node just visited settles every one of
    them. *)
Lemma distInv_relax neighbors :
  incl neighbors (connections node) ->
  forall d p d' p',
    distInv g s (fun x n => x = current /\ In n neighbors) u d p ->
    relax defaultWeight (edges g) current neighbors u d p = Ok (d', p') ->
    distInv g s (fun _ _ => False) u d' p'.
Proof.
  induction neighbors as [| n rest IH]; intros Hincl d p d' p' Hinv H.
  - injection H as <- <-.
    apply (distInv_todo g s (fun x n => x = current /\ In n [])); [| exact Hinv].
    intros x n [_ []].
  - assert (Hrest : incl rest (connections node)).
    { intros x Hx. apply Hincl. now right. }
    cbn [relax] in H.
    destruct (set_has n u) eqn:Eu; cbn [negb] in H.
    2:{ apply (IH Hrest d p); [| exact H].
        destruct Hinv as [H1 H2 H3 H4 H5 H6 H7 H8 H9]. constructor; try assumption.
        intros x m qx Hx Hxu Hm Harc Hqx.
        destruct (H9 x m qx Hx Hxu Hm Harc Hqx) as [[-> [<- | Hin]] | Hb].
        - apply set_has_In in Hm. congruence.
        - left. now split.
        - now right. }
    apply set_has_In in Eu.
    destruct (map_get (edgeKey current n) (edges g)) as [edge |] eqn:Eedge;
      [| discriminate].
    destruct (stored_cost g costs current n edge Eedge) as [Hw Hwpos].
    pose proof (di_nodes _ _ _ _ _ _ Hinv n Eu) as Hnnode.
    assert (Harc : arc g current n).
    { split; [split |].
      - exists node. split; [exact current_node | apply Hincl; now left].
      - now apply map_keys_has.
      - apply map_has_true. now exists edge. }
    destruct (di_visited_finite _ _ _ _ _ _ Hinv current current_is_node current_visited)
      as [qc Hqc].
    assert (Hns : n <> s) by (intros ->; contradiction).
    assert (Hnc : n <> current) by (intros ->; contradiction).
    rewrite Hw, Hqc in H. cbn [num_add] in H.
    destruct (Fin (qc + arcCost g current n) <? getNum n d)%num eqn:Elt.
    + (* the label of [n] is lowered *)
      apply (IH Hrest _ _ _ _) in H; [exact H |].
      destruct Hinv as [H1 H2 H3 H4 H5 H6 H7 H8 H9]. constructor.
      * exact H1.
      * rewrite getNum_set_other by (intros E; now apply Hns). exact H2.
      * intros m Hm. destruct (string_dec m n) as [-> | Hne].
        -- rewrite getNum_set_same. right. now eexists.
        -- rewrite getNum_set_other by exact Hne. now apply H3.
      * intros Hs. contradiction.
      * intros m c Hc. destruct (string_dec m n) as [-> | Hne].
        -- rewrite map_get_set_same in Hc. injection Hc as <-.
           split; [exact current_is_node |]. split; [exact current_visited |].
           split; [exact Harc |]. exists qc.
           rewrite getNum_set_other by (intros E; now apply Hnc).
           split; [exact Hqc | apply getNum_set_same].
        -- rewrite map_get_set_other in Hc by exact Hne.
           destruct (H5 m c Hc) as (Ha & Hb & Hc' & qx & Hqx & Hqm).
           split; [exact Ha |]. split; [exact Hb |]. split; [exact Hc' |].
           exists qx. rewrite getNum_set_other by (intros ->; contradiction).
           rewrite getNum_set_other by exact Hne. now split.
      * intros m Hm Hms Hfin. destruct (string_dec m n) as [-> | Hne].
        -- exists current. apply map_get_set_same.
        -- rewrite map_get_set_other by exact Hne.
           rewrite getNum_set_other in Hfin by exact Hne. now apply H6.
      * intros v Hv Hvu. rewrite getNum_set_other by (intros ->; contradiction).
        now apply H7.
      * intros v qv Hv Hvu Hqv.
        rewrite getNum_set_other in Hqv by (intros ->; contradiction).
        now apply (H8 v qv).
      * intros x m qx Hx Hxu Hm Harc' Hqx.
        rewrite getNum_set_other in Hqx by (intros ->; contradiction).
        destruct (string_dec m n) as [-> | Hne].
        -- right. exists (qc + arcCost g current n)%Qc.
           split; [apply getNum_set_same |].
           destruct (H9 x n qx Hx Hxu Hm Harc' Hqx) as [[-> _] | (qn & Hqn & Hle)].
           ++ rewrite Hqc in Hqx. injection Hqx as <-. apply Qcle_refl.
           ++ rewrite Hqn in Elt. apply Qc_ltb_lt in Elt.
              apply Qcle_trans with qn; [now apply Qclt_le_weak | exact Hle].
        -- rewrite getNum_set_other by exact Hne.
           destruct (H9 x m qx Hx Hxu Hm Harc' Hqx) as [[-> [<- | Hin]] | Hb].
           ++ congruence.
           ++ left. now split.
           ++ now right.
    + (* the label of [n] stays *)
      apply (IH Hrest d p); [| exact H].
      assert (Hqn : exists qn, getNum n d = Fin qn
                               /\ (qn <= qc + arcCost g current n)%Qc).
      { destruct (di_shape _ _ _ _ _ _ Hinv n Hnnode) as [Hinf | [qn Hqn]].
        - rewrite Hinf in Elt. discriminate.
        - exists qn. split; [exact Hqn |].
          rewrite Hqn in Elt. now apply Qc_ltb_false in Elt. }
      destruct Hinv as [H1 H2 H3 H4 H5 H6 H7 H8 H9]. constructor; try assumption.
      intros x m qx Hx Hxu Hm Harc' Hqx.
      destruct (H9 x m qx Hx Hxu Hm Harc' Hqx) as [[-> [<- | Hin]] | Hb].
      * right. rewrite Hqc in Hqx. injection Hqx as <-. exact Hqn.
      * left. now split.
      * now right.
Qed.
End Relaxation.

Section Optimality.
Variable g : RoadGraph.
Variable s : string.
Hypothesis costs : nonneg_costs g.
Hypothesis start_is_node : In s (map_keys (nodes g)).

(** The labels when the main loop is left, and why it was left. *)
Lemma distInv_mainLoop endId fuel :
  forall u d p d' p',
    distInv g s (fun _ _ => False) u d p ->
    mainLoop fuel defaultWeight g endId u d p = Ok (d', p') ->
    exists u',
      distInv g s (fun _ _ => False) u' d' p'
      /\ (u' = [] \/ fst (findMin d' u') = None \/ fst (findMin d' u') = Some endId).
Proof.
  induction fuel as [| fuel IH]; intros u d p d' p' Hinv H.
  - destruct u; [| discriminate]. injection H as <- <-. exists []. now split; [| left].
  - destruct u as [| x rest].
    { injection H as <- <-. exists []. now split; [| left]. }
    cbn [mainLoop] in H.
    destruct (fst (findMin d (x :: rest))) as [current |] eqn:Emin.
    2:{ injection H as <- <-. exists (x :: rest). split; [exact Hinv |]. now right; left. }
    destruct (String.eqb current endId) eqn:Eend.
    { injection H as <- <-. apply String.eqb_eq in Eend. subst current.
      exists (x :: rest). split; [exact Hinv |]. now right; right. }
    destruct (map_get current (nodes g)) as [node |] eqn:Enode; [| discriminate].
    destruct (distInv_visit g s costs start_is_node _ _ _ _ _ Hinv Emin Enode)
      as (Hvisit & Hs & _).
    pose proof (findMin_In _ _ _ Emin) as Hin.
    set (u' := set_delete current (x :: rest)) in *.
    bind_inv H. destruct a as [d1 p1].
    apply (IH u' d1 p1); [| exact H].
    apply (distInv_relax g s costs u' current node Enode) with
      (neighbors := connections node) (d := d) (p := p).
    + apply (di_nodes _ _ _ _ _ _ Hinv). exact Hin.
    + intros Hc. apply set_delete_In in Hc. now destruct Hc.
    + exact Hs.
    + apply incl_refl.
    + exact Hvisit.
    + exact E.
Qed.

Lemma distInv_initial :
  distInv g s (fun _ _ => False)
    (snd (initSearch s (map_keys (nodes g))))
    (fst (initSearch s (map_keys (nodes g)))) [].
Proof.
  destruct (initSearch_spec s (map_keys (nodes g))) as [Hd Hu].
  assert (Hval : forall n, In n (map_keys (nodes g)) ->
                           getNum n (fst (initSearch s (map_keys (nodes g))))
                           = if String.eqb n s then n0 else PInf).
  { intros n Hn. apply Hd. now apply Hu. }
  constructor.
  - intros x Hx. now apply Hu.
  - rewrite (Hval s start_is_node), String.eqb_refl. reflexivity.
  - intros n Hn. rewrite (Hval n Hn).
    destruct (String.eqb n s); [right; now eexists | now left].
  - intros _ n Hn Hne. rewrite (Hval n Hn).
    apply String.eqb_neq in Hne. now rewrite Hne.
  - discriminate.
  - intros n Hn Hne [q Hq]. rewrite (Hval n Hn) in Hq.
    apply String.eqb_neq in Hne. rewrite Hne in Hq. discriminate.
  - intros v Hv Hvu. contradiction Hvu. now apply Hu.
  - intros v qv Hv Hvu. contradiction Hvu. now apply Hu.
  - intros x n qx Hx Hxu. contradiction Hxu. now apply Hu.
Qed.

(** Once the end has a predecessor, no walk to it is cheaper than its
    label. *)
Lemma end_label_least endId u' d' p' c :
  distInv g s (fun _ _ => False) u' d' p' ->
  u' = [] \/ fst (findMin d' u') = None \/ fst (findMin d' u') = Some endId ->
  map_get endId p' = Some c ->
  exists qe, getNum endId d' = Fin qe
             /\ forall q, walkTo g s endId q -> (qe <= q)%Qc.
Proof.
  intros Hinv Hexit Hc.
  destruct (di_prev _ _ _ _ _ _ Hinv endId c Hc) as (_ & _ & Harc & qc & _ & Hqe).
  exists (qc + arcCost g c endId)%Qc. split; [exact Hqe |].
  assert (Hnode : In endId (map_keys (nodes g))).
  { destruct Harc as [[_ H] _]. now apply map_keys_has. }
  assert (Hlabels : forall y, In y u' -> label (getNum y d')).
  { intros y Hy. apply (di_shape _ _ _ _ _ _ Hinv), (di_nodes _ _ _ _ _ _ Hinv), Hy. }
  destruct (in_dec string_dec endId u') as [Hin | Hout].
  - destruct Hexit as [-> | [Hnone | Hsome]].
    + contradiction.
    + pose proof (proj2 (findMin_least d' u' Hlabels) Hnone endId Hin). congruence.
    + destruct (proj1 (findMin_least d' u' Hlabels) endId Hsome) as (qm & Hqm & Hleast).
      rewrite Hqe in Hqm. injection Hqm as <-.
      intros q Hwalk.
      now apply (unvisited_walks_bounded g s costs start_is_node u' d' p' _ Hinv Hleast
                   endId q Hwalk).
  - intros q Hwalk. now apply (di_lower _ _ _ _ _ _ Hinv endId _ Hnode Hout Hqe).
Qed.

(** Without a predecessor for the end, no walk reaches it. *)
Lemma end_unreachable endId u' d' p' :
  distInv g s (fun _ _ => False) u' d' p' ->
  u' = [] \/ fst (findMin d' u') = None \/ fst (findMin d' u') = Some endId ->
  In endId (map_keys (nodes g)) -> endId <> s ->
  map_get endId p' = None ->
  forall q, ~ walkTo g s endId q.
Proof.
  intros Hinv Hexit Hnode Hne Hnone.
  assert (Hlabels : forall y, In y u' -> label (getNum y d')).
  { intros y Hy. apply (di_shape _ _ _ _ _ _ Hinv), (di_nodes _ _ _ _ _ _ Hinv), Hy. }
  assert (Hinf : getNum endId d' = PInf).
  { destruct (di_shape _ _ _ _ _ _ Hinv endId Hnode) as [H | Hfin]; [exact H |].
    destruct (di_has_prev _ _ _ _ _ _ Hinv endId Hnode Hne Hfin) as [c Hc]. congruence. }
  assert (Hin : In endId u').
  { destruct (in_dec string_dec endId u') as [H | H]; [exact H |].
    destruct (di_visited_finite _ _ _ _ _ _ Hinv endId Hnode H) as [q Hq]. congruence. }
  assert (Hall : forall y, In y u' -> getNum y d' = PInf).
  { destruct Hexit as [-> | [Hmin | Hmin]].
    - contradiction.
    - exact (proj2 (findMin_least d' u' Hlabels) Hmin).
    - destruct (proj1 (findMin_least d' u' Hlabels) endId Hmin) as (qm & Hqm & _).
      congruence. }
  assert (Hs : ~ In s u').
  { intros Hs. pose proof (Hall s Hs) as H.
    rewrite (di_start _ _ _ _ _ _ Hinv) in H. discriminate. }
  assert (Hwalks : forall y q, walkTo g s y q -> ~ In y u').
  { intros y q Hwalk. induction Hwalk as [| x y q Hwalk IH Harc]; [exact Hs |].
    intros Hy.
    pose proof (walkTo_node g s start_is_node _ _ Hwalk) as Hx.
    destruct (di_visited_finite _ _ _ _ _ _ Hinv x Hx IH) as [qx Hqx].
    destruct (di_relaxed _ _ _ _ _ _ Hinv x y qx Hx IH Hy Harc Hqx)
      as [[] | (qy & Hqy & _)].
    rewrite (Hall y Hy) in Hqy. discriminate. }
  intros q Hwalk. now apply (Hwalks endId q Hwalk).
Qed.

(** Along a trail the travel times add up to the label of its last node,
    and the trail is a walk of that cost. *)
Lemma trail_cost u' d' p' :
  distInv g s (fun _ _ => False) u' d' p' ->
  forall rest a qa dist acc result,
    stepwise (fun x y => map_get y p' = Some x) (a :: rest) ->
    getNum a d' = Fin qa -> walkTo g s a qa ->
    sumPath (edges g) (a :: rest) dist (Fin qa) acc = Ok result ->
    exists qe,
      snd (fst result) = Fin qe
      /\ getNum (last (a :: rest) a) d' = Fin qe
      /\ walkTo g s (last (a :: rest) a) qe.
Proof.
  intros Hinv. induction rest as [| b rest IH];
    intros a qa dist acc result Hstep Hqa Hwalk H.
  - injection H as <-. exists qa. now repeat split.
  - destruct Hstep as [Hab Hrest]. cbn [sumPath] in H.
    destruct (map_get (edgeKey a b) (edges g)) as [edge |] eqn:Eedge; [| discriminate].
    destruct (stored_cost g costs a b edge Eedge) as [Hw _].
    destruct (di_prev _ _ _ _ _ _ Hinv b a Hab) as (_ & _ & Harc & qc & Hqc & Hqb).
    rewrite Hqa in Hqc. injection Hqc as <-.
    rewrite Hw in H. cbn [num_add] in H.
    destruct (IH b (qa + arcCost g a b)%Qc _ _ _ Hrest Hqb
                (walk_step g s a b qa Hwalk Harc) H) as (qe & H1 & H2 & H3).
    exists qe. change (last (a :: b :: rest) a) with (last (b :: rest) a).
    rewrite (last_nonempty_default rest b a b). now repeat split.
Qed.
End Optimality.

(** What the search leaves behind, for the default cost. *)
Lemma search_labels g startId endId d' p' :
  nonneg_costs g ->
  map_has startId (nodes g) = true ->
  mainLoop (List.length (snd (initSearch startId (map_keys (nodes g)))))
    defaultWeight g endId (snd (initSearch startId (map_keys (nodes g))))
    (fst (initSearch startId (map_keys (nodes g)))) [] = Ok (d', p') ->
  exists u',
    distInv g startId (fun _ _ => False) u' d' p'
    /\ (u' = [] \/ fst (findMin d' u') = None \/ fst (findMin d' u') = Some endId).
Proof.
  intros Hcosts Hs H. apply map_keys_has in Hs.
  exact (distInv_mainLoop g startId Hcosts Hs endId _ _ _ _ _ _
           (distInv_initial g startId Hs) H).
Qed.

(** When every stored edge has a finite non-negative cost, a path that
    [findShortestPath] reports with the default cost function is a cheapest
    one: its travel time is the cost of a walk from start to end, and no
    walk from start to end costs less. *)
Theorem findShortestPath_cheapest
    (g : RoadGraph) (startId endId : string) (p : PathInfo) :
  nonneg_costs g ->
  findShortestPath startId endId None g = Ok (Found p) ->
  exists best,
    totalTravelTime p = Fin best
    /\ walkTo g startId endId best
    /\ forall q, walkTo g startId endId q -> (best <= q)%Qc.
Proof.
  intros Hcosts H.
  destruct (findShortestPath_first_hop _ _ _ _ _ H) as (Hs & He & Hne & _).
  pose proof (proj1 (map_keys_has _ _) Hs) as Hsnode.
  unfold findShortestPath in H. rewrite Hs, He in H. cbn [negb orb weightOf] in H.
  pose proof (search_labels g startId endId) as Hlabels.
  destruct (initSearch startId (map_keys (nodes g))) as [distances unvisited].
  cbn [fst snd] in Hlabels.
  bind_inv H. destruct a as [d' p'].
  destruct (Hlabels d' p' Hcosts Hs eq_refl) as (u' & Hinv & Hexit).
  destruct (map_get endId p') as [c |] eqn:Eend; [| discriminate].
  destruct (end_label_least g startId Hcosts Hsnode endId u' d' p' c Hinv Hexit Eend)
    as (qe & Hqe & Hleast).
  bind_inv H. rename a into nodesOnPath.
  bind_inv H. destruct a as [[dist time] es].
  injection H as <-. cbn [totalTravelTime].
  destruct (buildPath_trail _ _ _ _ _ _ E0) as (pre & -> & Hlast & _ & Hstep).
  rewrite app_nil_r in E1.
  destruct (trail_cost g startId Hcosts u' d' p' Hinv pre startId 0%Qc n0 [] _
              Hstep (di_start _ _ _ _ _ _ Hinv) (walk_start g startId) E1)
    as (qt & Htime & Hlabel & Hwalk).
  cbn [fst snd] in Htime. rewrite Hlast in Hlabel, Hwalk.
  rewrite Hqe in Hlabel. injection Hlabel as <-.
  exists qe. now repeat split.
Qed.

Lemma nonneg_costsb_sound g : nonneg_costsb g = true -> nonneg_costs g.
Proof.
  unfold nonneg_costsb, nonneg_costs. intros H key edge.
  induction (edges g) as [| [k v] rest IH]; [discriminate |].
  cbn [forallb snd] in H. apply andb_prop in H. destruct H as [Hv Hrest].
  cbn [map_get]. destruct (String.eqb key k).
  - intros Heq. injection Heq as <-.
    destruct (defaultWeight v) as [q | | |]; try discriminate Hv.
    exists q. split; [reflexivity |].
    apply Qc_ltb_false. now destruct (Qc_ltb q 0%Qc).
  - now apply IH.
Qed.

Lemma triangle_nonneg_costs : nonneg_costs triangleGraph.
Proof. apply nonneg_costsb_sound. vm_compute. reflexivity. Qed.

Lemma findShortestPath_cheapest_witness :
  exists p best,
    findShortestPath "A" "C" None triangleGraph = Ok (Found p)
    /\ totalTravelTime p = Fin best
    /\ forall q, walkTo triangleGraph "A" "C" q -> (best <= q)%Qc.
Proof.
  eexists.
  destruct (findShortestPath_cheapest triangleGraph "A" "C" _ triangle_nonneg_costs
              ltac:(vm_compute; reflexivity)) as (best & H1 & _ & H3).
  exists best. split; [vm_compute; reflexivity |]. now split.
Defined.

(** Under the same condition on the costs, and with all costs together
    within the range of doubles so that no sum along a path overflows,
    "not found" for two different nodes means that no walk leads from the
    start to the end. *)
Theorem findShortestPath_not_found_unreachable
    (g : RoadGraph) (startId endId : string) :
  nonneg_costs g ->
  costs_in_range g ->
  startId <> endId ->
  findShortestPath startId endId None g = Ok NotFound ->
  forall q, ~ walkTo g startId endId q.
Proof.
  intros Hcosts _ Hne H.
  assert (Hhas : map_has startId (nodes g) = true /\ map_has endId (nodes g) = true).
  { unfold findShortestPath in H.
    destruct (map_has startId (nodes g)), (map_has endId (nodes g));
      simpl in H; try discriminate H. now split. }
  destruct Hhas as [Hs He].
  pose proof (proj1 (map_keys_has _ _) Hs) as Hsnode.
  unfold findShortestPath in H. rewrite Hs, He in H. cbn [negb orb weightOf] in H.
  pose proof (search_labels g startId endId) as Hlabels.
  destruct (initSearch startId (map_keys (nodes g))) as [distances unvisited].
  cbn [fst snd] in Hlabels.
  bind_inv H. destruct a as [d' p'].
  destruct (Hlabels d' p' Hcosts Hs eq_refl) as (u' & Hinv & Hexit).
  destruct (map_get endId p') as [c |] eqn:Eend.
  - bind_inv H. bind_inv H. destruct a0 as [[dist time] es]. discriminate H.
  - apply (end_unreachable g startId Hsnode endId u' d' p' Hinv Hexit);
      [now apply map_keys_has | now apply not_eq_sym | exact Eend].
Qed.

Lemma findShortestPath_not_found_unreachable_witness :
  findShortestPath "C" "A" None triangleGraph = Ok NotFound
  /\ forall q, ~ walkTo triangleGraph "C" "A" q.
Proof.
  split; [vm_compute; reflexivity |].
  apply (findShortestPath_not_found_unreachable triangleGraph "C" "A"
           triangle_nonneg_costs).
  - unfold costs_in_range, Qcle, Qle. vm_compute. discriminate.
  - discriminate.
  - vm_compute. reflexivity.
Defined.

(** ** What the alternative-path calls can return *)

Lemma map_keys_set_nodup {V : Type} (m : jsmap V) k v :
  NoDup (map_keys m) -> NoDup (map_keys (map_set k v m)).
Proof.
  intros H. destruct (map_has k m) eqn:E.
  - now rewrite map_keys_set_present.
  - rewrite (map_set_fresh m k v E). unfold map_keys. rewrite map_app.
    apply NoDup_app; [exact H | repeat constructor; intros [] |].
    intros x Hx [Heq | []]. subst x.
    apply (proj2 (map_keys_has m k)) in Hx. congruence.
Qed.

(** The keys of the node map stay distinct under every operation. *)
Lemma perform_nodes_distinct g o :
  NoDup (map_keys (nodes g)) -> NoDup (map_keys (nodes (perform g o))).
Proof.
  intros H. destruct o as [id name | fromId toId data | fromId toId load]; simpl.
  - now apply map_keys_set_nodup.
  - destruct (addEdge fromId toId data g) as [g' | |] eqn:E; try exact H.
    apply addEdge_shape in E. destruct E as (nodeF & _ & [-> | (nodeT & _ & ->)]);
      cbn [nodes]; repeat apply map_keys_set_nodup; exact H.
  - unfold updateEdgeLoad.
    destruct (map_get (edgeKey fromId toId) (edges g)); exact H.
Qed.

Lemma performAll_nodes_distinct ops :
  forall g, NoDup (map_keys (nodes g)) -> NoDup (map_keys (nodes (performAll g ops))).
Proof.
  induction ops as [| o rest IH]; intros g H; simpl; [exact H |].
  apply IH. now apply perform_nodes_distinct.
Qed.

Lemma built_nodes_distinct ops : NoDup (map_keys (nodes (performAll emptyGraph ops))).
Proof. apply performAll_nodes_distinct. constructor. Qed.

(** On every graph built by the operations of the class, a list returned
    by [findAlternativePaths] is empty (no path exists) or holds the
    shortest path alone, and then at most one path was asked for: a second
    path is never returned. *)
Theorem findAlternativePaths_returns_shortest_only
    (ops : list operation) (startId endId : string) (k : nat)
    (paths : list PathInfo) :
  findAlternativePaths startId endId k (performAll emptyGraph ops) = Ok paths ->
  (paths = []
   /\ findShortestPath startId endId None (performAll emptyGraph ops) = Ok NotFound)
  \/ (exists p,
        paths = [p]
        /\ findShortestPath startId endId None (performAll emptyGraph ops)
           = Ok (Found p)
        /\ (k <= 1)%nat).
Proof. apply alternatives_shortest_only, built_nodes_distinct. Qed.

Lemma findAlternativePaths_returns_shortest_only_witness :
  exists p,
    findAlternativePaths "A" "C" 1 (performAll emptyGraph triangleOps) = Ok [p]
    /\ path p = ["A"; "B"; "C"].
Proof.
  eexists. split; [vm_compute; reflexivity |].
  destruct (findAlternativePaths_returns_shortest_only triangleOps "A" "C" 1 _
              ltac:(vm_compute; reflexivity)) as [[H _] | (p & H & _)].
  - discriminate H.
  - reflexivity.
Defined.

(** ** The plan for a single path *)

Lemma Qfloor_of_Z (n : Z) : Qfloor (Q2Qc (inject_Z n)) = n.
Proof.
  transitivity (Qfloor (inject_Z n)); [| apply Qfloor_Z].
  apply Qfloor_comp. unfold Q2Qc. cbn [this]. apply Qred_correct.
Qed.

(** One path of positive travel time takes every vehicle. *)
Lemma allocate_single (n : Z) (p : PathInfo) (t : Qc) :
  (0 <= n)%Z -> totalTravelTime p = Fin t -> (0 < t)%Qc ->
  allocate (num_of_Z n) [p] = [withCount (num_of_Z n) (routeOf p)].
Proof.
  intros Hn Ht Htpos.
  assert (Htimes : forall q, In q [p] ->
                             totalTravelTime q = Fin (timeOf q) /\ (0 < timeOf q)%Qc).
  { intros q [<- | []]. unfold timeOf. rewrite Ht. now split. }
  assert (Hne : [p] <> []) by discriminate.
  assert (Hfl : flooredShares (num_of_Z n) [p] = [withCount (num_of_Z n) (routeOf p)]).
  { unfold flooredShares. rewrite (weighPaths_value [p] Htimes).
    cbn [map routeOf weight]. rewrite Ht.
    change n1 with (Fin 1%Qc). rewrite num_div_fin by exact Htpos.
    cbn [qsum map]. unfold timeOf. rewrite Ht.
    assert (Hw : (0 < 1 / t + 0)%Qc).
    { rewrite Qcplus_0_r. unfold Qcdiv. rewrite Qcmult_1_l. now apply Qc_inv_pos. }
    rewrite num_div_fin by exact Hw.
    unfold num_of_Z at 1. cbn [num_mul num_floor].
    replace (Q2Qc (inject_Z n) * (1 / t / (1 / t + 0)))%Qc with (Q2Qc (inject_Z n)).
    - now rewrite Qfloor_of_Z.
    - field. split; now apply Qc_pos_neq0. }
  unfold allocate. rewrite Hfl.
  unfold sumCounts. cbn [fold_left vehicleCount withCount].
  change n0 with (num_of_Z 0). rewrite num_of_Z_add, num_of_Z_sub.
  change (num_of_Z 0) with n0. rewrite num_of_Z_pos.
  replace (n - (0 + n))%Z with 0%Z by lia. reflexivity.
Qed.

(** One path of travel time 0: the weight is [Infinity], the share
    [Infinity / Infinity], and the count is [NaN] whatever the number of
    vehicles. *)
Lemma allocate_single_zero_time (totalVehicles : num) (p : PathInfo) :
  totalTravelTime p = n0 ->
  allocate totalVehicles [p] = [withCount NaN (routeOf p)].
Proof.
  intros Ht. destruct p as [nodesOnPath es dist time]. cbn in Ht. subst time.
  destruct totalVehicles; reflexivity.
Qed.

(** On every graph built by the operations of the class, a plan returned
    by [distributeTraffic] is the failure "No paths found" (no path exists)
    or a success with a single route, the shortest path, and then at most
    one path was asked for.  That route takes all vehicles when their
    number is a non-negative integer and the travel time is at least
    [2 ** -1022], so that its reciprocal, the weight, is finite; with a
    travel time of 0 the weight is infinite and the count is [NaN]. *)
Theorem distributeTraffic_returns_single_route
    (ops : list operation) (startId endId : string) (totalVehicles : num)
    (numPaths : nat) (plan : Plan) :
  distributeTraffic startId endId totalVehicles numPaths (performAll emptyGraph ops)
  = Ok plan ->
  (plan = Failure "No paths found"
   /\ findShortestPath startId endId None (performAll emptyGraph ops) = Ok NotFound)
  \/ (exists p route,
        findShortestPath startId endId None (performAll emptyGraph ops)
        = Ok (Found p)
        /\ (numPaths <= 1)%nat
        /\ plan = Success totalVehicles [route]
        /\ routePath route = path p
        /\ routeEdges route = pathEdges p
        /\ routeTravelTime route = totalTravelTime p
        /\ (forall n t, totalVehicles = num_of_Z n -> (0 <= n)%Z ->
                        totalTravelTime p = Fin t -> (minNormal <= t)%Qc ->
                        vehicleCount route = totalVehicles)
        /\ (totalTravelTime p = n0 -> vehicleCount route = NaN)).
Proof.
  intros H. unfold distributeTraffic in H. bind_inv H. rename a into paths.
  destruct (alternatives_shortest_only _ _ _ _ _ (built_nodes_distinct ops) E)
    as [[-> Hnone] | (p & -> & Hfound & Hk)].
  - left. injection H as <-. now split.
  - right. injection H as <-.
    assert (Hshape : exists route,
               allocate totalVehicles [p] = [route]
               /\ routePath route = path p /\ routeEdges route = pathEdges p
               /\ routeTravelTime route = totalTravelTime p).
    { unfold allocate, flooredShares, weighPaths.
      cbn [fold_left fst snd app map].
      match goal with
      | |- context [if ?b then _ else _] => destruct b
      end; eexists; (split; [reflexivity |]); now repeat split. }
    destruct Hshape as (route & Halloc & H1 & H2 & H3).
    exists p, route. rewrite Halloc.
    repeat split; try assumption.
    + intros n t -> Hn Ht Htmin.
      assert (Htpos : (0 < t)%Qc).
      { apply Qclt_le_trans with minNormal; [reflexivity | exact Htmin]. }
      rewrite (allocate_single n p t Hn Ht Htpos) in Halloc.
      injection Halloc as <-. reflexivity.
    + intros Ht. rewrite (allocate_single_zero_time totalVehicles p Ht) in Halloc.
      injection Halloc as <-. reflexivity.
Qed.

Lemma distributeTraffic_returns_single_route_witness :
  exists route,
    distributeTraffic "A" "C" (num_of_Z 100) 1 (performAll emptyGraph triangleOps)
    = Ok (Success (num_of_Z 100) [route])
    /\ routePath route = ["A"; "B"; "C"]
    /\ vehicleCount route = num_of_Z 100.
Proof.
  destruct (distributeTraffic "A" "C" (num_of_Z 100) 1
              (performAll emptyGraph triangleOps)) as [plan | e |] eqn:E;
    [| vm_compute in E; discriminate E | vm_compute in E; discriminate E].
  destruct (distributeTraffic_returns_single_route triangleOps "A" "C"
              (num_of_Z 100) 1 plan E)
    as [[_ H] | (p & route & Hp & _ & Hplan & Hpath & _ & _ & Hall & _)].
  - vm_compute in H. discriminate H.
  - exists route. subst plan. split; [reflexivity |].
    vm_compute in Hp. injection Hp as <-. split; [exact Hpath |].
    apply (Hall 100%Z (Q2Qc (inject_Z 10))); [reflexivity | lia | reflexivity |].
    unfold Qcle, Qle. vm_compute. discriminate.
Defined.

(** ** Recognising a path that is already there *)

Lemma dashfree_cut (x x' s s' : string) :
  dashfree x = true -> dashfree x' = true ->
  (x ++ "-" ++ s)%string = (x' ++ "-" ++ s')%string ->
  x = x' /\ s = s'.
Proof.
  revert x'. induction x as [| c x IH]; intros [| c' x'] Hx Hx' H; simpl in *.
  - injection H as H. now split.
  - injection H as Hc _. subst c'. discriminate Hx'.
  - injection H as Hc _. subst c. discriminate Hx.
  - injection H as Hc H. subst c'.
    apply andb_prop in Hx. apply andb_prop in Hx'.
    destruct (IH x' (proj2 Hx) (proj2 Hx') H) as [-> ->]. now split.
Qed.

Lemma dashfree_whole (x x' s : string) :
  dashfree x = true -> x <> (x' ++ "-" ++ s)%string.
Proof.
  revert x. induction x' as [| c x' IH]; intros [| c' x] Hx H; simpl in *;
    try discriminate H.
  - injection H as Hc _. subst c'. discriminate Hx.
  - injection H as _ H. apply andb_prop in Hx. now apply (IH x (proj2 Hx)).
Qed.

(** Joined with ["-"], two non-empty sequences of identifiers without
    ["-"] give the same string only when they are the same sequence. *)
Lemma join_injective (xs : list string) :
  forall ys,
    xs <> [] -> ys <> [] ->
    (forall x, In x xs -> dashfree x = true) ->
    (forall y, In y ys -> dashfree y = true) ->
    join xs = join ys -> xs = ys.
Proof.
  induction xs as [| x xs IH]; intros ys Hxs Hys Hdx Hdy H; [congruence |].
  destruct ys as [| y ys]; [congruence |].
  assert (Hx : dashfree x = true) by (apply Hdx; now left).
  assert (Hy : dashfree y = true) by (apply Hdy; now left).
  destruct xs as [| x2 xs]; destruct ys as [| y2 ys].
  - simpl in H. now subst.
  - change (x = (y ++ "-" ++ join (y2 :: ys))%string) in H.
    now apply dashfree_whole in H.
  - change ((x ++ "-" ++ join (x2 :: xs))%string = y) in H.
    symmetry in H. now apply dashfree_whole in H.
  - change ((x ++ "-" ++ join (x2 :: xs))%string
            = (y ++ "-" ++ join (y2 :: ys))%string) in H.
    destruct (dashfree_cut _ _ _ _ Hx Hy H) as [-> Hrest].
    f_equal. apply IH; try discriminate; try exact Hrest.
    + intros z Hz. apply Hdx. now right.
    + intros z Hz. apply Hdy. now right.
Qed.

(** [pathExists] compares the node sequences joined with ["-"].  For
    non-empty sequences of identifiers that contain no ["-"] it answers
    [true] exactly when the node sequence is among the existing paths. *)
Theorem pathExists_exact (existingPaths : list PathInfo) (newPath : list string) :
  newPath <> [] ->
  (forall x, In x newPath -> dashfree x = true) ->
  (forall p, In p existingPaths ->
             path p <> [] /\ forall x, In x (path p) -> dashfree x = true) ->
  (pathExists existingPaths newPath = true <-> In newPath (map path existingPaths)).
Proof.
  intros Hne Hnew Hold. split.
  - induction existingPaths as [| existing rest IH]; simpl; [discriminate |].
    destruct (String.eqb (join (path existing)) (join newPath)) eqn:E.
    + intros _. left. apply String.eqb_eq in E.
      destruct (Hold existing (or_introl eq_refl)) as [Hne' Hfree].
      now apply join_injective.
    + intros H. right. apply IH; [| exact H].
      intros p Hp. apply Hold. now right.
  - intros Hin. destruct (pathExists existingPaths newPath) eqn:E; [reflexivity |].
    now apply pathExists_false in E.
Qed.

Lemma pathExists_exact_witness :
  pathExists [pathOfTime ["A"; "B"; "C"] 10] ["A"; "C"] = true
  <-> In ["A"; "C"] (map path [pathOfTime ["A"; "B"; "C"] 10]).
Proof.
  apply pathExists_exact.
  - discriminate.
  - intros x [<- | [<- | []]]; reflexivity.
  - intros p [<- | []]. split; [discriminate |].
    intros x [<- | [<- | [<- | []]]]; reflexivity.
Defined.

(** With ["-"] inside identifiers the comparison confuses different
    sequences. *)
Example pathExists_dashed_identifiers :
  pathExists [pathOfTime ["A-B"; "C"] 10] ["A"; "B-C"] = true
  /\ ~ In ["A"; "B-C"] (map path [pathOfTime ["A-B"; "C"] 10]).
Proof. split; [reflexivity |]. intros [H | []]. discriminate H. Qed.

(** ** Building the network from records *)

Lemma addNodes_keys nodeRecords :
  forall g id,
    map_has id
      (nodes (fold_left (fun g (r : string * NodeData) => addNode (fst r) (snd r) g)
                nodeRecords g)) = true
    <-> In id (recordIds nodeRecords) \/ map_has id (nodes g) = true.
Proof.
  unfold recordIds.
  induction nodeRecords as [| [k data] rest IH]; intros g id; simpl.
  - split; [now right | now intros [[] | H]].
  - rewrite IH. cbn [addNode nodes]. rewrite map_has_set.
    destruct (String.eqb id k) eqn:E.
    + apply String.eqb_eq in E. subst. simpl. split; intros _; [left | right]; auto.
    + apply String.eqb_neq in E. simpl. split.
      * intros [H | H]; auto.
      * intros [[H | H] | H]; auto; congruence.
Qed.

Lemma addEdge_throws_missing g fromId toId data :
  map_has fromId (nodes g) = false \/ map_has toId (nodes g) = false ->
  addEdge fromId toId data g
  = Throw (Error ("Cannot create edge between non-existent nodes: "
                    ++ fromId ++ ", " ++ toId)).
Proof.
  intros H. unfold addEdge.
  destruct H as [H | H]; rewrite H; cbn [negb orb]; [reflexivity |].
  now destruct (map_has fromId (nodes g)).
Qed.

(** A call of [addEdge] between two nodes returns; the node identifiers
    stay, stored edges stay stored, and the new edge and neighbor are
    there, in both directions when the edge is bidirectional. *)
Lemma addEdge_returns_present g fromId toId data :
  map_has fromId (nodes g) = true -> map_has toId (nodes g) = true ->
  exists g',
    addEdge fromId toId data g = Ok g'
    /\ grows (nodes g) (nodes g')
    /\ (forall k, map_has k (edges g) = true -> map_has k (edges g') = true)
    /\ map_has (edgeKey fromId toId) (edges g') = true
    /\ (exists node, map_get fromId (nodes g') = Some node
                     /\ In toId (connections node))
    /\ (d_bidirectional data = Some true ->
        map_has (edgeKey toId fromId) (edges g') = true
        /\ exists node, map_get toId (nodes g') = Some node
                        /\ In fromId (connections node)).
Proof.
  intros Hf Ht.
  assert (Hret : exists g', addEdge fromId toId data g = Ok g').
  { destruct (proj1 (map_has_true _ _) Hf) as [nodeFrom Hfrom].
    destruct (d_bidirectional data) as [[|] |] eqn:Hbi.
    - destruct (addEdge_ok_both_ways g fromId toId data Hf Ht Hbi) as [ns H].
      eexists. exact H.
    - eexists. apply (addEdge_ok_one_way _ _ _ _ _ Hfrom Ht). rewrite Hbi. discriminate.
    - eexists. apply (addEdge_ok_one_way _ _ _ _ _ Hfrom Ht). rewrite Hbi. discriminate. }
  destruct Hret as [g' Hg']. exists g'. split; [exact Hg' |].
  split; [now apply addEdge_grows in Hg' |].
  pose proof Hg' as Hshape. apply addEdge_shape in Hshape.
  destruct Hshape as (nodeF & HF & Hshape). cbn zeta in Hshape.
  assert (Hone : d_bidirectional data <> Some true ->
                 g' = {| nodes := map_set fromId
                                    {| node_id := node_id nodeF;
                                       connections := set_add toId (connections nodeF);
                                       node_name := node_name nodeF |} (nodes g);
                         edges := map_set (edgeKey fromId toId)
                                    (edgeLiteral (edgeKey fromId toId) fromId toId data)
                                    (edges g) |}).
  { intros Hbi. rewrite (addEdge_ok_one_way _ _ _ _ _ HF Ht Hbi) in Hg'.
    now injection Hg' as <-. }
  destruct (d_bidirectional data) as [[|] |] eqn:Hbi.
  - assert (Ht' : map_has toId
                    (map_set fromId
                       {| node_id := node_id nodeF;
                          connections := set_add toId (connections nodeF);
                          node_name := node_name nodeF |} (nodes g)) = true).
    { rewrite map_has_set, Ht. apply orb_true_r. }
    destruct (proj1 (map_has_true _ _) Ht') as [nodeT HT].
    rewrite (addEdge_ok_two_way _ _ _ _ _ _ HF HT Hbi) in Hg'.
    injection Hg' as <-. cbn [nodes edges].
    split; [| split; [| split]].
    + intros k Hk. rewrite !map_has_set, Hk. now rewrite !orb_true_r.
    + rewrite !map_has_set, String.eqb_refl. apply orb_true_r.
    + destruct (String.eqb fromId toId) eqn:E.
      * apply String.eqb_eq in E. subst toId.
        eexists. split; [apply map_get_set_same |].
        cbn [connections]. apply set_add_In. now left.
      * apply String.eqb_neq in E. eexists. split.
        -- rewrite map_get_set_other by exact E. apply map_get_set_same.
        -- cbn [connections]. apply set_add_In. now left.
    + intros _. split.
      * rewrite map_has_set, String.eqb_refl. reflexivity.
      * eexists. split; [apply map_get_set_same |].
        cbn [connections]. apply set_add_In. now left.
  - rewrite Hone by discriminate. cbn [nodes edges].
    split; [| split; [| split]].
    + intros k Hk. rewrite map_has_set, Hk. apply orb_true_r.
    + rewrite map_has_set, String.eqb_refl. reflexivity.
    + eexists. split; [apply map_get_set_same |].
      cbn [connections]. apply set_add_In. now left.
    + discriminate.
  - rewrite Hone by discriminate. cbn [nodes edges].
    split; [| split; [| split]].
    + intros k Hk. rewrite map_has_set, Hk. apply orb_true_r.
    + rewrite map_has_set, String.eqb_refl. reflexivity.
    + eexists. split; [apply map_get_set_same |].
      cbn [connections]. apply set_add_In. now left.
    + discriminate.
Qed.

Section NetworkEdges.
Let addRecord (acc : outcome RoadGraph) (r : string * string * EdgeData)
  : outcome RoadGraph :=
  g <- acc ;;
  let '(f, t, data) := r in
  addEdge f t
    (withBidirectional
       (match d_bidirectional data with Some false => false | _ => true end)
       data) g.

Lemma addRecords_after_throw edgeRecords e :
  fold_left addRecord edgeRecords (Throw e) = Throw e.
Proof. induction edgeRecords as [| r rest IH]; [reflexivity | exact IH]. Qed.

Lemma neighbor_grows g g' a b :
  grows (nodes g) (nodes g') -> neighbor g a b -> neighbor g' a b.
Proof.
  intros [Hkeys Hconn] [(node & Hnode & Hin) Hb]. split.
  - destruct (Hconn a node Hnode) as (node' & Hnode' & Hincl).
    exists node'. split; [exact Hnode' | now apply Hincl].
  - now rewrite Hkeys.
Qed.

Lemma arc_grows g g' a b :
  grows (nodes g) (nodes g') ->
  (forall k, map_has k (edges g) = true -> map_has k (edges g') = true) ->
  arc g a b -> arc g' a b.
Proof.
  intros Hgrows Hedges [Hn He]. split; [now apply neighbor_grows with g | now apply Hedges].
Qed.

Lemma addRecords_return edgeRecords :
  forall g,
    (forall r, In r edgeRecords ->
               map_has (fst (fst r)) (nodes g) = true
               /\ map_has (snd (fst r)) (nodes g) = true) ->
    exists g',
      fold_left addRecord edgeRecords (Ok g) = Ok g'
      /\ grows (nodes g) (nodes g')
      /\ (forall k, map_has k (edges g) = true -> map_has k (edges g') = true)
      /\ forall f t data,
           In (f, t, data) edgeRecords ->
           arc g' f t /\ (d_bidirectional data <> Some false -> arc g' t f).
Proof.
  induction edgeRecords as [| [[f t] data] rest IH]; intros g Hknown.
  - exists g. repeat split; try apply grows_refl; auto; contradiction.
  - destruct (Hknown (f, t, data) (or_introl eq_refl)) as [Hf Ht]. cbn [fst snd] in Hf, Ht.
    set (data' := withBidirectional
                    (match d_bidirectional data with Some false => false | _ => true end)
                    data).
    destruct (addEdge_returns_present g f t data' Hf Ht)
      as (g1 & Hg1 & Hgrows1 & Hedges1 & Hedge & Hnb & Hboth).
    destruct (IH g1) as (g' & Hg' & Hgrows & Hedges & Hrest).
    { intros r Hr. destruct Hgrows1 as [Hkeys _]. rewrite !Hkeys.
      apply Hknown. now right. }
    exists g'. split; [| split; [| split]].
    + cbn [fold_left]. change (addRecord (Ok g) (f, t, data)) with (addEdge f t data' g).
      now rewrite Hg1.
    + now apply grows_trans with (nodes g1).
    + intros k Hk. now apply Hedges, Hedges1.
    + intros f' t' d' [Heq | Hin]; [| now apply Hrest].
      injection Heq as <- <- <-.
      assert (Hkeys1 : forall k, map_has k (nodes g1) = map_has k (nodes g))
        by now destruct Hgrows1.
      split.
      * apply (arc_grows g1 g' f t Hgrows Hedges).
        split; [split; [exact Hnb | now rewrite Hkeys1] | exact Hedge].
      * intros Hbi.
        assert (Hbi' : d_bidirectional data' = Some true).
        { unfold data'. destruct (d_bidirectional data) as [[|] |]; try reflexivity.
          now contradiction Hbi. }
        destruct (Hboth Hbi') as [Hrev Hnbrev].
        apply (arc_grows g1 g' t f Hgrows Hedges).
        split; [split; [exact Hnbrev | now rewrite Hkeys1] | exact Hrev].
Qed.

Lemma addEdge_nodes_distinct g fromId toId data g' :
  addEdge fromId toId data g = Ok g' ->
  NoDup (map_keys (nodes g)) -> NoDup (map_keys (nodes g')).
Proof.
  intros E H. apply addEdge_shape in E.
  destruct E as (nodeF & _ & [-> | (nodeT & _ & ->)]);
    cbn [nodes]; repeat apply map_keys_set_nodup; exact H.
Qed.

Lemma addRecords_nodes_distinct edgeRecords :
  forall g g',
    fold_left addRecord edgeRecords (Ok g) = Ok g' ->
    NoDup (map_keys (nodes g)) -> NoDup (map_keys (nodes g')).
Proof.
  induction edgeRecords as [| [[f t] data] rest IH]; intros g g' H Hnodup.
  - injection H as <-. exact Hnodup.
  - cbn [fold_left] in H.
    destruct (addRecord (Ok g) (f, t, data)) as [g1 | e |] eqn:E.
    + apply (IH g1 g' H). now apply (addEdge_nodes_distinct _ _ _ _ _ E).
    + now rewrite addRecords_after_throw in H.
    + exfalso. clear - H. induction rest as [| r rest IH]; [discriminate H | exact (IH H)].
Qed.

Lemma addNodes_distinct nodeRecords :
  forall g,
    NoDup (map_keys (nodes g)) ->
    NoDup (map_keys
             (nodes (fold_left
                       (fun g (r : string * NodeData) => addNode (fst r) (snd r) g)
                       nodeRecords g))).
Proof.
  induction nodeRecords as [| r rest IH]; intros g H; [exact H |].
  apply IH. cbn [addNode nodes]. now apply map_keys_set_nodup.
Qed.

(** The node identifiers of a network built from records are distinct. *)
Lemma created_nodes_distinct nodeRecords edgeRecords g :
  createKachiDhamNetwork nodeRecords edgeRecords = Ok g ->
  NoDup (map_keys (nodes g)).
Proof.
  intros H. apply (addRecords_nodes_distinct edgeRecords _ g H).
  apply addNodes_distinct. constructor.
Qed.

(** [createKachiDhamNetwork(nodes, edges)] returns a graph when both
    endpoints of every edge record are among the node records; its nodes
    are then the identifiers of the node records, and every edge record is
    a step of the graph, in both directions unless the record says
    [bidirectional: false].  It throws the error of [addEdge] at the first
    edge record with an endpoint that no node record names. *)
Theorem createKachiDhamNetwork_outcome
    (nodeRecords : list (string * NodeData))
    (edgeRecords : list (string * string * EdgeData)) :
  (Forall (endpoints_known nodeRecords) edgeRecords ->
   exists g,
     createKachiDhamNetwork nodeRecords edgeRecords = Ok g
     /\ (forall id, map_has id (nodes g) = true <-> In id (recordIds nodeRecords))
     /\ forall f t data,
          In (f, t, data) edgeRecords ->
          arc g f t /\ (d_bidirectional data <> Some false -> arc g t f))
  /\ (forall before f t data after,
        edgeRecords = before ++ (f, t, data) :: after ->
        Forall (endpoints_known nodeRecords) before ->
        ~ endpoints_known nodeRecords (f, t, data) ->
        createKachiDhamNetwork nodeRecords edgeRecords
        = Throw (Error ("Cannot create edge between non-existent nodes: "
                          ++ f ++ ", " ++ t))).
Proof.
  set (g0 := fold_left (fun g (r : string * NodeData) => addNode (fst r) (snd r) g)
               nodeRecords emptyGraph).
  assert (Hkeys0 : forall id, map_has id (nodes g0) = true
                              <-> In id (recordIds nodeRecords)).
  { intros id. unfold g0. rewrite addNodes_keys. split; [| now left].
    intros [H | H]; [exact H | discriminate H]. }
  assert (Hknown : forall records,
             Forall (endpoints_known nodeRecords) records ->
             forall r, In r records ->
                       map_has (fst (fst r)) (nodes g0) = true
                       /\ map_has (snd (fst r)) (nodes g0) = true).
  { intros records Hall r Hr. rewrite Forall_forall in Hall.
    destruct (Hall r Hr) as [Hf Ht]. split; now apply Hkeys0. }
  split.
  - intros Hall.
    destruct (addRecords_return edgeRecords g0 (Hknown _ Hall))
      as (g & Hg & [Hkeys _] & _ & Hedges).
    exists g. split; [exact Hg |]. split; [| exact Hedges].
    intros id. rewrite Hkeys. apply Hkeys0.
  - intros before f t data after -> Hall Hbad.
    destruct (addRecords_return before g0 (Hknown _ Hall))
      as (g & Hg & [Hkeys _] & _ & _).
    change (createKachiDhamNetwork nodeRecords (before ++ (f, t, data) :: after))
      with (fold_left addRecord (before ++ (f, t, data) :: after) (Ok g0)).
    rewrite fold_left_app, Hg. cbn [fold_left].
    set (data' := withBidirectional
                    (match d_bidirectional data with Some false => false | _ => true end)
                    data).
    change (addRecord (Ok g) (f, t, data)) with (addEdge f t data' g).
    rewrite addEdge_throws_missing; [apply addRecords_after_throw |].
    rewrite !Hkeys.
    destruct (map_has f (nodes g0)) eqn:Ef; [| now left].
    destruct (map_has t (nodes g0)) eqn:Et; [| now right].
    contradiction Hbad. split; now apply Hkeys0.
Qed.
End NetworkEdges.

Lemma In_existsb (x : string) (l : list string) :
  In x l -> existsb (String.eqb x) l = true.
Proof.
  intros H. apply existsb_exists. exists x. split; [exact H | apply String.eqb_refl].
Qed.

Lemma endpoints_knownb_sound nodeRecords edgeRecords :
  forallb (fun r : string * string * EdgeData =>
             existsb (String.eqb (fst (fst r))) (recordIds nodeRecords)
             && existsb (String.eqb (snd (fst r))) (recordIds nodeRecords))
          edgeRecords = true ->
  Forall (endpoints_known nodeRecords) edgeRecords.
Proof.
  intros H. apply Forall_forall. intros r Hr.
  rewrite forallb_forall in H. specialize (H r Hr).
  apply andb_prop in H. destruct H as [Hf Ht].
  apply existsb_exists in Hf. destruct Hf as (x & Hx & Ex).
  apply existsb_exists in Ht. destruct Ht as (y & Hy & Ey).
  apply String.eqb_eq in Ex. apply String.eqb_eq in Ey. subst x y.
  now split.
Qed.

Lemma createKachiDhamNetwork_outcome_witness :
  createKachiDhamNetwork kachiDhamNodes kachiDhamEdges
  = Throw (Error "Cannot create edge between non-existent nodes: hill_view, temple_north").
Proof.
  apply (proj2 (createKachiDhamNetwork_outcome kachiDhamNodes kachiDhamEdges)
           kachiDhamEdgesBefore "hill_view" "temple_north"
           (snd (edgeRecord "hill_view" "temple_north" (tenths 7) 7 250 25))
           kachiDhamEdgesAfter).
  - reflexivity.
  - apply endpoints_knownb_sound. vm_compute. reflexivity.
  - intros [_ H]. apply In_existsb in H. vm_compute in H. discriminate H.
Defined.

(** ** The request handlers *)

Lemma missing_text (s : string) : s <> "" -> Controller.missing (Some s) = false.
Proof. intros H. apply String.eqb_neq in H. exact H. Qed.

(** A traffic update never gets the reply 404 "Edge not found": for an
    edge that is not stored, [updateEdgeLoad] has thrown before the
    handler looks the edge up, and the reply is 500 with the message of
    that error, the network unchanged.  For a stored edge the reply
    carries the load as given, also a load of 0, the travel time that
    follows from it, and the load as a percentage of the capacity, and the
    network holds the updated edge. *)
Theorem updateEdgeTraffic_reply
    (nodeRecords : list (string * NodeData))
    (edgeRecords : list (string * string * EdgeData)) :
  (forall body roadNetwork,
      Controller.statusOf
        (snd (Controller.updateEdgeTraffic nodeRecords edgeRecords body roadNetwork))
      <> Some 404%nat)
  /\ (forall f t l g,
         f <> "" -> t <> "" ->
         map_get (edgeKey f t) (edges g) = None ->
         Controller.updateEdgeTraffic nodeRecords edgeRecords
           (Controller.trafficBody f t l) (Some g)
         = (Some g,
            Controller.ServerError (Error ("Edge does not exist: " ++ edgeKey f t))))
  /\ (forall f t l g edge,
         f <> "" -> t <> "" ->
         map_get (edgeKey f t) (edges g) = Some edge ->
         exists payload,
           Controller.updateEdgeTraffic nodeRecords edgeRecords
             (Controller.trafficBody f t l) (Some g)
           = (Some {| nodes := nodes g;
                      edges := map_set (edgeKey f t) (loadedEdge l edge) (edges g) |},
              Controller.Sent payload)
           /\ Controller.et_currentLoad payload = l
           /\ Controller.et_currentTravelTime payload
              = Some (travelTime edge * (n1 + l / capacity edge))%num
           /\ Controller.et_loadPercentage payload
              = (l / capacity edge * num_of_Z 100)%num).
Proof.
  split; [| split].
  - intros body roadNetwork. unfold Controller.updateEdgeTraffic.
    destruct (Controller.missing (Controller.fromId body)
              || Controller.missing (Controller.toId body)
              || match Controller.load body with None => true | Some _ => false end);
      [discriminate |].
    destruct (Controller.initializeRoadNetwork nodeRecords edgeRecords roadNetwork)
      as [[network initialized] | e |]; try discriminate.
    unfold updateEdgeLoad.
    destruct (map_get (edgeKey (Controller.textOf (Controller.fromId body))
                         (Controller.textOf (Controller.toId body)))
                (edges network)) as [edge |]; [| discriminate].
    cbn [edges]. rewrite map_get_set_same. discriminate.
  - intros f t l g Hf Ht Hnone. unfold Controller.updateEdgeTraffic.
    cbn [Controller.trafficBody Controller.fromId Controller.toId Controller.load
           Controller.textOf Controller.initializeRoadNetwork Controller.numberOf].
    rewrite (missing_text f Hf), (missing_text t Ht). cbn [orb].
    unfold updateEdgeLoad. now rewrite Hnone.
  - intros f t l g edge Hf Ht Hedge. unfold Controller.updateEdgeTraffic.
    cbn [Controller.trafficBody Controller.fromId Controller.toId Controller.load
           Controller.textOf Controller.initializeRoadNetwork Controller.numberOf].
    rewrite (missing_text f Hf), (missing_text t Ht). cbn [orb].
    rewrite (updateEdgeLoad_ok g f t l edge Hedge). cbn [edges].
    rewrite map_get_set_same. eexists. split; [reflexivity |].
    now repeat split.
Qed.

Lemma updateEdgeTraffic_reply_witness :
  Controller.updateEdgeTraffic kachiDhamNodes kachiDhamEdges
    (Controller.trafficBody "C" "A" n0) (Some triangleGraph)
  = (Some triangleGraph, Controller.ServerError (Error "Edge does not exist: C-A")).
Proof.
  apply (proj1 (proj2 (updateEdgeTraffic_reply kachiDhamNodes kachiDhamEdges))
           "C" "A" n0 triangleGraph).
  - discriminate.
  - discriminate.
  - reflexivity.
Defined.

(** [findOptimalPath] always replies.  A missing or empty identifier gives
    400; an identifier that is not a node gives 500 with the message of the
    error that [findShortestPath] throws; a route from a node to itself
    gives 404; and a reply with status 200 carries the path, the distance
    and the travel time of the shortest path found. *)
Theorem findOptimalPath_reply
    (nodeRecords : list (string * NodeData))
    (edgeRecords : list (string * string * EdgeData)) (g : RoadGraph) :
  (forall body,
      Controller.findOptimalPath nodeRecords edgeRecords body (Some g)
      <> Controller.Pending)
  /\ (forall body,
         Controller.missing (Controller.startId body) = true
         \/ Controller.missing (Controller.endId body) = true ->
         Controller.findOptimalPath nodeRecords edgeRecords body (Some g)
         = Controller.Rejected 400 "Start and end locations are required")
  /\ (forall s e k n,
         s <> "" -> e <> "" ->
         map_has s (nodes g) = false \/ map_has e (nodes g) = false ->
         Controller.findOptimalPath nodeRecords edgeRecords
           (Controller.routeBody s e k n) (Some g)
         = Controller.ServerError
             (Error ("Start or end node does not exist: " ++ s ++ ", " ++ e)))
  /\ (forall s k n,
         s <> "" -> map_has s (nodes g) = true ->
         Controller.findOptimalPath nodeRecords edgeRecords
           (Controller.routeBody s s k n) (Some g)
         = Controller.Rejected 404 "No path found between the specified locations")
  /\ (forall s e k n payload,
         Controller.findOptimalPath nodeRecords edgeRecords
           (Controller.routeBody s e k n) (Some g)
         = Controller.Sent payload ->
         exists p,
           findShortestPath s e None g = Ok (Found p)
           /\ Controller.op_path payload = path p
           /\ Controller.op_distance payload = totalDistance p
           /\ Controller.op_travelTime payload = totalTravelTime p
           /\ Controller.op_edges payload
              = map Controller.edgeWithLoad (pathEdges p)).
Proof.
  split; [| split; [| split; [| split]]].
  - intros body. unfold Controller.findOptimalPath.
    destruct (Controller.missing (Controller.startId body)
              || Controller.missing (Controller.endId body)); [discriminate |].
    cbn [Controller.initializeRoadNetwork bind].
    pose proof (findShortestPath_total g (Controller.textOf (Controller.startId body))
                  (Controller.textOf (Controller.endId body)) None) as Htotal.
    destruct (findShortestPath (Controller.textOf (Controller.startId body))
                (Controller.textOf (Controller.endId body)) None g)
      as [[p |] | e |]; cbn [bind Controller.caught]; try discriminate.
    contradiction.
  - intros body H. unfold Controller.findOptimalPath.
    destruct H as [H | H]; rewrite H; [reflexivity |].
    now rewrite orb_true_r.
  - intros s e k n Hs He H. unfold Controller.findOptimalPath.
    cbn [Controller.routeBody Controller.startId Controller.endId Controller.textOf
           Controller.initializeRoadNetwork].
    rewrite (missing_text s Hs), (missing_text e He). cbn [orb bind].
    unfold findShortestPath.
    destruct H as [H | H]; rewrite H; cbn [negb orb]; [reflexivity |].
    now destruct (map_has s (nodes g)).
  - intros s k n Hs Hnode. unfold Controller.findOptimalPath.
    cbn [Controller.routeBody Controller.startId Controller.endId Controller.textOf
           Controller.initializeRoadNetwork].
    rewrite (missing_text s Hs). cbn [orb bind].
    now rewrite (search_same_node g s None Hnode).
  - intros s e k n payload H. unfold Controller.findOptimalPath in H.
    cbn [Controller.routeBody Controller.startId Controller.endId Controller.textOf
           Controller.initializeRoadNetwork] in H.
    destruct (Controller.missing (Some s) || Controller.missing (Some e));
      [discriminate H |].
    cbn [bind] in H.
    destruct (findShortestPath s e None g) as [[p |] | err |];
      cbn [bind Controller.caught] in H; try discriminate H.
    injection H as <-. exists p. now repeat split.
Qed.

Lemma findOptimalPath_reply_witness :
  Controller.findOptimalPath kachiDhamNodes kachiDhamEdges
    (Controller.routeBody "A" "A" None None) (Some triangleGraph)
  = Controller.Rejected 404 "No path found between the specified locations"
  /\ Controller.findOptimalPath kachiDhamNodes kachiDhamEdges
       (Controller.routeBody "A" "Z" None None) (Some triangleGraph)
     = Controller.ServerError (Error "Start or end node does not exist: A, Z").
Proof.
  destruct (findOptimalPath_reply kachiDhamNodes kachiDhamEdges triangleGraph)
    as (_ & _ & Hunknown & Hsame & _).
  split.
  - apply Hsame; [discriminate | reflexivity].
  - apply Hunknown; [discriminate | discriminate | right; reflexivity].
Defined.

Section RoundsOfTheLoop.
Local Open Scope Qc_scope.

Lemma Qceiling_le_one (q : Qc) : (Qceiling q <= 1)%Z <-> q <= 1.
Proof.
  split.
  - intros H. unfold Qcle.
    apply Qle_trans with (inject_Z (Qceiling q)); [apply Qle_ceiling |].
    change (this 1) with (inject_Z 1). now rewrite <- Zle_Qle.
  - intros H. change 1%Z with (Qceiling 1). now apply Qceiling_resp_le.
Qed.

(** No round is made exactly when [1 < k] fails. *)
Lemma roundsBelow_none_pass (k : num) :
  roundsBelow k = Some 0%nat <-> (n1 <? k)%num = false.
Proof.
  destruct k as [q | | |]; cbn [roundsBelow]; try (split; [reflexivity | discriminate]);
    try (split; [discriminate | discriminate]); try (split; reflexivity).
  change (n1 <? Fin q)%num with (Qc_ltb 1 q).
  destruct (Qc_ltb twoTo53 q) eqn:Ebig.
  - apply Qc_ltb_lt in Ebig. split; [discriminate |].
    intros H. apply Qc_ltb_false in H. exfalso.
    apply (Qclt_not_le _ _ Ebig). apply Qcle_trans with 1; [exact H |].
    unfold Qcle, Qle. vm_compute. discriminate.
  - rewrite Qc_ltb_false. rewrite <- Qceiling_le_one. split.
    + intros H. injection H as H. lia.
    + intros H. f_equal. lia.
Qed.
End RoundsOfTheLoop.

(** On natural numbers within the range of exact integers the call for a
    number is the call of the embedding. *)
Lemma findAlternativePathsFor_nat patience startId endId (k : nat) g :
  (Z.of_nat k <= 2 ^ 53)%Z ->
  findAlternativePathsFor patience startId endId (num_of_Z (Z.of_nat k)) g
  = findAlternativePaths startId endId k g.
Proof.
  intros Hk. unfold findAlternativePathsFor, num_of_Z. cbn [roundsBelow].
  assert (Hsmall : Qc_ltb twoTo53 (Q2Qc (inject_Z (Z.of_nat k))) = false).
  { apply Qc_ltb_false. now apply Q2Qc_inject_le. }
  rewrite Hsmall.
  assert (Hceil : Qceiling (Q2Qc (inject_Z (Z.of_nat k))) = Z.of_nat k).
  { transitivity (Qceiling (inject_Z (Z.of_nat k))); [| apply Qceiling_Z].
    apply Qceiling_comp. unfold Q2Qc. cbn [this]. apply Qred_correct. }
  rewrite Hceil. unfold findAlternativePaths.
  destruct k as [| k]; [reflexivity |].
  replace (Z.to_nat (Z.of_nat (S k) - 1)) with k by lia.
  reflexivity.
Qed.

(** What a call for a number can return on a graph with distinct keys. *)
Lemma alternativesFor_shortest_only patience g startId endId k paths :
  NoDup (map_keys (nodes g)) ->
  findAlternativePathsFor patience startId endId k g = Ok paths ->
  (paths = [] /\ findShortestPath startId endId None g = Ok NotFound)
  \/ (exists p, paths = [p]
                /\ findShortestPath startId endId None g = Ok (Found p)
                /\ (n1 <? k)%num = false).
Proof.
  intros Hnodup H. unfold findAlternativePathsFor in H.
  destruct (roundsBelow k) as [rounds |] eqn:Erounds.
  - destruct (alternatives_shortest_only _ _ _ _ _ Hnodup H)
      as [Hnone | (p & -> & Hp & Hk)]; [now left |].
    right. exists p. split; [reflexivity |]. split; [exact Hp |].
    apply roundsBelow_none_pass. rewrite Erounds. f_equal. lia.
  - bind_inv H. rename a into result.
    destruct (alternatives_shortest_only _ _ _ _ _ Hnodup E)
      as [[-> Hnone] | (p & -> & Hp & Hk)].
    + cbn [List.length Nat.eqb] in H. injection H as <-. now left.
    + assert (patience = 0%nat) by lia. subst patience.
      cbn [List.length Nat.eqb] in H. discriminate H.
Qed.

Lemma alternativesFor_not_found patience g startId endId k :
  findShortestPath startId endId None g = Ok NotFound ->
  findAlternativePathsFor patience startId endId k g = Ok [].
Proof.
  intros H. unfold findAlternativePathsFor, findAlternativePaths. rewrite H.
  now destruct (roundsBelow k).
Qed.

Lemma alternativesFor_throws patience g startId endId k p :
  NoDup (map_keys (nodes g)) ->
  (1 <= patience)%nat ->
  findShortestPath startId endId None g = Ok (Found p) ->
  (n1 <? k)%num = true ->
  exists err, findAlternativePathsFor patience startId endId k g = Throw err.
Proof.
  intros Hnodup Hpatience Hp Hk. unfold findAlternativePathsFor.
  destruct (roundsBelow k) as [[| rounds] |] eqn:Erounds.
  - apply roundsBelow_none_pass in Erounds. congruence.
  - apply (findAlternativePaths_second_path_throws g startId endId _ p Hnodup);
      [lia | exact Hp].
  - destruct (findAlternativePaths_second_path_throws g startId endId
                (S patience) p Hnodup) as [err Herr]; [lia | exact Hp |].
    exists err. now rewrite Herr.
Qed.

(** The handler of alternative paths, for every value of [numPaths] that
    a JSON body can carry and every network: a reply with status 200
    means that the loop made no round, that is [1 < k] fails for the
    number [k] that [numPaths || 3] stands for, and it holds the shortest
    path alone.  When [1 < k] holds, as for the default 3, the reply is
    404 when no path exists and 500 when one does. *)
Theorem alternatives_handler_reply
    (nodeRecords : list (string * NodeData))
    (edgeRecords : list (string * string * EdgeData))
    (stringToNumber : string -> num)
    (objectToString : Controller.json -> string) (patience : nat)
    (g : RoadGraph) (s e : string) (numPaths : option Controller.json)
    (n : option num) :
  NoDup (map_keys (nodes g)) ->
  (1 <= patience)%nat ->
  s <> "" -> e <> "" ->
  (forall payload,
      Controller.findAlternativePaths nodeRecords edgeRecords
        stringToNumber objectToString patience
        (Controller.routeBody s e numPaths n) (Some g)
      = Controller.Sent payload ->
      (n1 <? Controller.requestedPaths stringToNumber objectToString numPaths)%num
      = false
      /\ exists p,
          findShortestPath s e None g = Ok (Found p)
          /\ Controller.count payload = 1%nat
          /\ Controller.paths payload = [Controller.briefPath p])
  /\ (findShortestPath s e None g = Ok NotFound ->
      Controller.findAlternativePaths nodeRecords edgeRecords
        stringToNumber objectToString patience
        (Controller.routeBody s e numPaths n) (Some g)
      = Controller.Rejected 404 "No paths found between the specified locations")
  /\ (forall p,
         findShortestPath s e None g = Ok (Found p) ->
         (n1 <? Controller.requestedPaths stringToNumber objectToString numPaths)%num
         = true ->
         exists err,
           Controller.findAlternativePaths nodeRecords edgeRecords
             stringToNumber objectToString patience
             (Controller.routeBody s e numPaths n) (Some g)
           = Controller.ServerError err)
  /\ (numPaths = None ->
      (n1 <? Controller.requestedPaths stringToNumber objectToString numPaths)%num
      = true).
Proof.
  intros Hnodup Hpatience Hs He.
  set (k := Controller.requestedPaths stringToNumber objectToString numPaths).
  assert (Hreply :
            Controller.findAlternativePaths nodeRecords edgeRecords
              stringToNumber objectToString patience
              (Controller.routeBody s e numPaths n) (Some g)
            = Controller.caught
                (found <- findAlternativePathsFor patience s e k g ;;
                 match found with
                 | [] => Ok (Controller.Rejected 404
                               "No paths found between the specified locations")
                 | _ :: _ =>
                     Ok (Controller.Sent
                           {| Controller.count := List.length found;
                              Controller.paths := map Controller.briefPath found |})
                 end)).
  { unfold Controller.findAlternativePaths.
    cbn [Controller.routeBody Controller.startId Controller.endId Controller.textOf
           Controller.numPaths Controller.initializeRoadNetwork].
    rewrite (missing_text s Hs), (missing_text e He). reflexivity. }
  rewrite Hreply. clear Hreply.
  split; [| split; [| split]].
  - intros payload H.
    destruct (findAlternativePathsFor patience s e k g)
      as [found | err |] eqn:E; cbn [bind Controller.caught] in H;
      try discriminate H.
    destruct (alternativesFor_shortest_only _ _ _ _ _ _ Hnodup E)
      as [[-> _] | (p & -> & Hp & Hk)]; [discriminate H |].
    injection H as <-. split; [exact Hk |].
    exists p. now repeat split.
  - intros Hnone. now rewrite (alternativesFor_not_found patience g s e k Hnone).
  - intros p Hp Hk.
    destruct (alternativesFor_throws patience g s e k p Hnodup Hpatience Hp Hk)
      as [err Herr].
    exists err. now rewrite Herr.
  - intros ->. reflexivity.
Qed.

Lemma alternatives_handler_reply_witness :
  exists err,
    Controller.findAlternativePaths triangleNodeRecords triangleEdgeRecords
      (fun _ => NaN) (fun _ => "") 1
      (Controller.routeBody "A" "C" None None) (Some triangleGraph)
    = Controller.ServerError err.
Proof.
  assert (Hkeys : NoDup (map_keys (nodes triangleGraph))).
  { repeat constructor; simpl; intuition discriminate. }
  destruct (alternatives_handler_reply triangleNodeRecords triangleEdgeRecords
              (fun _ => NaN) (fun _ => "") 1 triangleGraph "A" "C" None None
              Hkeys (le_n 1) ltac:(discriminate) ltac:(discriminate))
    as (_ & _ & Hfound & Hdefault).
  eapply Hfound; [vm_compute; reflexivity | now apply Hdefault].
Defined.

(** The same for the handler of the traffic distribution: a request
    without vehicles, or for 0 vehicles, gets 400.  Otherwise a reply with
    status 200 means that the loop made no round, and its plan has the
    shortest path as single route; when [1 < k] holds, as for the default
    3, the reply is 404 with "No paths found" when no path exists and 500
    when one does. *)
Theorem distribution_handler_reply
    (nodeRecords : list (string * NodeData))
    (edgeRecords : list (string * string * EdgeData))
    (stringToNumber : string -> num)
    (objectToString : Controller.json -> string) (patience : nat)
    (g : RoadGraph) (s e : string) (numPaths : option Controller.json) :
  NoDup (map_keys (nodes g)) ->
  (1 <= patience)%nat ->
  s <> "" -> e <> "" ->
  (forall n,
      n = None \/ n = Some n0 ->
      Controller.distributeTraffic nodeRecords edgeRecords
        stringToNumber objectToString patience
        (Controller.routeBody s e numPaths n) (Some g)
      = Controller.Rejected 400
          "Start location, end location, and total vehicles are required")
  /\ (forall v plan,
         Controller.distributeTraffic nodeRecords edgeRecords
           stringToNumber objectToString patience
           (Controller.routeBody s e numPaths (Some v)) (Some g)
         = Controller.Sent plan ->
         (n1 <? Controller.requestedPaths stringToNumber objectToString numPaths)%num
         = false
         /\ exists p route,
             findShortestPath s e None g = Ok (Found p)
             /\ plan = Success v [route]
             /\ routePath route = path p
             /\ routeEdges route = pathEdges p
             /\ routeTravelTime route = totalTravelTime p)
  /\ (forall v,
         truthy v = true ->
         findShortestPath s e None g = Ok NotFound ->
         Controller.distributeTraffic nodeRecords edgeRecords
           stringToNumber objectToString patience
           (Controller.routeBody s e numPaths (Some v)) (Some g)
         = Controller.Rejected 404 "No paths found")
  /\ (forall v p,
         truthy v = true ->
         findShortestPath s e None g = Ok (Found p) ->
         (n1 <? Controller.requestedPaths stringToNumber objectToString numPaths)%num
         = true ->
         exists err,
           Controller.distributeTraffic nodeRecords edgeRecords
             stringToNumber objectToString patience
             (Controller.routeBody s e numPaths (Some v)) (Some g)
           = Controller.ServerError err).
Proof.
  intros Hnodup Hpatience Hs He.
  set (k := Controller.requestedPaths stringToNumber objectToString numPaths).
  assert (Hreply :
            forall v, truthy v = true ->
              Controller.distributeTraffic nodeRecords edgeRecords
                stringToNumber objectToString patience
                (Controller.routeBody s e numPaths (Some v)) (Some g)
              = Controller.caught
                  (distribution <- distributeTrafficFor patience s e v k g ;;
                   match distribution with
                   | Failure message => Ok (Controller.Rejected 404 message)
                   | Success _ _ => Ok (Controller.Sent distribution)
                   end)).
  { intros v Hv. unfold Controller.distributeTraffic.
    cbn [Controller.routeBody Controller.startId Controller.endId Controller.textOf
           Controller.numPaths Controller.totalVehicles Controller.noVehicles
           Controller.numberOf Controller.initializeRoadNetwork].
    rewrite (missing_text s Hs), (missing_text e He), Hv. reflexivity. }
  split; [| split; [| split]].
  - intros n Hn. unfold Controller.distributeTraffic.
    cbn [Controller.routeBody Controller.startId Controller.endId
           Controller.totalVehicles].
    rewrite (missing_text s Hs), (missing_text e He).
    now destruct Hn as [-> | ->].
  - intros v plan H.
    destruct (truthy v) eqn:Hv.
    2:{ unfold Controller.distributeTraffic in H.
        cbn [Controller.routeBody Controller.startId Controller.endId
               Controller.totalVehicles Controller.noVehicles] in H.
        rewrite (missing_text s Hs), (missing_text e He), Hv in H.
        discriminate H. }
    rewrite (Hreply v Hv) in H. unfold distributeTrafficFor in H.
    destruct (findAlternativePathsFor patience s e k g)
      as [found | err |] eqn:E; cbn [bind Controller.caught] in H;
      try discriminate H.
    destruct (alternativesFor_shortest_only _ _ _ _ _ _ Hnodup E)
      as [[-> _] | (p & -> & Hp & Hk)]; [discriminate H |].
    cbn [bind Controller.caught] in H. injection H as <-.
    split; [exact Hk |].
    assert (Hshape : exists route,
               allocate v [p] = [route]
               /\ routePath route = path p /\ routeEdges route = pathEdges p
               /\ routeTravelTime route = totalTravelTime p).
    { unfold allocate, flooredShares, weighPaths.
      cbn [fold_left fst snd app map].
      match goal with
      | |- context [if ?b then _ else _] => destruct b
      end; eexists; (split; [reflexivity |]); now repeat split. }
    destruct Hshape as (route & Halloc & H1 & H2 & H3).
    exists p, route. rewrite Halloc. now repeat split.
  - intros v Hv Hnone. rewrite (Hreply v Hv).
    unfold distributeTrafficFor.
    now rewrite (alternativesFor_not_found patience g s e k Hnone).
  - intros v p Hv Hp Hk. rewrite (Hreply v Hv).
    destruct (alternativesFor_throws patience g s e k p Hnodup Hpatience Hp Hk)
      as [err Herr].
    exists err. unfold distributeTrafficFor. now rewrite Herr.
Qed.

Lemma distribution_handler_reply_witness :
  Controller.distributeTraffic triangleNodeRecords triangleEdgeRecords
    (fun _ => NaN) (fun _ => "") 1
    (Controller.routeBody "A" "C" None (Some n0)) (Some triangleGraph)
  = Controller.Rejected 400
      "Start location, end location, and total vehicles are required".
Proof.
  assert (Hkeys : NoDup (map_keys (nodes triangleGraph))).
  { repeat constructor; simpl; intuition discriminate. }
  apply (proj1 (distribution_handler_reply triangleNodeRecords triangleEdgeRecords
                  (fun _ => NaN) (fun _ => "") 1 triangleGraph "A" "C" None
                  Hkeys (le_n 1) ltac:(discriminate) ltac:(discriminate))).
  now right.
Defined.

(** ** Faster paths get more traffic *)

Section FairShares.
Local Open Scope Qc_scope.

Lemma Qc_inv_antitone (a b : Qc) : 0 < a -> a <= b -> 1 / b <= 1 / a.
Proof.
  intros Ha Hab.
  assert (Hb : 0 < b) by now apply Qclt_le_trans with a.
  assert (Hab' : 0 < / (a * b)).
  { apply Qc_inv_pos. now apply Qc_mult_pos. }
  replace (1 / b) with (a * / (a * b))
    by (field; split; now apply Qc_pos_neq0).
  replace (1 / a) with (b * / (a * b))
    by (field; split; now apply Qc_pos_neq0).
  apply Qcmult_le_compat_r; [exact Hab | now apply Qclt_le_weak].
Qed.

Lemma shareOf_antitone (n : Z) (W a b : Qc) :
  (0 <= n)%Z -> 0 < W -> 0 < a -> a <= b ->
  (shareOf n W b <= shareOf n W a)%Z.
Proof.
  intros Hn HW Ha Hab. unfold shareOf. apply Qfloor_resp_le.
  change (Q2Qc (inject_Z n) * (1 / b / W) <= Q2Qc (inject_Z n) * (1 / a / W)).
  assert (HN : 0 <= Q2Qc (inject_Z n)) by now apply (Q2Qc_inject_le 0 n).
  rewrite (Qcmult_comm _ (1 / b / W)), (Qcmult_comm _ (1 / a / W)).
  apply Qcmult_le_compat_r; [| exact HN].
  unfold Qcdiv at 1 3.
  apply Qcmult_le_compat_r; [now apply Qc_inv_antitone |].
  now apply Qclt_le_weak, Qc_inv_pos.
Qed.
End FairShares.

(** The shares before the remainder is added, for a non-negative integer
    number of vehicles and paths whose travel times are at least
    [2 ** -1022], so that the weights are finite: every path gets a whole
    number of vehicles, none of them negative, and a path that is no
    slower than another gets no fewer. *)
Theorem flooredShares_favour_faster (n : Z) (paths : list PathInfo) :
  (0 <= n)%Z ->
  paths <> [] ->
  (forall p, In p paths ->
             exists t, totalTravelTime p = Fin t /\ (minNormal <= t)%Qc) ->
  exists share : PathInfo -> Z,
    map vehicleCount (flooredShares (num_of_Z n) paths)
    = map (fun p => num_of_Z (share p)) paths
    /\ (forall p, In p paths -> (0 <= share p)%Z)
    /\ (forall p q tp tq,
           In p paths -> In q paths ->
           totalTravelTime p = Fin tp -> totalTravelTime q = Fin tq ->
           (tp <= tq)%Qc -> (share q <= share p)%Z).
Proof.
  intros Hn Hne Hmin.
  assert (Htimes : forall p, In p paths ->
                             totalTravelTime p = Fin (timeOf p) /\ (0 < timeOf p)%Qc).
  { intros p Hp. destruct (Hmin p Hp) as (t & Ht & Htmin).
    unfold timeOf. rewrite Ht. split; [reflexivity |].
    apply Qclt_le_trans with minNormal; [reflexivity | exact Htmin]. }
  set (W := qsum (map (fun t => 1 / t)%Qc (map timeOf paths))).
  assert (HW : (0 < W)%Qc) by exact (totalWeight_positive paths Hne Htimes).
  exists (fun p => shareOf n W (timeOf p)).
  split; [| split].
  - destruct (flooredShares_counts n paths Hne Htimes) as [Hcounts _].
    fold W in Hcounts. now rewrite map_map in Hcounts.
  - intros p Hp.
    pose proof (shares_nonneg n paths Hn Hne Htimes) as Hall. fold W in Hall.
    rewrite Forall_forall in Hall. apply Hall.
    apply in_map_iff. now exists p.
  - intros p q tp tq Hp Hq Htp Htq Hle.
    destruct (Htimes p Hp) as [Hp1 Hp2]. destruct (Htimes q Hq) as [Hq1 Hq2].
    rewrite Htp in Hp1. injection Hp1 as Hp1. rewrite Htq in Hq1. injection Hq1 as Hq1.
    rewrite <- Hp1, <- Hq1. apply shareOf_antitone; try assumption.
    now rewrite Hp1.
Qed.

Lemma flooredShares_favour_faster_witness :
  exists share : PathInfo -> Z,
    map vehicleCount
      (flooredShares (num_of_Z 100)
         [pathOfTime ["A"; "B"; "C"] 10; pathOfTime ["A"; "C"] 20])
    = map (fun p => num_of_Z (share p))
        [pathOfTime ["A"; "B"; "C"] 10; pathOfTime ["A"; "C"] 20]
    /\ (share (pathOfTime ["A"; "C"] 20) <= share (pathOfTime ["A"; "B"; "C"] 10))%Z.
Proof.
  destruct (flooredShares_favour_faster 100
              [pathOfTime ["A"; "B"; "C"] 10; pathOfTime ["A"; "C"] 20])
    as (share & Hcounts & _ & Hmono).
  - lia.
  - discriminate.
  - intros p [<- | [<- | []]]; eexists; (split; [reflexivity |]);
      unfold Qcle, Qle; vm_compute; discriminate.
  - exists share. split; [exact Hcounts |].
    apply (Hmono _ _ (Q2Qc (inject_Z 10)) (Q2Qc (inject_Z 20)));
      [now left | right; now left | reflexivity | reflexivity |].
    apply (proj2 (Q2Qc_inject_le 10 20)). lia.
Defined.
